(** * Uncompressed string segments (storage/compression/string_uncompressed.cpp)

    A shallow embedding of DuckDB's uncompressed string storage: the block
    layout (dictionary header, offset array, dictionary growing backwards),
    the overflow store (in-memory chain and durable block chain), the scan,
    select and fetch paths, compaction on finalize, the serialized segment
    state, the analysis pass, the prefetch and the fetch state.

    Pinned buffers are byte lists; a pointer into a buffer is an offset (Z)
    and every access is bounds checked: an access outside the buffer, which
    is undefined behaviour in the source, is [None] here, and so is a thrown
    exception. Integers are Z, with the wrap-around of each C++ type
    written out where the source computes or casts. D_ASSERT, which release
    builds compile out, is not modelled; what the assertions state appears
    as hypotheses of the theorems that need it. *)

From stdpp Require Import base option list gmap strings.
From Stdlib Require Import ZArith Lia.
From Stdlib.Strings Require Import Byte.

Local Open Scope Z_scope.

(** ** Machine integers *)

Module Int.

Definition u32 (z : Z) : Z := z mod 2 ^ 32.
Definition u64 (z : Z) : Z := z mod 2 ^ 64.

(** Two's complement reading of the low [w] bits. *)
Definition signed (w : Z) (z : Z) : Z :=
  let u := z mod 2 ^ w in
  if u <? 2 ^ (w - 1) then u else u - 2 ^ w.

Definition i32 (z : Z) : Z := signed 32 z.
Definition i64 (z : Z) : Z := signed 64 z.

End Int.

(** ** Bytes and little-endian encodings (Load<T> / Store<T> / memcpy of a
       scalar on a little-endian host) *)

Module Bytes.

Definition byte_of_Z (z : Z) : byte :=
  match Byte.of_N (Z.to_N (z mod 256)) with
  | Some b => b
  | None => x00
  end.

Definition Z_of_byte (b : byte) : Z := Z.of_N (Byte.to_N b).

Fixpoint le_encode (n : nat) (z : Z) : list byte :=
  match n with
  | O => []
  | S k => byte_of_Z z :: le_encode k (z / 256)
  end.

Fixpoint le_decode (bs : list byte) : Z :=
  match bs with
  | [] => 0
  | b :: r => Z_of_byte b + 256 * le_decode r
  end.

End Bytes.

(** ** Pinned buffers: bounds-checked byte spans *)

Module Mem.

Definition len {A} (bs : list A) : Z := Z.of_nat (length bs).

(** [read buf pos n]: the [n] bytes at [buf + pos] (the source of a memcpy,
    or the bytes a string_t built on that pointer denotes). *)
Definition read (buf : list byte) (pos n : Z) : option (list byte) :=
  if (0 <=? pos) && (0 <=? n) && (pos + n <=? len buf)
  then Some (take (Z.to_nat n) (drop (Z.to_nat pos) buf))
  else None.

(** [write buf pos bs]: memcpy of [bs] to [buf + pos]. *)
Definition write (buf : list byte) (pos : Z) (bs : list byte) : option (list byte) :=
  if (0 <=? pos) && (pos + len bs <=? len buf)
  then Some (take (Z.to_nat pos) buf ++ bs ++ drop (Z.to_nat (pos + len bs)) buf)
  else None.

Definition Load_u32 (buf : list byte) (pos : Z) : option Z :=
  Bytes.le_decode <$> read buf pos 4.

Definition Load_i32 (buf : list byte) (pos : Z) : option Z :=
  (fun bs => Int.i32 (Bytes.le_decode bs)) <$> read buf pos 4.

Definition Load_i64 (buf : list byte) (pos : Z) : option Z :=
  (fun bs => Int.i64 (Bytes.le_decode bs)) <$> read buf pos 8.

Definition Store_u32 (v : Z) (buf : list byte) (pos : Z) : option (list byte) :=
  write buf pos (Bytes.le_encode 4 v).

Definition Store_i32 (v : Z) (buf : list byte) (pos : Z) : option (list byte) :=
  write buf pos (Bytes.le_encode 4 v).

Definition Store_i64 (v : Z) (buf : list byte) (pos : Z) : option (list byte) :=
  write buf pos (Bytes.le_encode 8 v).

End Mem.

(** ** Data model *)

(** A string_t is modelled by its payload bytes (GetData / GetSize); a
    string_t that borrows from a pinned buffer is read at once. *)
Definition string_t := list byte.
Definition block_id_t := Z.
Definition idx_t := Z.

(** sizeof(uint32_t), sizeof(int32_t) and sizeof(block_id_t); block_id_t is
    an int64_t. *)
Definition sizeof_uint32_t : Z := 4.
Definition sizeof_int32_t : Z := 4.
Definition sizeof_block_id_t : Z := 8.

Definition DICTIONARY_HEADER_SIZE : Z := sizeof_uint32_t + sizeof_uint32_t.
Definition BIG_STRING_MARKER_SIZE : Z := sizeof_block_id_t + sizeof_int32_t.

(** What the source takes from headers that are not part of this file: the
    block-id constants and the two limits derived from the block size. *)
Class StorageInfo := {
  MAXIMUM_BLOCK : block_id_t;
  INVALID_BLOCK : block_id_t;
  GetStringBlockLimit : idx_t -> idx_t;
  GetCompactionFlushLimit : idx_t -> idx_t
}.

(** A block handle together with the buffer a Pin of it gives. *)
Record BlockHandle := {
  BlockId : block_id_t;
  Ptr : list byte
}.

(** The fields size and end of the source. *)
Record StringDictionaryContainer := {
  dict_size : Z;
  dict_end : Z
}.

(** A node of the in-memory overflow chain, with the fields block, offset
    and size of the source; [next] is the tail of the list that holds the
    node. The node's block handle owns the buffer. *)
Record StringBlock := {
  sb_block : BlockHandle;
  sb_offset : idx_t;
  sb_size : idx_t
}.

(** Modelled from the spec: the checkpoint-time overflow writer
    (WriteOverflowStringsToDisk), of which only the call is in the source.
    It keeps the block it is filling and its write offset. *)
Record OverflowStringWriter := {
  ow_block_id : block_id_t;
  ow_offset : idx_t
}.

(** [head] is the chain, most recent node first. [overflow_blocks] maps a
    block id to a reference to its node: a reference is the node's position
    counted from the oldest node, which later pushes do not change. *)
Record UncompressedStringSegmentState := {
  head : list StringBlock;
  overflow_blocks : gmap block_id_t nat;
  on_disk_blocks : list block_id_t;
  overflow_writer : option OverflowStringWriter
}.

Record SerializedStringSegmentState := {
  blocks : list block_id_t
}.

Record ColumnSegment := {
  block : BlockHandle;
  block_offset : idx_t;       (* GetBlockOffset() *)
  count : idx_t;
  segment_size : idx_t;       (* SegmentSize() *)
  block_size : idx_t;         (* GetBlockManager().GetBlockSize() *)
  segment_state : UncompressedStringSegmentState
}.

(** The buffer manager and block manager: the next id of an in-memory
    buffer, the next free id of a durable block, and the durable blocks. *)
Record Storage := {
  temporary_id : block_id_t;
  free_block_id : block_id_t;
  disk : gmap block_id_t (list byte)
}.

(** A result vector: the string_t slots, the vector's own string storage
    and the buffers it keeps alive. *)
Record Vector := {
  data : list string_t;
  string_heap : list string_t;
  handles : list BlockHandle
}.

Definition set_Ptr (seg : ColumnSegment) (buf : list byte) : ColumnSegment :=
  {| block := {| BlockId := BlockId (block seg); Ptr := buf |};
     block_offset := block_offset seg; count := count seg;
     segment_size := segment_size seg; block_size := block_size seg;
     segment_state := segment_state seg |}.

Definition set_count (seg : ColumnSegment) (n : idx_t) : ColumnSegment :=
  {| block := block seg; block_offset := block_offset seg; count := n;
     segment_size := segment_size seg; block_size := block_size seg;
     segment_state := segment_state seg |}.

Definition set_segment_state (seg : ColumnSegment)
    (st : UncompressedStringSegmentState) : ColumnSegment :=
  {| block := block seg; block_offset := block_offset seg; count := count seg;
     segment_size := segment_size seg; block_size := block_size seg;
     segment_state := st |}.

(** BufferManager::Allocate: a fresh in-memory buffer of [size] bytes. *)
Definition Allocate (bm : Storage) (size : idx_t) : BlockHandle * Storage :=
  ({| BlockId := temporary_id bm; Ptr := replicate (Z.to_nat size) x00 |},
   {| temporary_id := temporary_id bm + 1; free_block_id := free_block_id bm;
      disk := disk bm |}).

(** state.GetHandle followed by BufferManager::Pin for a durable block. *)
Definition Pin (bm : Storage) (id : block_id_t) : option (list byte) :=
  disk bm !! id.

(** StringVector::AddHandle. *)
Definition AddHandle (result : Vector) (h : BlockHandle) : Vector :=
  {| data := data result; string_heap := string_heap result;
     handles := h :: handles result |}.

(** A finalized string written into the vector's own string storage
    (StringVector::EmptyString, filled, Finalize). *)
Definition AddHeapString (result : Vector) (s : string_t) : Vector :=
  {| data := data result; string_heap := s :: string_heap result;
     handles := handles result |}.

(** result_data[i] = s *)
Definition set_data (result : Vector) (i : Z) (s : string_t) : option Vector :=
  if (0 <=? i) && (i <? Mem.len (data result))
  then Some {| data := <[Z.to_nat i := s]> (data result);
               string_heap := string_heap result; handles := handles result |}
  else None.

(** ** Operations of string_uncompressed.cpp *)

Section Operations.
Context {info : StorageInfo}.

(** *** Helper functions *)

Definition SetDictionary (seg : ColumnSegment)
    (container : StringDictionaryContainer) : option ColumnSegment :=
  let startptr := block_offset seg in
  buf ← Mem.Store_u32 (dict_size container) (Ptr (block seg)) startptr;
  buf ← Mem.Store_u32 (dict_end container) buf (startptr + sizeof_uint32_t);
  Some (set_Ptr seg buf).

Definition GetDictionary (seg : ColumnSegment) : option StringDictionaryContainer :=
  let startptr := block_offset seg in
  size ← Mem.Load_u32 (Ptr (block seg)) startptr;
  end_ ← Mem.Load_u32 (Ptr (block seg)) (startptr + sizeof_uint32_t);
  Some {| dict_size := size; dict_end := end_ |}.

Definition GetDictionaryEnd (seg : ColumnSegment) : option Z :=
  let startptr := block_offset seg in
  Mem.Load_u32 (Ptr (block seg)) (startptr + sizeof_uint32_t).

Definition RemainingSpace (seg : ColumnSegment) : option idx_t :=
  dictionary ← GetDictionary seg;
  let used_space :=
    Int.u64 (dict_size dictionary + count seg * sizeof_int32_t
             + DICTIONARY_HEADER_SIZE) in
  Some (Int.u64 (segment_size seg - used_space)).

Definition ReadString (target : list byte) (offset : Z) (string_length : Z)
    : option string_t :=
  Mem.read target offset string_length.

Definition ReadStringWithLength (target : list byte) (offset : Z)
    : option string_t :=
  str_length ← Mem.Load_u32 target offset;
  Mem.read target (offset + sizeof_uint32_t) str_length.

(** [target] is a pointer into [buf]: the buffer and an offset. *)
Definition WriteStringMarker (buf : list byte) (target : Z)
    (block_id : block_id_t) (offset : Z) : option (list byte) :=
  buf ← Mem.write buf target (Bytes.le_encode 8 block_id);
  let target := target + sizeof_block_id_t in
  Mem.write buf target (Bytes.le_encode 4 offset).

Definition ReadStringMarker (buf : list byte) (target : Z)
    : option (block_id_t * Z) :=
  block_id ← Mem.Load_i64 buf target;
  let target := target + sizeof_block_id_t in
  offset ← Mem.Load_i32 buf target;
  Some (block_id, offset).

(** *** The overflow store: writing *)

(** The node a reference of [overflow_blocks] denotes. *)
Definition deref (chain : list StringBlock) (r : nat) : option StringBlock :=
  rev chain !! r.

Definition set_head (st : UncompressedStringSegmentState)
    (chain : list StringBlock) : UncompressedStringSegmentState :=
  {| head := chain; overflow_blocks := overflow_blocks st;
     on_disk_blocks := on_disk_blocks st; overflow_writer := overflow_writer st |}.

(** unordered_map::insert keeps an entry that is already there. *)
Definition map_insert_new (k : block_id_t) (r : nat)
    (m : gmap block_id_t nat) : gmap block_id_t nat :=
  match m !! k with
  | Some _ => m
  | None => <[k := r]> m
  end.

Definition WriteStringMemory (seg : ColumnSegment) (string : string_t)
    (bm : Storage) : option (block_id_t * Z * ColumnSegment * Storage) :=
  let total_length := Int.u32 (Mem.len string + sizeof_uint32_t) in
  let state := segment_state seg in
  (* check if the string fits in the current block *)
  let does_not_fit :=
    match head state with
    | [] => true
    | hd :: _ => sb_size hd <=? Int.u64 (sb_offset hd + total_length)
    end in
  let '(state, bm) :=
    if does_not_fit then
      let alloc_size := Z.max total_length (block_size seg) in
      let '(handle, bm) := Allocate bm alloc_size in
      let new_block :=
        {| sb_block := handle; sb_offset := 0; sb_size := alloc_size |} in
      ({| head := new_block :: head state;
          overflow_blocks :=
            map_insert_new (BlockId handle) (length (head state))
                           (overflow_blocks state);
          on_disk_blocks := on_disk_blocks state;
          overflow_writer := overflow_writer state |}, bm)
    else (state, bm) in
  match head state with
  | [] => None
  | hd :: next =>
      let result_block := BlockId (sb_block hd) in
      let result_offset := Int.i32 (sb_offset hd) in
      (* copy the string and the length there *)
      let ptr := sb_offset hd in
      buf ← Mem.Store_u32 (Int.u32 (Mem.len string)) (Ptr (sb_block hd)) ptr;
      let ptr := ptr + sizeof_uint32_t in
      buf ← Mem.write buf ptr string;
      let hd' :=
        {| sb_block := {| BlockId := BlockId (sb_block hd); Ptr := buf |};
           sb_offset := Int.u64 (sb_offset hd + total_length);
           sb_size := sb_size hd |} in
      Some (result_block, result_offset,
            set_segment_state seg (set_head state (hd' :: next)), bm)
  end.

(** Modelled from the spec: the durable overflow writer, WriteString(state,
    value) -> (block_id, offset), which is not in this file. It stores a
    32-bit length and then the payload in blocks whose last
    sizeof(block_id_t) bytes hold the id of the next block of the chain, as
    the durable read path expects, and records each block it starts in
    [on_disk_blocks]. Blocks are written through to [disk]. *)
Definition AllocateNewBlock (B : idx_t) (w : OverflowStringWriter)
    (on_disk : list block_id_t) (bm : Storage)
    : option (OverflowStringWriter * list block_id_t * Storage) :=
  let new_block_id := free_block_id bm in
  d ← (if ow_block_id w =? INVALID_BLOCK then Some (disk bm)
       else
         buf ← disk bm !! ow_block_id w;
         buf ← Mem.Store_i64 new_block_id buf (B - sizeof_block_id_t);
         Some (<[ow_block_id w := buf]> (disk bm)));
  Some ({| ow_block_id := new_block_id; ow_offset := 0 |},
        on_disk ++ [new_block_id],
        {| temporary_id := temporary_id bm;
           free_block_id := new_block_id + 1;
           disk := <[new_block_id := replicate (Z.to_nat B) x00]> d |}).

Fixpoint DurableWritePayload (fuel : nat) (B : idx_t) (w : OverflowStringWriter)
    (on_disk : list block_id_t) (bm : Storage) (s : list byte)
    : option (OverflowStringWriter * list block_id_t * Storage) :=
  match s with
  | [] => Some (w, on_disk, bm)
  | _ :: _ =>
      match fuel with
      | O => None
      | S fuel =>
          let to_write := Z.min (Mem.len s) (B - sizeof_block_id_t - ow_offset w) in
          buf ← disk bm !! ow_block_id w;
          buf ← Mem.write buf (ow_offset w) (take (Z.to_nat to_write) s);
          let bm := {| temporary_id := temporary_id bm;
                       free_block_id := free_block_id bm;
                       disk := <[ow_block_id w := buf]> (disk bm) |} in
          let w := {| ow_block_id := ow_block_id w;
                      ow_offset := ow_offset w + to_write |} in
          match drop (Z.to_nat to_write) s with
          | [] => Some (w, on_disk, bm)
          | rest =>
              '(w, on_disk, bm) ← AllocateNewBlock B w on_disk bm;
              DurableWritePayload fuel B w on_disk bm rest
          end
      end
  end.

Definition DurableWriteString (B : idx_t) (w : OverflowStringWriter)
    (on_disk : list block_id_t) (string : string_t) (bm : Storage)
    : option (block_id_t * Z * OverflowStringWriter * list block_id_t * Storage) :=
  '(w, on_disk, bm) ←
    (if (ow_block_id w =? INVALID_BLOCK)
        || (B - sizeof_block_id_t <=? ow_offset w + 2 * sizeof_uint32_t)
     then AllocateNewBlock B w on_disk bm
     else Some (w, on_disk, bm));
  let result_block := ow_block_id w in
  let result_offset := ow_offset w in
  buf ← disk bm !! ow_block_id w;
  buf ← Mem.Store_u32 (Int.u32 (Mem.len string)) buf (ow_offset w);
  let bm := {| temporary_id := temporary_id bm;
               free_block_id := free_block_id bm;
               disk := <[ow_block_id w := buf]> (disk bm) |} in
  let w := {| ow_block_id := ow_block_id w;
              ow_offset := ow_offset w + sizeof_uint32_t |} in
  '(w, on_disk, bm) ←
    DurableWritePayload (S (length string)) B w on_disk bm string;
  Some (result_block, result_offset, w, on_disk, bm).

Definition WriteString (seg : ColumnSegment) (string : string_t) (bm : Storage)
    : option (block_id_t * Z * ColumnSegment * Storage) :=
  let state := segment_state seg in
  match overflow_writer state with
  | Some w =>
      (* overflow writer is set: write string there *)
      '(result_block, result_offset, w, on_disk, bm) ←
        DurableWriteString (block_size seg) w (on_disk_blocks state) string bm;
      Some (result_block, result_offset,
            set_segment_state seg
              {| head := head state; overflow_blocks := overflow_blocks state;
                 on_disk_blocks := on_disk; overflow_writer := Some w |},
            bm)
  | None =>
      (* default overflow behavior: use in-memory buffer *)
      WriteStringMemory seg string bm
  end.

(** *** The overflow store: reading *)

(** The while loop of the durable path. [handle] is the pinned block being
    read, [target] the destination buffer and [target_ptr] the write
    position in it. The loop runs until [remaining] is 0; [fuel] bounds the
    number of iterations of the model. Every iteration after the first one
    starts at offset 0 and copies at least one byte when the block is larger
    than sizeof(block_id_t), so remaining + 1 iterations are enough
    (read_overflow_loop_chain below). *)
Fixpoint read_overflow_loop (fuel : nat) (B : idx_t) (bm : Storage)
    (handle : list byte) (offset : Z) (remaining : Z)
    (target : list byte) (target_ptr : Z) : option (list byte) :=
  if remaining <=? 0 then Some target
  else
    match fuel with
    | O => None
    | S fuel =>
        let to_write :=
          Z.min remaining (Int.u64 (B - sizeof_block_id_t - Int.u64 offset)) in
        piece ← Mem.read handle offset to_write;
        target ← Mem.write target target_ptr piece;
        let remaining := Int.u32 (remaining - to_write) in
        let offset := Int.i32 (offset + Int.i32 to_write) in
        let target_ptr := target_ptr + to_write in
        if 0 <? remaining then
          (* read the next block *)
          next_block ← Mem.Load_i64 handle offset;
          handle ← Pin bm next_block;
          read_overflow_loop fuel B bm handle 0 remaining target target_ptr
        else
          read_overflow_loop fuel B bm handle offset remaining target target_ptr
    end.

Definition ReadOverflowString (seg : ColumnSegment) (result : Vector)
    (block : block_id_t) (offset : Z) (bm : Storage)
    : option (string_t * Vector * Storage) :=
  let state := segment_state seg in
  let B := block_size seg in
  if block <? MAXIMUM_BLOCK then
    (* read the overflow string from disk *)
    handle ← Pin bm block;
    (* read header *)
    length ← Mem.Load_u32 handle offset;
    let remaining := length in
    let offset := Int.i32 (offset + sizeof_uint32_t) in
    let allocate_block := B <=? length in
    if allocate_block then
      (* overflow string is bigger than a block - allocate a temporary buffer *)
      let '(target_handle, bm) := Allocate bm length in
      target ← read_overflow_loop (S (Z.to_nat length)) B bm handle offset
                 remaining (Ptr target_handle) 0;
      let final_buffer := target in
      let result :=
        AddHandle result {| BlockId := BlockId target_handle; Ptr := target |} in
      s ← ReadString final_buffer 0 length;
      Some (s, result, bm)
    else
      (* overflow string is smaller than a block - add it to the vector *)
      let overflow_string := replicate (Z.to_nat length) x00 in
      target ← read_overflow_loop (S (Z.to_nat length)) B bm handle offset
                 remaining overflow_string 0;
      Some (target, AddHeapString result target, bm)
  else
    (* read the overflow string from memory *)
    entry ← overflow_blocks state !! block;
    node ← deref (head state) entry;
    let handle := sb_block node in
    let final_buffer := Ptr handle in
    let result := AddHandle result handle in
    s ← ReadStringWithLength final_buffer offset;
    Some (s, result, bm).

(** Modelled from the spec: FetchStringFromDict, which is declared in the
    header. A non-negative offset is an inline string of [string_length]
    bytes at dictionary.end - offset; a negative one is an overflow marker
    at the same computed position, resolved by the overflow store. *)
Definition FetchStringFromDict (seg : ColumnSegment) (dict_end : Z)
    (result : Vector) (baseptr : Z) (dict_offset : Z) (string_length : Z)
    (bm : Storage) : option (string_t * Vector * Storage) :=
  if 0 <=? dict_offset then
    let dict_pos := baseptr + dict_end - dict_offset in
    s ← Mem.read (Ptr (block seg)) dict_pos string_length;
    Some (s, result, bm)
  else
    '(block_id, offset) ←
      ReadStringMarker (Ptr (block seg)) (baseptr + dict_end - Z.abs dict_offset);
    ReadOverflowString seg result block_id offset bm.

(** *** Scan *)

(** base_data[i], with base_data = baseptr + DICTIONARY_HEADER_SIZE. *)
Definition base_data (seg : ColumnSegment) (i : Z) : option Z :=
  Mem.Load_i32 (Ptr (block seg))
    (block_offset seg + DICTIONARY_HEADER_SIZE + sizeof_int32_t * i).

(** The for loop of StringScanPartial, [n] iterations left, at index [i]. *)
Fixpoint scan_loop (seg : ColumnSegment) (dict_end : Z) (start : Z)
    (result_offset : Z) (n : nat) (i : Z) (previous_offset : Z)
    (result : Vector) (bm : Storage) : option (Vector * Storage) :=
  match n with
  | O => Some (result, bm)
  | S n =>
      (* std::abs used since offsets can be negative to indicate big strings *)
      current_offset ← base_data seg (start + i);
      let string_length :=
        Int.u32 (Z.abs current_offset - Z.abs previous_offset) in
      '(s, result, bm) ←
        FetchStringFromDict seg dict_end result (block_offset seg)
          current_offset string_length bm;
      result ← set_data result (result_offset + i) s;
      previous_offset ← base_data seg (start + i);
      scan_loop seg dict_end start result_offset n (i + 1) previous_offset
        result bm
  end.

(** [start] is segment.GetRelativeIndex(state.row_index). *)
Definition StringScanPartial (seg : ColumnSegment) (start : Z)
    (scan_count : nat) (result : Vector) (result_offset : Z) (bm : Storage)
    : option (Vector * Storage) :=
  dict_end ← GetDictionaryEnd seg;
  previous_offset ← (if 0 <? start then base_data seg (start - 1) else Some 0);
  scan_loop seg dict_end start result_offset scan_count 0 previous_offset
    result bm.

Definition StringScan (seg : ColumnSegment) (start : Z) (scan_count : nat)
    (result : Vector) (bm : Storage) : option (Vector * Storage) :=
  StringScanPartial seg start scan_count result 0 bm.

(** *** Select *)

(** The for loop of Select over the selection vector, at output index [i]. *)
Fixpoint select_loop (seg : ColumnSegment) (dict_end : Z) (start : Z)
    (sel : list Z) (i : Z) (result : Vector) (bm : Storage)
    : option (Vector * Storage) :=
  match sel with
  | [] => Some (result, bm)
  | sel_i :: sel =>
      let index := Int.u64 (start + sel_i) in
      current_offset ← base_data seg index;
      prev_offset ← (if 0 <? index then base_data seg (index - 1) else Some 0);
      let string_length := Int.u32 (Z.abs current_offset - Z.abs prev_offset) in
      '(s, result, bm) ←
        FetchStringFromDict seg dict_end result (block_offset seg)
          current_offset string_length bm;
      result ← set_data result i s;
      select_loop seg dict_end start sel (i + 1) result bm
  end.

(** [sel] holds sel.get_index(0) .. sel.get_index(sel_count - 1). *)
Definition Select (seg : ColumnSegment) (start : Z) (result : Vector)
    (sel : list Z) (bm : Storage) : option (Vector * Storage) :=
  dict_end ← GetDictionaryEnd seg;
  select_loop seg dict_end start sel 0 result bm.

(** *** Fetch *)

(** NumericCast<uint32_t>: a checked cast, which throws out of range. *)
Definition NumericCast_u32 (z : Z) : option Z :=
  if (0 <=? z) && (z <? 2 ^ 32) then Some z else None.

Definition StringFetchRow (seg : ColumnSegment) (row_id : Z) (result : Vector)
    (result_idx : Z) (bm : Storage) : option (Vector * Storage) :=
  dict_end ← GetDictionaryEnd seg;
  dict_offset ← base_data seg row_id;
  string_length ←
    (if row_id =? 0 then
       (* edge case where this is the first string in the dict *)
       NumericCast_u32 (Z.abs dict_offset)
     else
       prev ← base_data seg (row_id - 1);
       NumericCast_u32 (Z.abs dict_offset - Z.abs prev));
  '(s, result, bm) ←
    FetchStringFromDict seg dict_end result (block_offset seg) dict_offset
      string_length bm;
  result ← set_data result result_idx s;
  Some (result, bm).

(** *** Append *)

(** Serializer::WriteProperty / Deserializer::ReadProperty of the generic
    serialization framework: a serialized object is its list of fields
    (field id, name, value). ReadProperty of a required field that is not
    next in the stream throws. *)
Definition Serialized := list (Z * string * list block_id_t).

Definition WriteProperty (field_id : Z) (tag : string) (value : list block_id_t)
    (serializer : Serialized) : Serialized :=
  serializer ++ [(field_id, tag, value)].

Definition ReadProperty (field_id : Z) (tag : string) (deserializer : Serialized)
    : option (list block_id_t * Serialized) :=
  match deserializer with
  | (id, _, value) :: rest =>
      if id =? field_id then Some (value, rest) else None
  | [] => None
  end.

Definition Serialize (s : SerializedStringSegmentState) (serializer : Serialized)
    : Serialized :=
  WriteProperty 1 "overflow_blocks" (blocks s) serializer.

(** Returns the block with its header initialized and the segment state. *)
Definition StringInitSegment (seg : ColumnSegment) (block_id : block_id_t)
    (state : option SerializedStringSegmentState)
    : option (ColumnSegment * UncompressedStringSegmentState) :=
  seg ← (if block_id =? INVALID_BLOCK then
           SetDictionary seg
             {| dict_size := 0; dict_end := Int.u32 (segment_size seg) |}
         else Some seg);
  let result :=
    {| head := []; overflow_blocks := ∅; on_disk_blocks := [];
       overflow_writer := None |} in
  let result :=
    match state with
    | Some serialized_state =>
        {| head := head result; overflow_blocks := overflow_blocks result;
           on_disk_blocks := blocks serialized_state;
           overflow_writer := overflow_writer result |}
    | None => result
    end in
  Some (seg, result).

(** Modelled from the spec: Append of one value, which is defined in the
    header. A value whose length reaches the overflow threshold goes to the
    overflow store and leaves a marker in the dictionary, recorded by a
    negative cumulative offset; any other value is copied into the
    dictionary, which grows backwards from dictionary.end, and recorded by a
    positive cumulative offset. The caller checks the capacity. *)
Definition StringAppend (seg : ColumnSegment) (value : string_t) (bm : Storage)
    : option (ColumnSegment * Storage) :=
  dictionary ← GetDictionary seg;
  let value_len := Mem.len value in
  let entry_pos :=
    block_offset seg + DICTIONARY_HEADER_SIZE + sizeof_int32_t * count seg in
  if GetStringBlockLimit (block_size seg) <=? value_len then
    '(block_id, offset, seg, bm) ← WriteString seg value bm;
    let size := Int.u32 (dict_size dictionary + BIG_STRING_MARKER_SIZE) in
    let dict_pos := block_offset seg + dict_end dictionary - size in
    buf ← WriteStringMarker (Ptr (block seg)) dict_pos block_id offset;
    buf ← Mem.Store_i32 (- size) buf entry_pos;
    seg ← SetDictionary (set_Ptr seg buf)
          {| dict_size := size; dict_end := dict_end dictionary |};
    Some (set_count seg (count seg + 1), bm)
  else
    let size := Int.u32 (dict_size dictionary + value_len) in
    let dict_pos := block_offset seg + dict_end dictionary - size in
    buf ← Mem.write (Ptr (block seg)) dict_pos value;
    buf ← Mem.Store_i32 size buf entry_pos;
    seg ← SetDictionary (set_Ptr seg buf)
          {| dict_size := size; dict_end := dict_end dictionary |};
    Some (set_count seg (count seg + 1), bm).

(** The bytes an append takes from the block: the offset entry and the
    payload, which is the marker for an overflow value. *)
Definition required_space (B : idx_t) (value : string_t) : Z :=
  if GetStringBlockLimit B <=? Mem.len value then BIG_STRING_MARKER_SIZE
  else Mem.len value.

(** Appends in sequence; as the caller does, each append is made only when
    RemainingSpace covers it. *)
Fixpoint AppendAll (seg : ColumnSegment) (values : list string_t) (bm : Storage)
    : option (ColumnSegment * Storage) :=
  match values with
  | [] => Some (seg, bm)
  | value :: values =>
      remaining ← RemainingSpace seg;
      if remaining <? sizeof_int32_t + required_space (block_size seg) value
      then None
      else
        '(seg, bm) ← StringAppend seg value bm;
        AppendAll seg values bm
  end.

Definition FinalizeAppend (seg : ColumnSegment) : option (idx_t * ColumnSegment) :=
  dict ← GetDictionary seg;
  (* compute the total size required to store this segment *)
  let offset_size := Int.u64 (DICTIONARY_HEADER_SIZE + count seg * sizeof_int32_t) in
  let total_size := Int.u64 (offset_size + dict_size dict) in
  if GetCompactionFlushLimit (block_size seg) <=? total_size then
    (* the block is full enough, don't bother moving around the dictionary *)
    Some (segment_size seg, seg)
  else
    (* the block has space left: figure out how much space we can save *)
    let move_amount := Int.u64 (segment_size seg - total_size) in
    (* move the dictionary so it lines up exactly with the offsets *)
    moved ← Mem.read (Ptr (block seg)) (dict_end dict - dict_size dict)
              (dict_size dict);
    buf ← Mem.write (Ptr (block seg)) offset_size moved;
    let dict := {| dict_size := dict_size dict;
                   dict_end := Int.u32 (dict_end dict - move_amount) |} in
    (* write the new dictionary (with the updated "end") *)
    seg ← SetDictionary (set_Ptr seg buf) dict;
    Some (total_size, seg).

(** *** Serialization *)

Definition SerializeState (seg : ColumnSegment)
    : option SerializedStringSegmentState :=
  let state := segment_state seg in
  match on_disk_blocks state with
  | [] => None       (* no on-disk blocks - nothing to write *)
  | _ :: _ => Some {| blocks := on_disk_blocks state |}
  end.

Definition DeserializeState (deserializer : Serialized)
    : option SerializedStringSegmentState :=
  '(blocks, _) ← ReadProperty 1 "overflow_blocks" deserializer;
  Some {| blocks := blocks |}.

(** The test WriteStringMemory makes: the string is appended to the head
    buffer when there is one and offset + total_length < size. *)
Definition fits_in_head (seg : ColumnSegment) (string : string_t) : bool :=
  match head (segment_state seg) with
  | [] => false
  | hd :: _ => sb_offset hd + (Mem.len string + sizeof_uint32_t) <? sb_size hd
  end.

(** A node of the chain: the write offset is inside the buffer, whose
    length is the recorded size, and offsets fit an int32_t. *)
Definition node_wf (node : StringBlock) : Prop :=
  0 <= sb_offset node /\ sb_offset node <= sb_size node /\
  Mem.len (Ptr (sb_block node)) = sb_size node /\ sb_size node <= 2 ^ 31.

(** The string of a result of the read path, without its effects. *)
Definition value_of {A B C} (r : option (A * B * C)) : option A :=
  (fun x => fst (fst x)) <$> r.

(** Following the spec's words (4.2): the value of row [index] taken on its
    own. Its length is abs(offset[index]) - abs(offset[index-1]), the
    previous offset being 0 for the first row of the segment; a non-negative
    offset is an inline string at dictionary.end - offset, a negative one a
    marker resolved by the overflow store. [d] holds the durable blocks. *)
Definition previous_entry (seg : ColumnSegment) (index : Z) : option Z :=
  if 0 <? index then base_data seg (index - 1) else Some 0.

Definition row_value (seg : ColumnSegment) (d : gmap block_id_t (list byte))
    (index : Z) : option string_t :=
  dict_end ← GetDictionaryEnd seg;
  current ← base_data seg index;
  previous ← previous_entry seg index;
  value_of
    (FetchStringFromDict seg dict_end
       {| data := []; string_heap := []; handles := [] |}
       (block_offset seg) current (Z.abs current - Z.abs previous)
       {| temporary_id := 0; free_block_id := 0; disk := d |}).

(** The values of the [n] rows from [index] on, in row order. *)
Fixpoint rows_from (seg : ColumnSegment) (d : gmap block_id_t (list byte))
    (index : Z) (n : nat) : option (list string_t) :=
  match n with
  | O => Some []
  | S n =>
      v ← row_value seg d index;
      vs ← rows_from seg d (index + 1) n;
      Some (v :: vs)
  end.

(** The offsets are cumulative at row [index]: the magnitude does not
    decrease from the previous entry (data model, section 3). *)
Definition cumulative_at (seg : ColumnSegment) (index : Z) : Prop :=
  forall current previous,
    base_data seg index = Some current ->
    previous_entry seg index = Some previous ->
    Z.abs previous <= Z.abs current.

(** *** The layout of a segment and of the overflow store *)

(** Following the spec's words (4.3): a payload stored on the durable path
    from [offset] of the pinned block [handle]. Either it ends in this
    block, before the trailing sizeof(block_id_t) bytes, or it fills the
    block up to them, they hold the id of the next block, and the rest of
    the payload is stored from offset 0 of that block. *)
Inductive durable_chain (B : idx_t) (d : gmap block_id_t (list byte))
    : list byte -> Z -> list byte -> Prop :=
  | chain_last handle offset payload :
      0 <= offset -> offset + Mem.len payload <= B - sizeof_block_id_t ->
      Mem.read handle offset (Mem.len payload) = Some payload ->
      durable_chain B d handle offset payload
  | chain_link handle offset piece rest next handle' :
      0 <= offset -> Mem.len piece = B - sizeof_block_id_t - offset ->
      rest <> [] ->
      Mem.read handle offset (Mem.len piece) = Some piece ->
      Mem.Load_i64 handle (B - sizeof_block_id_t) = Some next ->
      d !! next = Some handle' ->
      durable_chain B d handle' 0 rest ->
      durable_chain B d handle offset (piece ++ rest).

(** The overflow store holds [v] at the marker (block_id, offset): in a
    node of the in-memory chain, length-prefixed and below the node's write
    offset, or on the durable path, as a 32-bit length followed by a chain. *)
Definition stored (seg : ColumnSegment) (d : gmap block_id_t (list byte))
    (block_id : block_id_t) (offset : Z) (v : string_t) : Prop :=
  (MAXIMUM_BLOCK <= block_id /\
   exists r node,
     overflow_blocks (segment_state seg) !! block_id = Some r /\
     deref (head (segment_state seg)) r = Some node /\
     0 <= offset /\ offset + (Mem.len v + 4) <= sb_offset node /\
     ReadStringWithLength (Ptr (sb_block node)) offset = Some v)
  \/
  (block_id < MAXIMUM_BLOCK /\
   exists handle,
     d !! block_id = Some handle /\
     sizeof_block_id_t < block_size seg /\
     0 <= offset /\ offset + 4 < 2 ^ 31 /\
     Mem.Load_u32 handle offset = Some (Mem.len v) /\
     durable_chain (block_size seg) d handle (offset + 4) v).

(** The in-memory overflow state: the nodes are well formed, every node is
    indexed under its block id, an in-memory id, and the ids in use are
    below the next id of the buffer manager. *)
Definition store_ok (st : UncompressedStringSegmentState) (bm : Storage) : Prop :=
  Forall node_wf (head st) /\
  (forall r node, deref (head st) r = Some node ->
     overflow_blocks st !! BlockId (sb_block node) = Some r /\
     MAXIMUM_BLOCK <= BlockId (sb_block node)) /\
  (forall b r, overflow_blocks st !! b = Some r -> b < temporary_id bm) /\
  - 2 ^ 63 <= MAXIMUM_BLOCK /\ MAXIMUM_BLOCK <= temporary_id bm.

(** The dictionary bytes taken by a list of values. *)
Fixpoint dictionary_bytes (B : idx_t) (values : list string_t) : Z :=
  match values with
  | [] => 0
  | v :: values => required_space B v + dictionary_bytes B values
  end.

(** Row [i] of the block holds [v]: its offset entry is the cumulative
    size [c'] of the dictionary up to and including the row, negative for
    an overflow value, and the payload or the marker is at
    dictionary.end - c'. *)
Definition row_stored (seg : ColumnSegment) (d : gmap block_id_t (list byte))
    (E : Z) (i : Z) (c' : Z) (v : string_t) : Prop :=
  if GetStringBlockLimit (block_size seg) <=? Mem.len v then
    base_data seg i = Some (- c') /\
    exists block_id offset,
      ReadStringMarker (Ptr (block seg)) (block_offset seg + E - c')
        = Some (block_id, offset) /\
      stored seg d block_id offset v
  else
    base_data seg i = Some c' /\
    Mem.read (Ptr (block seg)) (block_offset seg + E - c') (Mem.len v) = Some v.

(** The segment holds [values], with the dictionary ending at [E]. *)
Definition segment_repr (E : Z) (seg : ColumnSegment) (bm : Storage)
    (values : list string_t) : Prop :=
  let B := block_size seg in
  count seg = Mem.len values /\
  GetDictionary seg
    = Some {| dict_size := dictionary_bytes B values; dict_end := E |} /\
  0 <= block_offset seg /\
  DICTIONARY_HEADER_SIZE + sizeof_int32_t * count seg + dictionary_bytes B values
    <= E /\
  block_offset seg + E <= Mem.len (Ptr (block seg)) /\
  Mem.len (Ptr (block seg)) < 2 ^ 31 /\
  0 <= B <= 2 ^ 31 /\
  store_ok (segment_state seg) bm /\
  forall (i : nat) v,
    values !! i = Some v ->
    row_stored seg (disk bm) E (Z.of_nat i)
      (dictionary_bytes B (take (S i) values)) v.

(** No append of the sequence exceeds the remaining capacity: each value
    finds room for its offset entry and its payload in what the values
    before it have left of [remaining] bytes. *)
Fixpoint appends_fit (B : idx_t) (remaining : Z) (values : list string_t)
    : bool :=
  match values with
  | [] => true
  | v :: values =>
      (sizeof_int32_t + required_space B v <=? remaining)
      && appends_fit B (remaining - (sizeof_int32_t + required_space B v)) values
  end.

(** A block on which a segment can be started: no rows yet, the segment
    inside the pinned buffer, sizes within the int32_t range of the offsets,
    and in-memory block ids that are block_id_t values at or above
    MAXIMUM_BLOCK. *)
Definition fresh_segment (seg : ColumnSegment) (bm : Storage) : Prop :=
  count seg = 0 /\ 0 <= block_offset seg /\
  DICTIONARY_HEADER_SIZE <= segment_size seg /\
  block_offset seg + segment_size seg <= Mem.len (Ptr (block seg)) /\
  Mem.len (Ptr (block seg)) < 2 ^ 31 /\
  0 <= block_size seg <= 2 ^ 31 /\
  - 2 ^ 63 <= MAXIMUM_BLOCK /\ MAXIMUM_BLOCK <= temporary_id bm.

(** The values all fit the 32-bit length prefix of the overflow store. *)
Definition values_ok (values : list string_t) : Prop :=
  Forall (fun v => Mem.len v + 4 <= 2 ^ 31) values.

(** Modelled from the spec: how the owner of the segment persists the state.
    The persisted state is optional: it is written when SerializeState
    returned a state and is absent otherwise; on reload an absent state is
    handed to StringInitSegment as the null pointer. *)
Definition PersistState (s : option SerializedStringSegmentState)
    : option Serialized :=
  (fun s => Serialize s []) <$> s.

Definition RestoreState (persisted : option Serialized)
    : option (option SerializedStringSegmentState) :=
  match persisted with
  | None => Some None
  | Some deserializer => Some <$> DeserializeState deserializer
  end.

End Operations.

(** ** Analysis, prefetch and the fetch state *)

(** The fields of StringAnalyzeState, with the block size of its
    CompressionInfo. *)
Record StringAnalyzeState := {
  an_block_size : idx_t;        (* info.GetBlockSize() *)
  an_count : idx_t;
  total_string_size : idx_t;
  overflow_strings : idx_t
}.

(** A vector in unified format: the selection vector ([None] is the
    incremental selection, get_index(i) = i), the validity mask ([None] is
    the absent mask, every row valid) and the data array. *)
Record UnifiedVectorFormat := {
  uv_sel : option (list idx_t);
  uv_validity : option (list bool);
  uv_data : list string_t
}.

(** array[i] for an index of type idx_t; outside the array it is undefined. *)
Definition nth_Z {A} (l : list A) (i : Z) : option A :=
  if 0 <=? i then l !! Z.to_nat i else None.

Definition get_index (sel : option (list idx_t)) (i : idx_t) : option idx_t :=
  match sel with
  | None => Some i
  | Some sel_vector => nth_Z sel_vector i
  end.

Definition RowIsValid (validity : option (list bool)) (idx : idx_t)
    : option bool :=
  match validity with
  | None => Some true
  | Some mask => nth_Z mask idx
  end.

(** The blocks a prefetch has been asked for, in the order of the AddBlock
    calls. *)
Definition PrefetchState := list block_id_t.

Definition AddBlock (prefetch_state : PrefetchState) (b : block_id_t)
    : PrefetchState :=
  prefetch_state ++ [b].

(** ColumnFetchState: the buffers pinned so far, by block id. *)
Record ColumnFetchState := {
  fetch_handles : gmap block_id_t BlockHandle
}.

Section Analysis.
Context {info : StorageInfo}.

Definition StringInitAnalyze (block_size : idx_t) : StringAnalyzeState :=
  {| an_block_size := block_size; an_count := 0; total_string_size := 0;
     overflow_strings := 0 |}.

(** The for loop of StringAnalyze, [n] iterations left, at index [i]. *)
Fixpoint analyze_loop (state : StringAnalyzeState) (vdata : UnifiedVectorFormat)
    (n : nat) (i : idx_t) : option StringAnalyzeState :=
  match n with
  | O => Some state
  | S n =>
      idx ← get_index (uv_sel vdata) i;
      valid ← RowIsValid (uv_validity vdata) idx;
      state ←
        (if valid : bool then
           s ← nth_Z (uv_data vdata) idx;
           let string_size := Mem.len s in
           let state :=
             {| an_block_size := an_block_size state;
                an_count := an_count state;
                total_string_size :=
                  Int.u64 (total_string_size state + string_size);
                overflow_strings := overflow_strings state |} in
           if GetStringBlockLimit (an_block_size state) <=? string_size then
             Some {| an_block_size := an_block_size state;
                     an_count := an_count state;
                     total_string_size := total_string_size state;
                     overflow_strings := Int.u64 (overflow_strings state + 1) |}
           else Some state
         else Some state);
      analyze_loop state vdata n (i + 1)
  end.

(** [vdata] is input.ToUnifiedFormat(count). *)
Definition StringAnalyze (state : StringAnalyzeState)
    (vdata : UnifiedVectorFormat) (count : nat)
    : option (bool * StringAnalyzeState) :=
  let state :=
    {| an_block_size := an_block_size state;
       an_count := Int.u64 (an_count state + Z.of_nat count);
       total_string_size := total_string_size state;
       overflow_strings := overflow_strings state |} in
  state ← analyze_loop state vdata count 0;
  Some (true, state).

Definition StringFinalAnalyze (state : StringAnalyzeState) : idx_t :=
  Int.u64 (an_count state * sizeof_int32_t + total_string_size state
           + overflow_strings state * BIG_STRING_MARKER_SIZE).

(** [segment_state] is segment.GetSegmentState(), [None] for the null
    pointer; state.GetHandle gives the handle of the block with the id. *)
Definition UncompressedStringInitPrefetch (seg : ColumnSegment)
    (segment_state : option UncompressedStringSegmentState)
    (prefetch_state : PrefetchState) : PrefetchState :=
  let prefetch_state := AddBlock prefetch_state (BlockId (block seg)) in
  match segment_state with
  | Some state =>
      foldl (fun prefetch_state block_id => AddBlock prefetch_state block_id)
        prefetch_state (on_disk_blocks state)
  | None => prefetch_state
  end.

(** The handle returned is the pin of segment.block, which [block seg]
    stands for. *)
Definition GetOrInsertHandle (state : ColumnFetchState) (seg : ColumnSegment)
    : BlockHandle * ColumnFetchState :=
  let primary_id := BlockId (block seg) in
  match fetch_handles state !! primary_id with
  | None =>
      (* not pinned yet: pin it *)
      let handle := block seg in
      (handle, {| fetch_handles := <[primary_id := handle]> (fetch_handles state) |})
  | Some entry =>
      (* already pinned: use the pinned handle *)
      (entry, state)
  end.

(** The row at index [idx] of a batch: its string, or [None] for a NULL
    row. *)
Definition selected_row (vdata : UnifiedVectorFormat) (idx : idx_t)
    : option (option string_t) :=
  valid ← RowIsValid (uv_validity vdata) idx;
  if valid : bool then Some <$> nth_Z (uv_data vdata) idx else Some None.

(** The rows a batch of [count] entries presents, in selection order. *)
Definition batch_rows (vdata : UnifiedVectorFormat) (count : nat)
    : option (list (option string_t)) :=
  mapM (fun i => idx ← get_index (uv_sel vdata) i; selected_row vdata idx)
    (seqZ 0 (Z.of_nat count)).

(** What the body of the loop of StringAnalyze does for one row. *)
Definition analyze_row (state : StringAnalyzeState) (row : option string_t)
    : StringAnalyzeState :=
  match row with
  | Some s =>
      let string_size := Mem.len s in
      let state :=
        {| an_block_size := an_block_size state;
           an_count := an_count state;
           total_string_size :=
             Int.u64 (total_string_size state + string_size);
           overflow_strings := overflow_strings state |} in
      if GetStringBlockLimit (an_block_size state) <=? string_size then
        {| an_block_size := an_block_size state;
           an_count := an_count state;
           total_string_size := total_string_size state;
           overflow_strings := Int.u64 (overflow_strings state + 1) |}
      else state
  | None => state
  end.

(** state.count += count *)
Definition add_count (state : StringAnalyzeState) (n : nat)
    : StringAnalyzeState :=
  {| an_block_size := an_block_size state;
     an_count := Int.u64 (an_count state + Z.of_nat n);
     total_string_size := total_string_size state;
     overflow_strings := overflow_strings state |}.

(** What a list of rows adds to the three counters. *)
Definition rows_size (rows : list (option string_t)) : Z :=
  foldr (fun row acc => match row with Some s => Mem.len s + acc | None => acc end)
    0 rows.

Definition rows_overflow (B : idx_t) (rows : list (option string_t)) : Z :=
  foldr (fun row acc =>
           match row with
           | Some s => (if GetStringBlockLimit B <=? Mem.len s then 1 else 0) + acc
           | None => acc
           end) 0 rows.

(** A flat batch of values without NULLs. *)
Definition flat_batch (values : list string_t) : UnifiedVectorFormat :=
  {| uv_sel := None; uv_validity := None; uv_data := values |}.

End Analysis.

(** ** Concrete instances *)

Module Examples.

(** A concrete instance of the limits: in-memory block ids start at 2^62
    rounded down, strings of a quarter block (at most 4096 bytes) overflow,
    and a block is compacted below four fifths of the block size. *)
Definition example_info : StorageInfo :=
  {| MAXIMUM_BLOCK := 4611686018427388000;
     INVALID_BLOCK := -1;
     GetStringBlockLimit := fun B => Z.min (B / 4 / 8 * 8) 4096;
     GetCompactionFlushLimit := fun B => B / 5 * 4 |}.

Definition empty_state : UncompressedStringSegmentState :=
  {| head := []; overflow_blocks := ∅; on_disk_blocks := [];
     overflow_writer := None |}.

(** A transient segment on a zeroed block of [B] bytes. *)
Definition blank_segment (B : Z) : ColumnSegment :=
  {| block := {| BlockId := 4611686018427388000;
                 Ptr := replicate (Z.to_nat B) x00 |};
     block_offset := 0; count := 0; segment_size := B; block_size := B;
     segment_state := empty_state |}.

Definition example_storage : Storage :=
  {| temporary_id := 4611686018427388001; free_block_id := 0; disk := ∅ |}.

Definition blank_vector (n : nat) : Vector :=
  {| data := replicate n []; string_heap := []; handles := [] |}.

Definition str_a : string_t := ["a"%byte].
Definition str_bb : string_t := ["b"%byte; "b"%byte].
Definition str_ccc : string_t := ["c"%byte; "c"%byte; "c"%byte].
Definition str_abcd : string_t := ["a"%byte; "b"%byte; "c"%byte; "d"%byte].
Definition str_z (n : nat) : string_t := replicate n "z"%byte.

(** A segment whose overflow chain has one 16-byte buffer, half used. *)
Definition half_used_node : StringBlock :=
  {| sb_block := {| BlockId := 4611686018427388001;
                    Ptr := replicate 16 x00 |};
     sb_offset := 8; sb_size := 16 |}.

Definition segment_with_chain : ColumnSegment :=
  set_segment_state (blank_segment 256)
    {| head := [half_used_node];
       overflow_blocks := {[ 4611686018427388001 := 0%nat ]};
       on_disk_blocks := []; overflow_writer := None |}.

Definition storage_after_chain : Storage :=
  {| temporary_id := 4611686018427388002; free_block_id := 0; disk := ∅ |}.

(** The segment and storage after appending [values] to a blank segment of
    [B] bytes initialized by StringInitSegment (the blank segment itself
    if an append does not fit). *)
Definition appended (B : Z) (values : list string_t) : ColumnSegment * Storage :=
  default (blank_segment B, example_storage)
    ('(seg, st) ← StringInitSegment (info := example_info) (blank_segment B)
                    (-1) None;
     AppendAll (info := example_info) (set_segment_state seg st) values
       example_storage).

(** The scenario of the spec: "a", "bb", "ccc" in a block of 256 bytes. *)
Definition abc_segment : ColumnSegment :=
  Eval vm_compute in fst (appended 256 [str_a; str_bb; str_ccc]).

(** The same three values in a block of 32 bytes, which they nearly fill. *)
Definition dense_segment : ColumnSegment :=
  Eval vm_compute in fst (appended 32 [str_a; str_bb; str_ccc]).

(** Appends through the durable overflow writer, on blocks of [B] bytes. *)
Definition appended_durable (B : Z) (values : list string_t)
    : ColumnSegment * Storage :=
  default (blank_segment B, example_storage)
    ('(seg, st) ← StringInitSegment (info := example_info) (blank_segment B)
                    (-1) None;
     AppendAll (info := example_info)
       (set_segment_state seg
          {| head := []; overflow_blocks := ∅; on_disk_blocks := [];
             overflow_writer := Some {| ow_block_id := -1; ow_offset := 0 |} |})
       values example_storage).

(** Two overflow values on 64-byte blocks: 20 bytes, then 100 bytes that
    span three durable blocks. *)
Definition durable_segment : ColumnSegment :=
  Eval vm_compute in fst (appended_durable 64 [str_z 20; str_z 100]).

Definition durable_storage : Storage :=
  Eval vm_compute in snd (appended_durable 64 [str_z 20; str_z 100]).

(** One four-byte string written to the in-memory overflow store of a
    blank segment. *)
Definition one_string_segment : ColumnSegment :=
  Eval vm_compute in
    match WriteStringMemory (blank_segment 64) str_abcd
            example_storage with
    | Some (_, _, seg, _) => seg
    | None => blank_segment 64
    end.

Definition one_string_storage : Storage :=
  Eval vm_compute in
    match WriteStringMemory (blank_segment 64) str_abcd
            example_storage with
    | Some (_, _, _, bm) => bm
    | None => example_storage
    end.

(** An inline value, a 20-byte overflow value and another inline value in
    a block of 64 bytes, where values of 16 bytes and more overflow. *)
Definition mixed_segment : ColumnSegment :=
  Eval vm_compute in fst (appended 64 [str_a; str_z 20; str_bb]).

Definition mixed_storage : Storage :=
  Eval vm_compute in snd (appended 64 [str_a; str_z 20; str_bb]).

(** The 256-byte segment of "a", "bb", "ccc" after FinalizeAppend, with its
    size set to the size FinalizeAppend returned. *)
Definition compacted_segment : ColumnSegment :=
  Eval vm_compute in
    match FinalizeAppend (info := example_info) abc_segment with
    | Some (total, seg) =>
        {| block := block seg; block_offset := 0; count := count seg;
           segment_size := total; block_size := block_size seg;
           segment_state := segment_state seg |}
    | None => abc_segment
    end.

(** A block of two rows whose offsets decrease: 5, then 3. *)
Definition decreasing_segment : ColumnSegment :=
  Eval vm_compute in
    let buf := replicate 32 x00 in
    let buf := default buf (Mem.Store_u32 5 buf 0) in
    let buf := default buf (Mem.Store_u32 32 buf 4) in
    let buf := default buf (Mem.Store_i32 5 buf 8) in
    let buf := default buf (Mem.Store_i32 3 buf 12) in
    set_count (set_Ptr (blank_segment 32) buf) 2.

(** A dictionary vector of four rows over three values, the second of
    which is NULL, and the same rows as two batches. *)
Definition dictionary_batch : UnifiedVectorFormat :=
  {| uv_sel := Some [2; 0; 2; 1];
     uv_validity := Some [true; false; true];
     uv_data := [str_a; str_bb; str_z 20] |}.

Definition null_batch : UnifiedVectorFormat :=
  {| uv_sel := None; uv_validity := Some [true; false];
     uv_data := [str_a; str_bb] |}.

Definition no_handles : ColumnFetchState := {| fetch_handles := ∅ |}.

End Examples.

(** * Properties *)

(** Reduction of the option monad only. *)
Ltac osimpl :=
  cbn [mbind option_bind mret option_ret fmap option_fmap option_map].
Tactic Notation "osimpl" "in" hyp(H) :=
  cbn [mbind option_bind mret option_ret fmap option_fmap option_map] in H.

(** ** Facts about machine integers and encodings *)

Module IntFacts.

Lemma u32_small z : 0 <= z < 2 ^ 32 -> Int.u32 z = z.
Proof. intros H. unfold Int.u32. by rewrite Z.mod_small. Qed.

Lemma u64_small z : 0 <= z < 2 ^ 64 -> Int.u64 z = z.
Proof. intros H. unfold Int.u64. by rewrite Z.mod_small. Qed.

Lemma i32_small z : - 2 ^ 31 <= z < 2 ^ 31 -> Int.i32 z = z.
Proof.
  intros H. unfold Int.i32, Int.signed.
  change (2 ^ (32 - 1)) with 2147483648. change (2 ^ 32) with 4294967296.
  change (2 ^ 31) with 2147483648 in H.
  destruct (Z.ltb_spec (z mod 4294967296) 2147483648) as [Hlt | Hge].
  - destruct (Z_lt_le_dec z 0) as [Hn | Hp].
    + replace z with ((z + 4294967296) + (-1) * 4294967296) in Hlt by lia.
      rewrite Z.mod_add in Hlt by lia. rewrite Z.mod_small in Hlt by lia. lia.
    + rewrite Z.mod_small by lia. done.
  - destruct (Z_lt_le_dec z 0) as [Hn | Hp].
    + replace z with ((z + 4294967296) + (-1) * 4294967296) at 1 by lia.
      rewrite Z.mod_add by lia. rewrite Z.mod_small by lia. lia.
    + rewrite Z.mod_small in Hge by lia. lia.
Qed.

Lemma i64_small z : - 2 ^ 63 <= z < 2 ^ 63 -> Int.i64 z = z.
Proof.
  intros H. unfold Int.i64, Int.signed.
  change (2 ^ (64 - 1)) with 9223372036854775808.
  change (2 ^ 64) with 18446744073709551616.
  change (2 ^ 63) with 9223372036854775808 in H.
  destruct (Z.ltb_spec (z mod 18446744073709551616) 9223372036854775808)
    as [Hlt | Hge].
  - destruct (Z_lt_le_dec z 0) as [Hn | Hp].
    + replace z with ((z + 18446744073709551616) + (-1) * 18446744073709551616)
        in Hlt by lia.
      rewrite Z.mod_add in Hlt by lia. rewrite Z.mod_small in Hlt by lia. lia.
    + rewrite Z.mod_small by lia. done.
  - destruct (Z_lt_le_dec z 0) as [Hn | Hp].
    + replace z with ((z + 18446744073709551616) + (-1) * 18446744073709551616)
        at 1 by lia.
      rewrite Z.mod_add by lia. rewrite Z.mod_small by lia. lia.
    + rewrite Z.mod_small in Hge by lia. lia.
Qed.

End IntFacts.

Module BytesFacts.

Lemma Z_of_byte_of_Z z : Bytes.Z_of_byte (Bytes.byte_of_Z z) = z mod 256.
Proof.
  unfold Bytes.Z_of_byte, Bytes.byte_of_Z.
  assert (Hr : 0 <= z mod 256 < 256) by (apply Z.mod_pos_bound; lia).
  destruct (Byte.of_N (Z.to_N (z mod 256))) as [b|] eqn:E.
  - apply Byte.to_of_N in E. rewrite E. lia.
  - apply Byte.of_N_None_iff in E. lia.
Qed.

Lemma Z_of_byte_range b : 0 <= Bytes.Z_of_byte b < 256.
Proof.
  unfold Bytes.Z_of_byte. pose proof (Byte.to_N_bounded b). lia.
Qed.

Lemma length_le_encode n z : length (Bytes.le_encode n z) = n.
Proof. revert z. induction n as [|n IH]; intros z; simpl; [done | by rewrite IH]. Qed.

Lemma le_decode_encode n z :
  Bytes.le_decode (Bytes.le_encode n z) = z mod 256 ^ Z.of_nat n.
Proof.
  revert z. induction n as [|n IH]; intros z.
  - simpl. by rewrite Z.mod_1_r.
  - cbn [Bytes.le_encode Bytes.le_decode]. rewrite IH, Z_of_byte_of_Z.
    rewrite Nat2Z.inj_succ, Z.pow_succ_r by lia.
    rewrite Z.rem_mul_r by lia. done.
Qed.

Lemma le_decode_range bs : 0 <= Bytes.le_decode bs < 256 ^ Z.of_nat (length bs).
Proof.
  induction bs as [|b r IH].
  - simpl. lia.
  - cbn [Bytes.le_decode length]. rewrite Nat2Z.inj_succ, Z.pow_succ_r by lia.
    pose proof (Z_of_byte_range b). lia.
Qed.

End BytesFacts.

(** ** Facts about buffers *)

Module MemFacts.
Import Mem.

Lemma len_nonneg {A} (l : list A) : 0 <= len l.
Proof. unfold len. lia. Qed.

Lemma len_app {A} (l k : list A) : len (l ++ k) = len l + len k.
Proof. unfold len. rewrite length_app. lia. Qed.

Lemma len_replicate {A} (n : Z) (x : A) : 0 <= n -> len (replicate (Z.to_nat n) x) = n.
Proof. intros H. unfold len. rewrite length_replicate. lia. Qed.

Lemma read_Some buf pos n bs :
  read buf pos n = Some bs <->
  0 <= pos /\ 0 <= n /\ pos + n <= len buf /\
  bs = take (Z.to_nat n) (drop (Z.to_nat pos) buf).
Proof.
  unfold read.
  destruct ((0 <=? pos) && (0 <=? n) && (pos + n <=? len buf)) eqn:E.
  - apply andb_true_iff in E as [E E3]. apply andb_true_iff in E as [E1 E2].
    apply Z.leb_le in E1, E2, E3. split.
    + intros [= <-]. done.
    + intros (_ & _ & _ & ->). done.
  - split; [done |]. intros (H1 & H2 & H3 & _).
    apply Z.leb_le in H1, H2, H3. rewrite H1, H2, H3 in E. done.
Qed.

Lemma read_is_Some buf pos n :
  0 <= pos -> 0 <= n -> pos + n <= len buf -> is_Some (read buf pos n).
Proof. intros H1 H2 H3. eexists. apply read_Some. eauto. Qed.

Lemma read_len buf pos n bs : read buf pos n = Some bs -> len bs = n.
Proof.
  intros (H1 & H2 & H3 & ->)%read_Some. unfold len in *.
  rewrite length_take, length_drop. lia.
Qed.

Lemma read_lookup buf pos n bs (i : nat) :
  read buf pos n = Some bs -> (i < Z.to_nat n)%nat ->
  bs !! i = buf !! (Z.to_nat pos + i)%nat.
Proof.
  intros (H1 & H2 & H3 & ->)%read_Some Hi.
  rewrite lookup_take_lt by done. apply lookup_drop.
Qed.

Lemma write_Some buf pos bs buf' :
  write buf pos bs = Some buf' <->
  0 <= pos /\ pos + len bs <= len buf /\
  buf' = take (Z.to_nat pos) buf ++ bs ++ drop (Z.to_nat (pos + len bs)) buf.
Proof.
  unfold write.
  destruct ((0 <=? pos) && (pos + len bs <=? len buf)) eqn:E.
  - apply andb_true_iff in E as [E1 E2]. apply Z.leb_le in E1, E2. split.
    + intros [= <-]. done.
    + intros (_ & _ & ->). done.
  - split; [done |]. intros (H1 & H2 & _).
    apply Z.leb_le in H1, H2. rewrite H1, H2 in E. done.
Qed.

Lemma write_is_Some buf pos bs :
  0 <= pos -> pos + len bs <= len buf -> is_Some (write buf pos bs).
Proof. intros H1 H2. eexists. apply write_Some. eauto. Qed.

Lemma write_len buf pos bs buf' : write buf pos bs = Some buf' -> len buf' = len buf.
Proof.
  intros (H1 & H2 & ->)%write_Some. unfold len in *.
  rewrite !length_app, length_take, length_drop. lia.
Qed.

Lemma write_lookup buf pos bs buf' (i : nat) :
  write buf pos bs = Some buf' ->
  buf' !! i =
    if decide (Z.to_nat pos <= i < Z.to_nat pos + length bs)%nat
    then bs !! (i - Z.to_nat pos)%nat else buf !! i.
Proof.
  intros (H1 & H2 & ->)%write_Some. unfold len in *.
  assert (Hl : length (take (Z.to_nat pos) buf) = Z.to_nat pos)
    by (rewrite length_take; lia).
  case_decide as Hi.
  - rewrite lookup_app_r by lia. rewrite Hl.
    rewrite lookup_app_l by lia. done.
  - destruct (decide (i < Z.to_nat pos)%nat) as [Hlt | Hge].
    + rewrite lookup_app_l by lia. by rewrite lookup_take_lt.
    + rewrite lookup_app_r by lia. rewrite Hl.
      rewrite lookup_app_r by lia. rewrite lookup_drop. f_equal. lia.
Qed.

Lemma read_write_same buf pos bs buf' :
  write buf pos bs = Some buf' -> read buf' pos (len bs) = Some bs.
Proof.
  intros Hw. pose proof (write_len _ _ _ _ Hw) as Hl.
  pose proof Hw as (H1 & H2 & _)%write_Some.
  pose proof (len_nonneg bs) as Hn.
  destruct (read_is_Some buf' pos (len bs)) as [rs Hr]; [lia..|].
  rewrite Hr. f_equal.
  pose proof (read_len _ _ _ _ Hr) as Hrl.
  apply list_eq_same_length with (length bs); [done | unfold len in *; lia |].
  intros i x y Hi Hx Hy.
  rewrite (read_lookup _ _ _ _ i Hr) in Hx by (unfold len; lia).
  rewrite (write_lookup _ _ _ _ _ Hw) in Hx.
  rewrite decide_True in Hx by lia.
  replace (Z.to_nat pos + i - Z.to_nat pos)%nat with i in Hx by lia. congruence.
Qed.

(** A read that the written span does not touch. *)
Lemma read_write_other buf pos bs buf' p n :
  write buf pos bs = Some buf' ->
  p + n <= pos \/ pos + len bs <= p ->
  read buf' p n = read buf p n.
Proof.
  intros Hw Hd. pose proof (write_len _ _ _ _ Hw) as Hl.
  pose proof Hw as (H1 & H2 & _)%write_Some.
  destruct (read buf p n) as [rs|] eqn:Hr.
  - pose proof Hr as (Hp1 & Hp2 & Hp3 & _)%read_Some.
    destruct (read_is_Some buf' p n) as [rs' Hr']; [lia..|].
    rewrite Hr'. f_equal.
    pose proof (read_len _ _ _ _ Hr). pose proof (read_len _ _ _ _ Hr').
    apply list_eq_same_length with (Z.to_nat n); [unfold len in *; lia.. |].
    intros i x y Hi Hx Hy.
    rewrite (read_lookup _ _ _ _ i Hr') in Hx by lia.
    rewrite (read_lookup _ _ _ _ i Hr) in Hy by lia.
    rewrite (write_lookup _ _ _ _ _ Hw) in Hx.
    rewrite decide_False in Hx by (unfold len in *; lia). congruence.
  - destruct (read buf' p n) as [rs'|] eqn:Hr'; [|done].
    apply read_Some in Hr' as (Hp1 & Hp2 & Hp3 & _).
    destruct (read_is_Some buf p n) as [rs Hrs]; [lia..|]. congruence.
Qed.

(** A read inside the written span. *)
Lemma read_write_inside buf pos bs buf' p n :
  write buf pos bs = Some buf' ->
  pos <= p -> 0 <= n -> p + n <= pos + len bs ->
  read buf' p n = read bs (p - pos) n.
Proof.
  intros Hw Hp Hn Hle. pose proof (write_len _ _ _ _ Hw) as Hl.
  pose proof Hw as (H1 & H2 & _)%write_Some.
  destruct (read_is_Some buf' p n) as [rs Hr]; [lia..|].
  destruct (read_is_Some bs (p - pos) n) as [rs' Hr']; [lia..|].
  rewrite Hr, Hr'. f_equal.
  pose proof (read_len _ _ _ _ Hr). pose proof (read_len _ _ _ _ Hr').
  apply list_eq_same_length with (Z.to_nat n); [unfold len in *; lia.. |].
  intros i x y Hi Hx Hy.
  rewrite (read_lookup _ _ _ _ i Hr) in Hx by lia.
  rewrite (read_lookup _ _ _ _ i Hr') in Hy by lia.
  rewrite (write_lookup _ _ _ _ _ Hw) in Hx.
  rewrite decide_True in Hx by (unfold len in *; lia).
  replace (Z.to_nat p + i - Z.to_nat pos)%nat
    with (Z.to_nat (p - pos) + i)%nat in Hx by lia.
  congruence.
Qed.

(** A read inside a span that was read. *)
Lemma read_read buf pos n bs p m :
  read buf pos n = Some bs ->
  0 <= p -> 0 <= m -> p + m <= n ->
  read bs p m = read buf (pos + p) m.
Proof.
  intros Hr Hp Hm Hle. pose proof (read_len _ _ _ _ Hr) as Hl.
  pose proof Hr as (H1 & H2 & H3 & _)%read_Some.
  destruct (read_is_Some bs p m) as [rs Hrs]; [lia..|].
  destruct (read_is_Some buf (pos + p) m) as [rs' Hrs']; [lia..|].
  rewrite Hrs, Hrs'. f_equal.
  pose proof (read_len _ _ _ _ Hrs). pose proof (read_len _ _ _ _ Hrs').
  apply list_eq_same_length with (Z.to_nat m); [unfold len in *; lia.. |].
  intros i x y Hi Hx Hy.
  rewrite (read_lookup _ _ _ _ i Hrs) in Hx by lia.
  rewrite (read_lookup _ _ _ _ i Hrs') in Hy by lia.
  rewrite (read_lookup _ _ _ _ _ Hr) in Hx by lia.
  replace (Z.to_nat pos + (Z.to_nat p + i))%nat
    with (Z.to_nat (pos + p) + i)%nat in Hx by lia.
  congruence.
Qed.

Lemma read_all bs : read bs 0 (len bs) = Some bs.
Proof.
  apply read_Some. pose proof (len_nonneg bs). repeat split; [lia.. |].
  unfold len. rewrite Nat2Z.id. simpl. by rewrite take_ge.
Qed.

End MemFacts.

(** ** Loads and stores *)

Module LoadStore.
Import Mem MemFacts.

Lemma i32_mod z : Int.i32 (z mod 256 ^ Z.of_nat 4) = Int.i32 z.
Proof.
  unfold Int.i32, Int.signed. change (256 ^ Z.of_nat 4) with (2 ^ 32).
  by rewrite Z.mod_mod by lia.
Qed.

Lemma i64_mod z : Int.i64 (z mod 256 ^ Z.of_nat 8) = Int.i64 z.
Proof.
  unfold Int.i64, Int.signed. change (256 ^ Z.of_nat 8) with (2 ^ 64).
  by rewrite Z.mod_mod by lia.
Qed.

Lemma len_le_encode n z : len (Bytes.le_encode n z) = Z.of_nat n.
Proof. unfold len. by rewrite BytesFacts.length_le_encode. Qed.

Lemma Load_u32_Store_u32 v buf pos buf' :
  Store_u32 v buf pos = Some buf' -> Load_u32 buf' pos = Some (Int.u32 v).
Proof.
  intros Hw%read_write_same. rewrite len_le_encode in Hw.
  unfold Load_u32. change (Z.of_nat 4) with 4 in Hw. rewrite Hw.
  cbv [fmap option_fmap option_map]. by rewrite BytesFacts.le_decode_encode.
Qed.

Lemma Load_i32_Store_i32 v buf pos buf' :
  Store_i32 v buf pos = Some buf' -> Load_i32 buf' pos = Some (Int.i32 v).
Proof.
  intros Hw%read_write_same. rewrite len_le_encode in Hw.
  unfold Load_i32. change (Z.of_nat 4) with 4 in Hw. rewrite Hw.
  cbv [fmap option_fmap option_map]. by rewrite BytesFacts.le_decode_encode, i32_mod.
Qed.

Lemma Load_i64_Store_i64 v buf pos buf' :
  Store_i64 v buf pos = Some buf' -> Load_i64 buf' pos = Some (Int.i64 v).
Proof.
  intros Hw%read_write_same. rewrite len_le_encode in Hw.
  unfold Load_i64. change (Z.of_nat 8) with 8 in Hw. rewrite Hw.
  cbv [fmap option_fmap option_map]. by rewrite BytesFacts.le_decode_encode, i64_mod.
Qed.

Lemma Load_u32_write_other buf pos bs buf' p :
  write buf pos bs = Some buf' -> p + 4 <= pos \/ pos + len bs <= p ->
  Load_u32 buf' p = Load_u32 buf p.
Proof. intros Hw Hd. unfold Load_u32. by rewrite (read_write_other _ _ _ _ _ _ Hw). Qed.

Lemma Load_i32_write_other buf pos bs buf' p :
  write buf pos bs = Some buf' -> p + 4 <= pos \/ pos + len bs <= p ->
  Load_i32 buf' p = Load_i32 buf p.
Proof. intros Hw Hd. unfold Load_i32. by rewrite (read_write_other _ _ _ _ _ _ Hw). Qed.

Lemma Load_i64_write_other buf pos bs buf' p :
  write buf pos bs = Some buf' -> p + 8 <= pos \/ pos + len bs <= p ->
  Load_i64 buf' p = Load_i64 buf p.
Proof. intros Hw Hd. unfold Load_i64. by rewrite (read_write_other _ _ _ _ _ _ Hw). Qed.

Lemma Load_u32_range buf pos v : Load_u32 buf pos = Some v -> 0 <= v < 2 ^ 32.
Proof.
  unfold Load_u32. destruct (read buf pos 4) as [bs|] eqn:E; [|done].
  intros [= <-]. apply read_len in E. pose proof (BytesFacts.le_decode_range bs) as H.
  unfold len in E. replace (Z.of_nat (length bs)) with 4 in H by lia.
  change (256 ^ 4) with (2 ^ 32) in H. done.
Qed.

Lemma Load_u32_is_Some buf pos :
  0 <= pos -> pos + 4 <= len buf -> is_Some (Load_u32 buf pos).
Proof.
  intros H1 H2. unfold Load_u32.
  destruct (read_is_Some buf pos 4) as [bs ->]; [lia..|]. by eexists.
Qed.

Lemma Load_u32_Some_bounds buf pos v :
  Load_u32 buf pos = Some v -> 0 <= pos /\ pos + 4 <= len buf.
Proof.
  unfold Load_u32. destruct (read buf pos 4) as [bs|] eqn:E; [|done].
  apply read_Some in E. lia.
Qed.

End LoadStore.

(** ** Overflow markers *)

Section Marker.
Import Mem MemFacts LoadStore.

Lemma WriteStringMarker_Some buf target block_id offset buf' :
  WriteStringMarker buf target block_id offset = Some buf' ->
  exists buf1,
    write buf target (Bytes.le_encode 8 block_id) = Some buf1 /\
    write buf1 (target + 8) (Bytes.le_encode 4 offset) = Some buf'.
Proof.
  unfold WriteStringMarker.
  destruct (write buf target _) as [buf1|] eqn:E1; [|done]. osimpl.
  intros E2. eauto.
Qed.

Lemma WriteStringMarker_is_Some buf target block_id offset :
  0 <= target -> target + BIG_STRING_MARKER_SIZE <= len buf ->
  is_Some (WriteStringMarker buf target block_id offset).
Proof.
  intros H1 H2. unfold WriteStringMarker. change BIG_STRING_MARKER_SIZE with 12 in H2.
  destruct (write_is_Some buf target (Bytes.le_encode 8 block_id)) as [buf1 E1].
  { done. } { rewrite len_le_encode. lia. }
  rewrite E1. osimpl. apply write_len in E1.
  apply write_is_Some; [unfold sizeof_block_id_t; lia |].
  rewrite len_le_encode. unfold sizeof_block_id_t. lia.
Qed.

Lemma WriteStringMarker_len buf target block_id offset buf' :
  WriteStringMarker buf target block_id offset = Some buf' -> len buf' = len buf.
Proof.
  intros (buf1 & E1 & E2)%WriteStringMarker_Some.
  apply write_len in E1, E2. lia.
Qed.

(** A read that the marker does not touch. *)
Lemma read_WriteStringMarker_other buf target block_id offset buf' p n :
  WriteStringMarker buf target block_id offset = Some buf' ->
  p + n <= target \/ target + BIG_STRING_MARKER_SIZE <= p ->
  read buf' p n = read buf p n.
Proof.
  intros (buf1 & E1 & E2)%WriteStringMarker_Some Hd.
  change BIG_STRING_MARKER_SIZE with 12 in Hd.
  rewrite (read_write_other _ _ _ _ p n E2) by (rewrite len_le_encode; lia).
  apply (read_write_other _ _ _ _ p n E1). rewrite len_le_encode. lia.
Qed.

Lemma ReadStringMarker_WriteStringMarker buf target block_id offset buf' :
  WriteStringMarker buf target block_id offset = Some buf' ->
  ReadStringMarker buf' target = Some (Int.i64 block_id, Int.i32 offset).
Proof.
  intros (buf1 & E1 & E2)%WriteStringMarker_Some.
  unfold ReadStringMarker.
  assert (H64 : Load_i64 buf' target = Some (Int.i64 block_id)).
  { rewrite (Load_i64_write_other _ _ _ _ target E2) by lia.
    by apply (Load_i64_Store_i64 _ buf). }
  rewrite H64. osimpl.
  assert (H32 : Load_i32 buf' (target + 8) = Some (Int.i32 offset))
    by by apply (Load_i32_Store_i32 _ buf1).
  unfold sizeof_block_id_t. rewrite H32. done.
Qed.

(** A marker that a later write does not touch. *)
Lemma ReadStringMarker_write_other buf pos bs buf' target :
  write buf pos bs = Some buf' ->
  target + BIG_STRING_MARKER_SIZE <= pos \/ pos + len bs <= target ->
  ReadStringMarker buf' target = ReadStringMarker buf target.
Proof.
  intros Hw Hd. change BIG_STRING_MARKER_SIZE with 12 in Hd.
  unfold ReadStringMarker, sizeof_block_id_t.
  rewrite (Load_i64_write_other _ _ _ _ target Hw) by lia.
  rewrite (Load_i32_write_other _ _ _ _ (target + 8) Hw) by lia. done.
Qed.

(** C10. For every 64-bit block id and 32-bit offset, WriteStringMarker
    into a buffer with room for the marker succeeds and ReadStringMarker on
    the result gives back exactly the pair; the block id is the first
    sizeof(block_id_t) bytes of the marker and the offset the four bytes
    right after them. *)
Theorem marker_roundtrip buf target block_id offset :
  - 2 ^ 63 <= block_id < 2 ^ 63 ->
  - 2 ^ 31 <= offset < 2 ^ 31 ->
  0 <= target -> target + BIG_STRING_MARKER_SIZE <= len buf ->
  exists buf',
    WriteStringMarker buf target block_id offset = Some buf' /\
    ReadStringMarker buf' target = Some (block_id, offset) /\
    Load_i64 buf' target = Some block_id /\
    Load_i32 buf' (target + sizeof_block_id_t) = Some offset.
Proof.
  intros Hb Ho Ht Hl.
  destruct (WriteStringMarker_is_Some buf target block_id offset Ht Hl)
    as [buf' Hw].
  exists buf'. split; [done |].
  pose proof (ReadStringMarker_WriteStringMarker _ _ _ _ _ Hw) as Hr.
  rewrite IntFacts.i64_small, IntFacts.i32_small in Hr by done.
  split; [done |].
  unfold ReadStringMarker in Hr.
  destruct (Load_i64 buf' target) as [b|]; [|done]. osimpl in Hr.
  destruct (Load_i32 buf' (target + sizeof_block_id_t)) as [o|]; [|done].
  osimpl in Hr. by injection Hr as -> ->.
Qed.

Lemma marker_roundtrip_witness :
  exists buf',
    WriteStringMarker (replicate 16 x00) 2 4611686018427388001 (-7) = Some buf' /\
    ReadStringMarker buf' 2 = Some (4611686018427388001, -7) /\
    Load_i64 buf' 2 = Some 4611686018427388001 /\
    Load_i32 buf' (2 + sizeof_block_id_t) = Some (-7).
Proof.
  apply (marker_roundtrip (replicate 16 x00) 2 4611686018427388001 (-7));
    vm_compute; try split; congruence.
Defined.

End Marker.

(** ** The dictionary header and FinalizeAppend on a dense block *)

Section Finalize.
Context {info : StorageInfo}.
Import Mem MemFacts LoadStore.

Lemma GetDictionary_Some seg dict :
  GetDictionary seg = Some dict ->
  Load_u32 (Ptr (block seg)) (block_offset seg) = Some (dict_size dict) /\
  Load_u32 (Ptr (block seg)) (block_offset seg + 4) = Some (dict_end dict).
Proof.
  unfold GetDictionary, sizeof_uint32_t.
  destruct (Load_u32 _ (block_offset seg)) as [sz|]; [|done]. osimpl.
  destruct (Load_u32 _ (block_offset seg + 4)) as [e|]; [|done]. osimpl.
  intros [= <-]. done.
Qed.

Lemma GetDictionary_intro seg sz e :
  Load_u32 (Ptr (block seg)) (block_offset seg) = Some sz ->
  Load_u32 (Ptr (block seg)) (block_offset seg + 4) = Some e ->
  GetDictionary seg = Some {| dict_size := sz; dict_end := e |}.
Proof.
  intros H1 H2. unfold GetDictionary, sizeof_uint32_t. rewrite H1. osimpl.
  rewrite H2. done.
Qed.

Lemma GetDictionaryEnd_GetDictionary seg dict :
  GetDictionary seg = Some dict -> GetDictionaryEnd seg = Some (dict_end dict).
Proof. intros [_ H]%GetDictionary_Some. done. Qed.

(** C7. FinalizeAppend on a block whose required size, HeaderSize + count*4
    + dictionary.size, reaches the compaction flush limit of the block size
    changes nothing: the segment, with its block bytes and dictionary
    header, is returned as it was, together with the unchanged segment
    size. *)
Theorem FinalizeAppend_dense seg dict :
  GetDictionary seg = Some dict ->
  0 <= count seg < 2 ^ 60 ->
  GetCompactionFlushLimit (block_size seg)
    <= DICTIONARY_HEADER_SIZE + count seg * sizeof_int32_t + dict_size dict ->
  FinalizeAppend seg = Some (segment_size seg, seg) /\
  GetDictionary seg = Some dict.
Proof.
  intros Hd Hc Hlim. split; [|done].
  pose proof Hd as [Hsz _]%GetDictionary_Some. apply Load_u32_range in Hsz.
  unfold FinalizeAppend. rewrite Hd. osimpl.
  unfold DICTIONARY_HEADER_SIZE, sizeof_uint32_t, sizeof_int32_t in *.
  change (2 ^ 32) with 4294967296 in Hsz.
  change (2 ^ 60) with 1152921504606846976 in Hc.
  rewrite (IntFacts.u64_small (4 + 4 + count seg * 4))
    by (change (2 ^ 64) with 18446744073709551616; lia).
  rewrite IntFacts.u64_small by (change (2 ^ 64) with 18446744073709551616; lia).
  destruct (Z.leb_spec (GetCompactionFlushLimit (block_size seg))
              (4 + 4 + count seg * 4 + dict_size dict)); [done | lia].
Qed.

End Finalize.

(** ** Serialized segment state *)

Section Serialization.
Context {info : StorageInfo}.

Lemma DeserializeState_Serialize s :
  DeserializeState (Serialize s []) = Some s.
Proof. destruct s as [bl]. reflexivity. Qed.

(** C9. SerializeState returns no state exactly when the segment has no
    durable overflow block; the state it returns otherwise is read back by
    DeserializeState with the same list of block ids; and in both cases
    StringInitSegment on what was persisted gives a segment state whose
    durable-block list is the list of the serialized segment, in the same
    order (the empty list when nothing was persisted). *)
Theorem serialize_state_roundtrip (seg : ColumnSegment) :
  (SerializeState seg = None <-> on_disk_blocks (segment_state seg) = []) /\
  (forall s, SerializeState seg = Some s ->
     DeserializeState (Serialize s []) =
       Some {| blocks := on_disk_blocks (segment_state seg) |}) /\
  exists restored,
    RestoreState (PersistState (SerializeState seg)) = Some restored /\
    forall seg2 block_id seg2' state,
      StringInitSegment seg2 block_id restored = Some (seg2', state) ->
      on_disk_blocks state = on_disk_blocks (segment_state seg).
Proof.
  unfold SerializeState.
  destruct (on_disk_blocks (segment_state seg)) as [|b bl] eqn:E.
  - split; [done |]. split; [done |].
    exists None. split; [done |].
    intros seg2 block_id seg2' state. unfold StringInitSegment.
    destruct (if block_id =? INVALID_BLOCK then _ else _); [|done].
    osimpl. intros [= _ <-]. done.
  - split; [split; done |]. split.
    + intros s [= <-]. apply DeserializeState_Serialize.
    + exists (Some {| blocks := b :: bl |}). split; [done |].
      intros seg2 block_id seg2' state. unfold StringInitSegment.
      destruct (if block_id =? INVALID_BLOCK then _ else _); [|done].
      osimpl. intros [= _ <-]. done.
Qed.

End Serialization.

(** ** WriteStringMemory *)

Section WriteMemory.
Context {info : StorageInfo}.
Import Mem MemFacts LoadStore.

(** Writing the length prefix and the payload at [off]. *)
Lemma write_prefixed buf off (v : string_t) :
  0 <= off -> off + (len v + 4) <= len buf -> len v < 2 ^ 32 ->
  exists buf1 buf',
    Store_u32 (Int.u32 (len v)) buf off = Some buf1 /\
    write buf1 (off + 4) v = Some buf' /\
    len buf' = len buf /\
    ReadStringWithLength buf' off = Some v /\
    (forall p n, p + n <= off \/ off + (len v + 4) <= p ->
       read buf' p n = read buf p n).
Proof.
  intros Hoff Hfit Hv. pose proof (len_nonneg v) as Hv0.
  destruct (write_is_Some buf off (Bytes.le_encode 4 (Int.u32 (len v))))
    as [buf1 E1]; [done | rewrite len_le_encode; lia |].
  pose proof (write_len _ _ _ _ E1) as L1.
  destruct (write_is_Some buf1 (off + 4) v) as [buf' E2]; [lia.. |].
  pose proof (write_len _ _ _ _ E2) as L2.
  exists buf1, buf'. split; [done |]. split; [done |]. split; [lia |]. split.
  - unfold ReadStringWithLength, sizeof_uint32_t.
    rewrite (Load_u32_write_other _ _ _ _ off E2) by lia.
    rewrite (Load_u32_Store_u32 _ _ _ _ E1). osimpl.
    rewrite !(IntFacts.u32_small (len v)) by lia.
    by apply (read_write_same buf1).
  - intros p n Hd.
    rewrite (read_write_other _ _ _ _ p n E2) by lia.
    apply (read_write_other _ _ _ _ p n E1). rewrite len_le_encode. lia.
Qed.

Lemma WriteStringMemory_fits seg v bm hd next :
  head (segment_state seg) = hd :: next ->
  node_wf hd -> len v + 4 <= 2 ^ 31 ->
  sb_offset hd + (len v + 4) < sb_size hd ->
  exists buf',
    WriteStringMemory seg v bm =
      Some (BlockId (sb_block hd), sb_offset hd,
            set_segment_state seg
              (set_head (segment_state seg)
                 ({| sb_block := {| BlockId := BlockId (sb_block hd); Ptr := buf' |};
                     sb_offset := sb_offset hd + (len v + 4);
                     sb_size := sb_size hd |} :: next)),
            bm) /\
    len buf' = sb_size hd /\
    ReadStringWithLength buf' (sb_offset hd) = Some v /\
    (forall p n, p + n <= sb_offset hd ->
       read buf' p n = read (Ptr (sb_block hd)) p n).
Proof.
  intros Hhd (Ho1 & Ho2 & Hl & Hs) Hv Hfit. pose proof (len_nonneg v) as Hv0.
  change (2 ^ 31) with 2147483648 in *.
  destruct (write_prefixed (Ptr (sb_block hd)) (sb_offset hd) v)
    as (buf1 & buf' & E1 & E2 & L & R & F);
    [lia | lia | change (2 ^ 32) with 4294967296; lia |].
  exists buf'. split; [| split; [lia | split; [done | intros; apply F; lia]]].
  unfold WriteStringMemory, sizeof_uint32_t. rewrite Hhd.
  rewrite (IntFacts.u32_small (len v + 4)) by (change (2 ^ 32) with 4294967296; lia).
  rewrite (IntFacts.u64_small (sb_offset hd + (len v + 4)))
    by (change (2 ^ 64) with 18446744073709551616; lia).
  destruct (Z.leb_spec (sb_size hd) (sb_offset hd + (len v + 4))); [lia |].
  rewrite Hhd. rewrite E1. osimpl. rewrite E2. osimpl.
  rewrite IntFacts.i32_small by (change (2 ^ 31) with 2147483648; lia).
  rewrite (IntFacts.u64_small (sb_offset hd + (len v + 4)))
    by (change (2 ^ 64) with 18446744073709551616; lia).
  done.
Qed.

Lemma WriteStringMemory_new seg v bm :
  match head (segment_state seg) with
  | [] => True
  | hd :: _ => node_wf hd /\ sb_size hd <= sb_offset hd + (len v + 4)
  end ->
  len v + 4 <= 2 ^ 31 -> 0 <= block_size seg <= 2 ^ 31 ->
  exists buf',
    WriteStringMemory seg v bm =
      Some (temporary_id bm, 0,
            set_segment_state seg
              {| head :=
                   {| sb_block := {| BlockId := temporary_id bm; Ptr := buf' |};
                      sb_offset := len v + 4;
                      sb_size := Z.max (len v + 4) (block_size seg) |}
                   :: head (segment_state seg);
                 overflow_blocks :=
                   map_insert_new (temporary_id bm)
                     (length (head (segment_state seg)))
                     (overflow_blocks (segment_state seg));
                 on_disk_blocks := on_disk_blocks (segment_state seg);
                 overflow_writer := overflow_writer (segment_state seg) |},
            {| temporary_id := temporary_id bm + 1;
               free_block_id := free_block_id bm; disk := disk bm |}) /\
    len buf' = Z.max (len v + 4) (block_size seg) /\
    ReadStringWithLength buf' 0 = Some v.
Proof.
  intros Hhd Hv HB. pose proof (len_nonneg v) as Hv0.
  change (2 ^ 31) with 2147483648 in *.
  set (sz := Z.max (len v + 4) (block_size seg)).
  destruct (write_prefixed (replicate (Z.to_nat sz) x00) 0 v)
    as (buf1 & buf' & E1 & E2 & L & R & F);
    [lia | rewrite len_replicate; lia | change (2 ^ 32) with 4294967296; lia |].
  rewrite len_replicate in L by lia.
  exists buf'. split; [| done].
  unfold WriteStringMemory, sizeof_uint32_t.
  rewrite (IntFacts.u32_small (len v + 4)) by (change (2 ^ 32) with 4294967296; lia).
  assert (Hnf : match head (segment_state seg) with
                | [] => true
                | hd :: _ => sb_size hd <=? Int.u64 (sb_offset hd + (len v + 4))
                end = true).
  { destruct (head (segment_state seg)) as [|hd next]; [done |].
    destruct Hhd as [(Ho1 & Ho2 & Hl & Hs) Hge].
    rewrite IntFacts.u64_small by (change (2 ^ 64) with 18446744073709551616; lia).
    apply Z.leb_le. done. }
  rewrite Hnf. unfold Allocate. fold sz. cbn [head sb_block sb_offset BlockId Ptr].
  rewrite E1. osimpl. replace (0 + 4) with 4 by lia.
  change (0 + 4) with 4 in E2. rewrite E2. osimpl.
  rewrite IntFacts.u64_small by (change (2 ^ 64) with 18446744073709551616; lia).
  done.
Qed.

End WriteMemory.

Section WriteMemoryClaims.
Context {info : StorageInfo}.
Import Mem MemFacts LoadStore.

(** C6, as amended. WriteStringMemory appends the length-prefixed value to
    the head buffer at its write offset when there is a head and offset +
    len + 4 is strictly below its size; in every other case it allocates a
    buffer of max(len + 4, block_size) bytes and links it as the new head,
    the old chain becoming its next. Either way the result is the id of the
    block written and the offset of the length prefix in it, the value can
    be read back there, and the head's write offset is that offset plus
    len + 4. *)
Theorem WriteStringMemory_spec seg v bm :
  Forall node_wf (head (segment_state seg)) ->
  len v + 4 <= 2 ^ 31 -> 0 <= block_size seg <= 2 ^ 31 ->
  exists result_block result_offset seg' bm' hd' next',
    WriteStringMemory seg v bm = Some (result_block, result_offset, seg', bm') /\
    head (segment_state seg') = hd' :: next' /\
    BlockId (sb_block hd') = result_block /\
    ReadStringWithLength (Ptr (sb_block hd')) result_offset = Some v /\
    sb_offset hd' = result_offset + (len v + 4) /\
    if fits_in_head seg v then
      exists hd, head (segment_state seg) = hd :: next' /\
        result_block = BlockId (sb_block hd) /\ result_offset = sb_offset hd /\
        sb_size hd' = sb_size hd /\ bm' = bm
    else
      next' = head (segment_state seg) /\ result_offset = 0 /\
      result_block = temporary_id bm /\
      sb_size hd' = Z.max (len v + 4) (block_size seg) /\
      len (Ptr (sb_block hd')) = sb_size hd' /\
      temporary_id bm' = temporary_id bm + 1.
Proof.
  intros Hwf Hv HB. unfold fits_in_head, sizeof_uint32_t.
  destruct (head (segment_state seg)) as [|hd next] eqn:Hhd.
  - destruct (WriteStringMemory_new seg v bm) as (buf' & E & L & R);
      [by rewrite Hhd | done | done |].
    rewrite Hhd in E. do 6 eexists. split; [exact E |]. cbn.
    repeat split; try done.
  - apply Forall_cons in Hwf as [Hn _].
    destruct (Z.ltb_spec (sb_offset hd + (len v + 4)) (sb_size hd)) as [Hlt | Hge].
    + destruct (WriteStringMemory_fits seg v bm hd next Hhd Hn Hv Hlt)
        as (buf' & E & L & R & F).
      do 6 eexists. split; [exact E |]. cbn.
      repeat split; try done. exists hd. done.
    + destruct (WriteStringMemory_new seg v bm) as (buf' & E & L & R);
        [by rewrite Hhd | done | done |].
      rewrite Hhd in E. do 6 eexists. split; [exact E |]. cbn.
      repeat split; try done.
Qed.

End WriteMemoryClaims.

Section WriteMemoryExamples.
Import Mem Examples.
#[local] Existing Instance example_info.

Lemma WriteStringMemory_spec_witness :
  exists r, WriteStringMemory segment_with_chain str_a storage_after_chain = Some r.
Proof.
  destruct (WriteStringMemory_spec segment_with_chain str_a storage_after_chain)
    as (b & o & seg' & bm' & hd' & next' & E & _).
  - repeat constructor; vm_compute; congruence.
  - vm_compute; congruence.
  - split; vm_compute; congruence.
  - exists (b, o, seg', bm'). exact E.
Defined.

(** The head buffer has 16 bytes of which 8 are used, so the 8 bytes of a
    four-byte value and its length prefix fit exactly; WriteStringMemory
    does not append to the head but allocates a new buffer. *)
Lemma WriteStringMemory_exact_fit :
  sb_offset half_used_node + (len str_abcd + 4) <= sb_size half_used_node /\
  exists seg' hd',
    WriteStringMemory segment_with_chain str_abcd storage_after_chain =
      Some (4611686018427388002, 0, seg',
            {| temporary_id := 4611686018427388003; free_block_id := 0;
               disk := ∅ |}) /\
    head (segment_state seg') = [hd'; half_used_node] /\
    BlockId (sb_block hd') <> BlockId (sb_block half_used_node).
Proof.
  split; [vm_compute; congruence |].
  eexists _, _. split; [vm_compute; reflexivity |].
  split; [reflexivity |]. vm_compute. congruence.
Qed.

End WriteMemoryExamples.

(** ** ReadOverflowString: effects *)

Section ReadOverflow.
Context {info : StorageInfo}.
Import Mem MemFacts LoadStore.

(** The loop reads the durable blocks only. *)
Lemma read_overflow_loop_disk fuel B bm1 bm2 handle offset remaining target tp :
  disk bm1 = disk bm2 ->
  read_overflow_loop fuel B bm1 handle offset remaining target tp =
  read_overflow_loop fuel B bm2 handle offset remaining target tp.
Proof.
  intros Hd. revert handle offset remaining target tp.
  induction fuel as [|fuel IH]; intros handle offset remaining target tp.
  - done.
  - cbn [read_overflow_loop].
    destruct (remaining <=? 0); [done |].
    destruct (read handle offset _) as [piece|]; [|done]. osimpl.
    destruct (write target tp piece) as [target'|]; [|done]. osimpl.
    destruct (0 <? _); [|apply IH].
    destruct (Load_i64 handle _) as [next|]; [|done]. osimpl.
    assert (Pin bm1 next = Pin bm2 next) as -> by (unfold Pin; by rewrite Hd).
    destruct (Pin bm2 next) as [h|]; [|done]. osimpl. apply IH.
Qed.

(** The loop keeps the length of the target buffer. *)
Lemma read_overflow_loop_len fuel B bm handle offset remaining target tp target' :
  read_overflow_loop fuel B bm handle offset remaining target tp = Some target' ->
  len target' = len target.
Proof.
  revert handle offset remaining target tp.
  induction fuel as [|fuel IH]; intros handle offset remaining target tp.
  - cbn [read_overflow_loop]. destruct (remaining <=? 0); [|done].
    by intros [= <-].
  - cbn [read_overflow_loop]. destruct (remaining <=? 0); [by intros [= <-] |].
    destruct (read handle offset _) as [piece|]; [|done]. osimpl.
    destruct (write target tp piece) as [target1|] eqn:Ew; [|done]. osimpl.
    apply write_len in Ew.
    destruct (0 <? _).
    + destruct (Load_i64 handle _) as [next|]; [|done]. osimpl.
      destruct (Pin bm next) as [h|]; [|done]. osimpl.
      intros H%IH. lia.
    + intros H%IH. lia.
Qed.

(** The string ReadOverflowString returns depends on the segment, the
    marker and the durable blocks only, not on the result vector or on the
    ids the buffer manager has handed out. *)
Lemma ReadOverflowString_value seg r1 r2 block offset bm1 bm2 :
  disk bm1 = disk bm2 ->
  value_of (ReadOverflowString seg r1 block offset bm1) =
  value_of (ReadOverflowString seg r2 block offset bm2).
Proof.
  intros Hd. unfold ReadOverflowString, value_of.
  destruct (block <? MAXIMUM_BLOCK).
  - assert (Pin bm1 block = Pin bm2 block) as -> by (unfold Pin; by rewrite Hd).
    destruct (Pin bm2 block) as [handle|]; [|done]. osimpl.
    destruct (Load_u32 handle offset) as [length|]; [|done]. osimpl.
    destruct (block_size seg <=? length).
    + unfold Allocate. cbn [Ptr BlockId].
      rewrite (read_overflow_loop_disk _ _
                 {| temporary_id := temporary_id bm1 + 1;
                    free_block_id := free_block_id bm1; disk := disk bm1 |}
                 {| temporary_id := temporary_id bm2 + 1;
                    free_block_id := free_block_id bm2; disk := disk bm2 |})
        by exact Hd.
      destruct (read_overflow_loop _ _ _ _ _ _ _ _) as [target|]; [|done].
      osimpl. destruct (ReadString target 0 length); done.
    + rewrite (read_overflow_loop_disk _ _ bm1 bm2) by exact Hd.
      destruct (read_overflow_loop _ _ _ _ _ _ _ _) as [target|]; done.
  - destruct (overflow_blocks (segment_state seg) !! block) as [entry|]; [|done].
    osimpl. destruct (deref _ entry) as [node|]; [|done]. osimpl.
    destruct (ReadStringWithLength _ offset); done.
Qed.

(** ReadOverflowString leaves the slots of the result vector and the
    durable blocks as they are. *)
Lemma ReadOverflowString_frame seg result block offset bm s result' bm' :
  ReadOverflowString seg result block offset bm = Some (s, result', bm') ->
  data result' = data result /\ disk bm' = disk bm /\
  free_block_id bm' = free_block_id bm.
Proof.
  unfold ReadOverflowString.
  destruct (block <? MAXIMUM_BLOCK).
  - destruct (Pin bm block) as [handle|]; [|done]. osimpl.
    destruct (Load_u32 handle offset) as [length|]; [|done]. osimpl.
    destruct (block_size seg <=? length).
    + unfold Allocate.
      destruct (read_overflow_loop _ _ _ _ _ _ _ _) as [target|]; [|done].
      osimpl. destruct (ReadString target 0 length); [|done]. osimpl.
      intros [= <- <- <-]. done.
    + destruct (read_overflow_loop _ _ _ _ _ _ _ _) as [target|]; [|done].
      osimpl. intros [= <- <- <-]. done.
  - destruct (overflow_blocks (segment_state seg) !! block) as [entry|]; [|done].
    osimpl. destruct (deref _ entry) as [node|]; [|done]. osimpl.
    destruct (ReadStringWithLength _ offset); [|done]. osimpl.
    intros [= <- <- <-]. done.
Qed.

(** C3. On the durable path of ReadOverflowString (block id below
    MAXIMUM_BLOCK), with [string_length] the 32-bit length stored at the
    marker's offset: when it is >= the block size a fresh buffer of exactly
    [string_length] bytes is allocated from the buffer manager and handed
    to the result vector (AddHandle), and the returned string is that
    buffer; when it is < the block size nothing is allocated and the string
    is written into the vector's own string storage. So the result vector
    gains a buffer if and only if the length is >= the block size. *)
Theorem ReadOverflowString_allocation seg result block offset bm
    handle string_length s result' bm' :
  block < MAXIMUM_BLOCK ->
  Pin bm block = Some handle ->
  Load_u32 handle offset = Some string_length ->
  ReadOverflowString seg result block offset bm = Some (s, result', bm') ->
  (if block_size seg <=? string_length then
     handles result' = {| BlockId := temporary_id bm; Ptr := s |} :: handles result /\
     len s = string_length /\
     string_heap result' = string_heap result /\
     temporary_id bm' = temporary_id bm + 1
   else
     handles result' = handles result /\
     string_heap result' = s :: string_heap result /\
     bm' = bm) /\
  ((exists h, handles result' = h :: handles result) <-> block_size seg <= string_length).
Proof.
  intros Hb Hpin Hlen. unfold ReadOverflowString.
  destruct (Z.ltb_spec block MAXIMUM_BLOCK); [|lia].
  rewrite Hpin. osimpl. rewrite Hlen. osimpl.
  pose proof (Load_u32_range _ _ _ Hlen) as Hrange.
  destruct (Z.leb_spec (block_size seg) string_length) as [Hge | Hlt].
  - unfold Allocate. cbn [Ptr BlockId].
    destruct (read_overflow_loop _ _ _ _ _ _ _ _) as [target|] eqn:Eloop; [|done].
    osimpl. unfold ReadString.
    destruct (read target 0 string_length) as [s0|] eqn:Er; [|done]. osimpl.
    intros [= <- <- <-].
    apply read_overflow_loop_len in Eloop. rewrite len_replicate in Eloop by lia.
    assert (s0 = target) as ->.
    { rewrite <- Eloop in Er. rewrite read_all in Er. congruence. }
    cbn. split; [done |]. split; [done | eauto].
  - destruct (read_overflow_loop _ _ _ _ _ _ _ _) as [target|] eqn:Eloop; [|done].
    osimpl. intros [= <- <- <-]. cbn. split; [by destruct bm |].
    split; [|lia]. intros [h Hh].
    apply (f_equal length) in Hh. cbn in Hh. lia.
Qed.

End ReadOverflow.

(** ** Rows: FetchStringFromDict and the value of a row *)

Section Rows.
Context {info : StorageInfo}.
Import Mem MemFacts LoadStore.

Lemma i32_range z : - 2 ^ 31 <= Int.i32 z < 2 ^ 31.
Proof.
  unfold Int.i32, Int.signed.
  change (2 ^ (32 - 1)) with 2147483648. change (2 ^ 32) with 4294967296.
  change (2 ^ 31) with 2147483648.
  pose proof (Z.mod_pos_bound z 4294967296 ltac:(lia)).
  destruct (Z.ltb_spec (z mod 4294967296) 2147483648); lia.
Qed.

Lemma Load_i32_range buf pos v :
  Load_i32 buf pos = Some v -> - 2 ^ 31 <= v < 2 ^ 31.
Proof.
  unfold Load_i32. destruct (read buf pos 4); [|done]. osimpl.
  intros [= <-]. apply i32_range.
Qed.

Lemma base_data_range seg i v : base_data seg i = Some v -> - 2 ^ 31 <= v < 2 ^ 31.
Proof. apply Load_i32_range. Qed.

Lemma previous_entry_range seg i v :
  previous_entry seg i = Some v -> - 2 ^ 31 <= v < 2 ^ 31.
Proof.
  unfold previous_entry. destruct (0 <? i).
  - apply base_data_range.
  - intros [= <-]. change (2 ^ 31) with 2147483648. lia.
Qed.

Lemma FetchStringFromDict_value seg de r1 r2 bp cur n bm1 bm2 :
  disk bm1 = disk bm2 ->
  value_of (FetchStringFromDict seg de r1 bp cur n bm1) =
  value_of (FetchStringFromDict seg de r2 bp cur n bm2).
Proof.
  intros Hd. unfold FetchStringFromDict.
  destruct (0 <=? cur).
  - destruct (read _ _ n); done.
  - destruct (ReadStringMarker _ _) as [[b o]|]; [|done]. osimpl.
    by apply ReadOverflowString_value.
Qed.

Lemma FetchStringFromDict_frame seg de r bp cur n bm s r' bm' :
  FetchStringFromDict seg de r bp cur n bm = Some (s, r', bm') ->
  data r' = data r /\ disk bm' = disk bm.
Proof.
  unfold FetchStringFromDict. destruct (0 <=? cur).
  - destruct (read _ _ n); [|done]. osimpl. by intros [= <- <- <-].
  - destruct (ReadStringMarker _ _) as [[b o]|]; [|done]. osimpl.
    intros H%ReadOverflowString_frame. tauto.
Qed.

(** The cast of the length to uint32_t is harmless on a block below 2 GiB:
    a negative difference makes the inline read fail either way, and the
    overflow path does not use the length. *)
Lemma FetchStringFromDict_u32 seg de r bp cur prev bm :
  len (Ptr (block seg)) < 2 ^ 31 ->
  - 2 ^ 31 <= cur < 2 ^ 31 -> - 2 ^ 31 <= prev < 2 ^ 31 ->
  FetchStringFromDict seg de r bp cur (Int.u32 (Z.abs cur - Z.abs prev)) bm =
  FetchStringFromDict seg de r bp cur (Z.abs cur - Z.abs prev) bm.
Proof.
  intros Hl Hc Hp. unfold FetchStringFromDict.
  destruct (0 <=? cur); [|done].
  change (2 ^ 31) with 2147483648 in *.
  destruct (Z_lt_le_dec (Z.abs cur - Z.abs prev) 0) as [Hneg | Hpos].
  - assert (Hu : Int.u32 (Z.abs cur - Z.abs prev)
                 = Z.abs cur - Z.abs prev + 4294967296).
    { unfold Int.u32. change (2 ^ 32) with 4294967296.
      symmetry. apply Z.mod_unique with (-1); lia. }
    rewrite Hu.
    destruct (read _ _ (_ + 4294967296)) as [s|] eqn:E1.
    { apply read_Some in E1. lia. }
    destruct (read _ _ (Z.abs cur - Z.abs prev)) as [s|] eqn:E2; [|done].
    apply read_Some in E2. lia.
  - rewrite IntFacts.u32_small by (change (2 ^ 32) with 4294967296; lia). done.
Qed.

(** One row of a scan or a selection: the fetch made by the loops returns
    the value of the row, whatever the state of the result vector and of
    the buffer manager. *)
Lemma FetchStringFromDict_row seg de result index cur prev bm :
  GetDictionaryEnd seg = Some de ->
  base_data seg index = Some cur ->
  previous_entry seg index = Some prev ->
  len (Ptr (block seg)) < 2 ^ 31 ->
  match row_value seg (disk bm) index with
  | Some v =>
      exists r' bm',
        FetchStringFromDict seg de result (block_offset seg) cur
          (Int.u32 (Z.abs cur - Z.abs prev)) bm = Some (v, r', bm') /\
        data r' = data result /\ disk bm' = disk bm
  | None =>
      FetchStringFromDict seg de result (block_offset seg) cur
        (Int.u32 (Z.abs cur - Z.abs prev)) bm = None
  end.
Proof.
  intros Hde Hcur Hprev Hl. unfold row_value.
  rewrite Hde, Hcur, Hprev. osimpl.
  rewrite FetchStringFromDict_u32;
    [| done | by eapply base_data_range | by eapply previous_entry_range].
  rewrite (FetchStringFromDict_value seg de _ result (block_offset seg) cur
             (Z.abs cur - Z.abs prev)
             {| temporary_id := 0; free_block_id := 0; disk := disk bm |}
             bm eq_refl).
  destruct (FetchStringFromDict seg de result _ _ _ bm) as [[[s r'] bm']|] eqn:E.
  - cbn. apply FetchStringFromDict_frame in E as [E1 E2]. eauto.
  - done.
Qed.

End Rows.

(** ** Scan, Select and FetchRow row by row *)

Section ReadPath.
Context {info : StorageInfo}.
Import Mem MemFacts LoadStore.

Lemma splice_step {A} (l : list A) (k n : nat) (v : A) (vs : list A) :
  (k < length l)%nat ->
  take (S k) (<[k:=v]> l) ++ vs ++ drop (S k + n) (<[k:=v]> l) =
  take k l ++ (v :: vs) ++ drop (k + S n) l.
Proof.
  intros Hk.
  rewrite (take_S_r _ k v) by (by apply list_lookup_insert_eq).
  rewrite take_insert_ge by lia. rewrite drop_insert_lt by lia.
  rewrite <- app_assoc. cbn.
  replace (S (k + n)) with (k + S n)%nat by lia. done.
Qed.

Lemma set_data_Some result (k : nat) s :
  (k < length (data result))%nat ->
  exists r', set_data result (Z.of_nat k) s = Some r' /\
    data r' = <[k:=s]> (data result).
Proof.
  intros Hk. unfold set_data, len.
  destruct (Z.leb_spec 0 (Z.of_nat k)); [|lia].
  destruct (Z.ltb_spec (Z.of_nat k) (Z.of_nat (length (data result)))); [|lia].
  cbn. rewrite Nat2Z.id. eauto.
Qed.

Lemma previous_entry_succ seg i :
  0 <= i -> previous_entry seg (i + 1) = base_data seg i.
Proof.
  intros Hi. unfold previous_entry.
  destruct (Z.ltb_spec 0 (i + 1)); [|lia]. f_equal. lia.
Qed.

Lemma row_value_None_base_data seg d i :
  base_data seg i = None -> row_value seg d i = None.
Proof.
  intros H. unfold row_value. rewrite H.
  destruct (GetDictionaryEnd seg); done.
Qed.

Lemma row_value_None_previous seg d i :
  previous_entry seg i = None -> row_value seg d i = None.
Proof.
  intros H. unfold row_value. rewrite H.
  destruct (GetDictionaryEnd seg); [|done]. osimpl.
  destruct (base_data seg i); done.
Qed.

(** The loop of StringScanPartial writes the values of the rows start + i,
    start + i + 1, ... into the slots result_offset + i, ... and fails
    exactly when one of these rows has no value. *)
Lemma scan_loop_rows seg de start ro n i (k : nat) prev result bm :
  GetDictionaryEnd seg = Some de ->
  len (Ptr (block seg)) < 2 ^ 31 ->
  0 <= start -> 0 <= i -> ro + i = Z.of_nat k ->
  (k + n <= length (data result))%nat ->
  (n <> 0%nat -> previous_entry seg (start + i) = Some prev) ->
  match rows_from seg (disk bm) (start + i) n with
  | Some vs =>
      exists r' bm',
        scan_loop seg de start ro n i prev result bm = Some (r', bm') /\
        data r' = take k (data result) ++ vs ++ drop (k + n) (data result) /\
        disk bm' = disk bm
  | None => scan_loop seg de start ro n i prev result bm = None
  end.
Proof.
  intros Hde Hl Hstart. revert i k prev result bm.
  induction n as [|n IH]; intros i k prev result bm Hi Hk Hfit Hprev.
  - cbn. exists result, bm. split; [done |]. split; [|done].
    rewrite Nat.add_0_r. by rewrite take_drop.
  - specialize (Hprev ltac:(done)).
    cbn [rows_from scan_loop].
    destruct (base_data seg (start + i)) as [cur|] eqn:Ecur; osimpl.
    2: { by rewrite row_value_None_base_data. }
    pose proof (FetchStringFromDict_row seg de result (start + i) cur prev bm
                  Hde Ecur Hprev Hl) as Hrow.
    destruct (row_value seg (disk bm) (start + i)) as [v|]; osimpl.
    2: { by rewrite Hrow. }
    destruct Hrow as (r1 & bm1 & -> & Hd1 & Hdisk1). osimpl.
    destruct (set_data_Some r1 k v) as (r2 & Er2 & Hd2); [rewrite Hd1; lia |].
    rewrite Hk, Er2. osimpl.
    specialize (IH (i + 1) (S k) cur r2 bm1 ltac:(lia) ltac:(lia)).
    rewrite Hd2, Hd1, length_insert in IH.
    specialize (IH ltac:(lia)).
    replace (start + (i + 1)) with (start + i + 1) in IH by lia.
    rewrite previous_entry_succ in IH by lia.
    specialize (IH (fun _ => Ecur)). rewrite Hdisk1 in IH.
    destruct (rows_from seg (disk bm) (start + i + 1) n) as [vs|]; osimpl.
    + destruct IH as (r' & bm' & -> & Hd' & Hdisk'). exists r', bm'.
      split; [done |]. split; [|congruence].
      rewrite Hd'. apply splice_step. lia.
    + done.
Qed.

(** The loop of Select writes the value of row start + sel[j] into slot
    i + j, each row being resolved on its own. *)
Lemma select_loop_rows seg de start sel (k : nat) result bm :
  GetDictionaryEnd seg = Some de ->
  len (Ptr (block seg)) < 2 ^ 31 ->
  Forall (fun idx => 0 <= start + idx < 2 ^ 64) sel ->
  (k + length sel <= length (data result))%nat ->
  match mapM (fun idx => row_value seg (disk bm) (start + idx)) sel with
  | Some vs =>
      exists r' bm',
        select_loop seg de start sel (Z.of_nat k) result bm = Some (r', bm') /\
        data r' = take k (data result) ++ vs
                  ++ drop (k + length sel) (data result) /\
        disk bm' = disk bm
  | None => select_loop seg de start sel (Z.of_nat k) result bm = None
  end.
Proof.
  intros Hde Hl. revert k result bm.
  induction sel as [|idx sel IH]; intros k result bm Hsel Hfit.
  - cbn. exists result, bm. split; [done |]. split; [|done].
    rewrite Nat.add_0_r. by rewrite take_drop.
  - apply Forall_cons in Hsel as [Hidx Hsel].
    cbn [mapM select_loop length] in *.
    rewrite (IntFacts.u64_small (start + idx)) by done.
    destruct (base_data seg (start + idx)) as [cur|] eqn:Ecur; osimpl.
    2: { by rewrite row_value_None_base_data. }
    fold (previous_entry seg (start + idx)).
    destruct (previous_entry seg (start + idx)) as [prev|] eqn:Eprev; osimpl.
    2: { by rewrite row_value_None_previous. }
    pose proof (FetchStringFromDict_row seg de result (start + idx) cur prev bm
                  Hde Ecur Eprev Hl) as Hrow.
    destruct (row_value seg (disk bm) (start + idx)) as [v|]; osimpl.
    2: { by rewrite Hrow. }
    destruct Hrow as (r1 & bm1 & -> & Hd1 & Hdisk1). osimpl.
    destruct (set_data_Some r1 k v) as (r2 & Er2 & Hd2); [rewrite Hd1; lia |].
    rewrite Er2. osimpl.
    specialize (IH (S k) r2 bm1 Hsel).
    rewrite Hd2, Hd1, length_insert in IH. specialize (IH ltac:(lia)).
    rewrite Hdisk1 in IH.
    replace (Z.of_nat k + 1) with (Z.of_nat (S k)) by lia.
    destruct (mapM _ sel) as [vs|]; osimpl.
    + destruct IH as (r' & bm' & -> & Hd' & Hdisk'). exists r', bm'.
      split; [done |]. split; [|congruence].
      rewrite Hd'. apply splice_step. lia.
    + done.
Qed.

(** StringFetchRow returns the value of the row when the offsets are
    cumulative there, so that the checked cast of the length succeeds. *)
Lemma StringFetchRow_row seg row_id result (k : nat) bm :
  len (Ptr (block seg)) < 2 ^ 31 ->
  0 <= row_id -> (k < length (data result))%nat ->
  cumulative_at seg row_id ->
  match row_value seg (disk bm) row_id with
  | Some v =>
      exists r' bm',
        StringFetchRow seg row_id result (Z.of_nat k) bm = Some (r', bm') /\
        data r' = <[k:=v]> (data result) /\ disk bm' = disk bm
  | None => StringFetchRow seg row_id result (Z.of_nat k) bm = None
  end.
Proof.
  intros Hl Hrow Hk Hcum. unfold StringFetchRow.
  destruct (GetDictionaryEnd seg) as [de|] eqn:Hde; osimpl.
  2: { unfold row_value. by rewrite Hde. }
  destruct (base_data seg row_id) as [cur|] eqn:Ecur; osimpl.
  2: { by rewrite row_value_None_base_data. }
  destruct (previous_entry seg row_id) as [prev|] eqn:Eprev.
  2: { rewrite row_value_None_previous by done.
       unfold previous_entry in Eprev.
       destruct (Z.eqb_spec row_id 0) as [-> | Hne]; [done |].
       destruct (Z.ltb_spec 0 row_id); [|lia]. by rewrite Eprev. }
  pose proof (Hcum cur prev Ecur Eprev) as Hmono.
  pose proof (base_data_range _ _ _ Ecur) as Hcr.
  pose proof (previous_entry_range _ _ _ Eprev) as Hpr.
  pose proof (FetchStringFromDict_row seg de result row_id cur prev bm
                Hde Ecur Eprev Hl) as Hfetch.
  assert (Hlen :
    (if row_id =? 0 then NumericCast_u32 (Z.abs cur)
     else base_data seg (row_id - 1) ≫= fun prev0 =>
            NumericCast_u32 (Z.abs cur - Z.abs prev0))
    = Some (Int.u32 (Z.abs cur - Z.abs prev))).
  { change (2 ^ 31) with 2147483648 in *.
    assert (Hu : Int.u32 (Z.abs cur - Z.abs prev) = Z.abs cur - Z.abs prev)
      by (apply IntFacts.u32_small; change (2 ^ 32) with 4294967296; lia).
    rewrite Hu. unfold previous_entry in Eprev.
    destruct (Z.eqb_spec row_id 0) as [-> | Hne].
    - cbn in Eprev. injection Eprev as <-. unfold NumericCast_u32.
      replace (Z.abs cur - Z.abs 0) with (Z.abs cur) by lia.
      destruct (Z.leb_spec 0 (Z.abs cur)); [|lia].
      destruct (Z.ltb_spec (Z.abs cur) (2 ^ 32)); [done |].
      change (2 ^ 32) with 4294967296 in *. lia.
    - destruct (Z.ltb_spec 0 row_id); [|lia]. rewrite Eprev. osimpl.
      unfold NumericCast_u32.
      destruct (Z.leb_spec 0 (Z.abs cur - Z.abs prev)); [|lia].
      destruct (Z.ltb_spec (Z.abs cur - Z.abs prev) (2 ^ 32)); [done |].
      change (2 ^ 32) with 4294967296 in *. lia. }
  rewrite Hlen. osimpl.
  destruct (row_value seg (disk bm) row_id) as [v|].
  - destruct Hfetch as (r1 & bm1 & -> & Hd1 & Hdisk1). osimpl.
    destruct (set_data_Some r1 k v) as (r2 & Er2 & Hd2); [rewrite Hd1; lia |].
    rewrite Er2. osimpl. exists r2, bm1. rewrite Hd2, Hd1. done.
  - by rewrite Hfetch.
Qed.

Lemma rows_from_lookup seg d index n vs (i : nat) :
  rows_from seg d index n = Some vs -> (i < n)%nat ->
  exists v, vs !! i = Some v /\ row_value seg d (index + Z.of_nat i) = Some v.
Proof.
  revert index vs i. induction n as [|n IH]; intros index vs i; [lia |].
  cbn [rows_from].
  destruct (row_value seg d index) as [v|] eqn:Ev; [|done]. osimpl.
  destruct (rows_from seg d (index + 1) n) as [vs'|] eqn:Evs; [|done]. osimpl.
  intros [= <-] Hi. destruct i as [|i].
  - exists v. split; [done |]. by rewrite Z.add_0_r.
  - destruct (IH _ _ i Evs ltac:(lia)) as (w & Hw1 & Hw2).
    exists w. split; [done |]. rewrite <- Hw2. f_equal. lia.
Qed.

Lemma rows_from_length seg d index n vs :
  rows_from seg d index n = Some vs -> length vs = n.
Proof.
  revert index vs. induction n as [|n IH]; intros index vs.
  - by intros [= <-].
  - cbn [rows_from].
    destruct (row_value seg d index) as [v|]; [|done]. osimpl.
    destruct (rows_from seg d (index + 1) n) as [vs'|] eqn:Evs; [|done]. osimpl.
    intros [= <-]. cbn. f_equal. by eapply IH.
Qed.

(** StringScan in terms of the rows. *)
Lemma StringScan_rows seg n result bm :
  len (Ptr (block seg)) < 2 ^ 31 ->
  (n <= length (data result))%nat ->
  is_Some (GetDictionaryEnd seg) ->
  match rows_from seg (disk bm) 0 n with
  | Some vs =>
      exists r' bm',
        StringScan seg 0 n result bm = Some (r', bm') /\
        data r' = vs ++ drop n (data result) /\ disk bm' = disk bm
  | None => StringScan seg 0 n result bm = None
  end.
Proof.
  intros Hl Hn [de Hde]. unfold StringScan, StringScanPartial.
  rewrite Hde. osimpl. change (0 <? 0) with false. osimpl.
  pose proof (scan_loop_rows seg de 0 0 n 0 0%nat 0 result bm Hde Hl
                ltac:(lia) ltac:(lia) ltac:(lia) Hn (fun _ => eq_refl)) as H.
  change (0 + 0) with 0 in H.
  destruct (rows_from seg (disk bm) 0 n) as [vs|]; [|done].
  destruct H as (r' & bm' & E & Hd & Hdisk). exists r', bm'. done.
Qed.

End ReadPath.

Section ReadPathClaims.
Context {info : StorageInfo}.
Import Mem MemFacts LoadStore.

Lemma StringScan_header seg n result bm r :
  StringScan seg 0 n result bm = Some r -> is_Some (GetDictionaryEnd seg).
Proof.
  unfold StringScan, StringScanPartial.
  destruct (GetDictionaryEnd seg); [eauto | done].
Qed.

Lemma row_value_first_inline seg d cur v :
  base_data seg 0 = Some cur -> 0 <= cur ->
  row_value seg d 0 = Some v -> len v = cur.
Proof.
  intros Hcur Hpos. unfold row_value, previous_entry. rewrite Hcur.
  destruct (GetDictionaryEnd seg) as [de|]; [|done]. osimpl.
  change (0 <? 0) with false. osimpl.
  unfold FetchStringFromDict. destruct (Z.leb_spec 0 cur); [|lia].
  destruct (read _ _ _) as [s|] eqn:E; [|done]. cbn. intros [= <-].
  apply read_len in E. lia.
Qed.

(** C4. On a segment whose offsets are cumulative at row i, if Scan(0, n)
    succeeds then FetchRow(i) succeeds, for every i below n, and the string
    it stores is the one at position i of the scan, whatever the state of
    the result vector and of the buffer manager it runs in. For row 0 the
    previous offset is 0: an inline first string has the length
    offset[0]. *)
Theorem FetchRow_agrees_with_Scan seg (n i k : nat) result result2 bm bm2 r1 bm1 :
  len (Ptr (block seg)) < 2 ^ 31 ->
  (i < n)%nat -> (n <= length (data result))%nat ->
  (k < length (data result2))%nat ->
  disk bm2 = disk bm ->
  cumulative_at seg (Z.of_nat i) ->
  StringScan seg 0 n result bm = Some (r1, bm1) ->
  exists r2 bm2' v,
    StringFetchRow seg (Z.of_nat i) result2 (Z.of_nat k) bm2 = Some (r2, bm2') /\
    data r2 !! k = Some v /\ data r1 !! i = Some v /\
    (i = 0%nat -> forall cur, base_data seg 0 = Some cur -> 0 <= cur ->
       len v = cur).
Proof.
  intros Hl Hi Hn Hk Hdisk Hcum Hscan.
  pose proof (StringScan_header _ _ _ _ _ Hscan) as Hde.
  pose proof (StringScan_rows seg n result bm Hl Hn Hde) as Hrows.
  destruct (rows_from seg (disk bm) 0 n) as [vs|] eqn:Evs; [|congruence].
  destruct Hrows as (r' & bm' & E & Hd & _).
  rewrite Hscan in E. injection E as <- <-.
  destruct (rows_from_lookup _ _ _ _ _ i Evs Hi) as (v & Hv & Hrow).
  rewrite Z.add_0_l in Hrow.
  pose proof (StringFetchRow_row seg (Z.of_nat i) result2 k bm2 Hl
                ltac:(lia) Hk Hcum) as Hfetch.
  rewrite Hdisk, Hrow in Hfetch. destruct Hfetch as (r2 & bm2' & E & Hd2 & _).
  exists r2, bm2', v. split; [done |]. split.
  { rewrite Hd2. by apply list_lookup_insert_eq. }
  split.
  { rewrite Hd. apply lookup_app_l_Some. done. }
  intros -> cur Hcur Hpos. by eapply row_value_first_inline.
Qed.

(** C5. Select over any list of row indices, in any order and with
    repetitions, fails exactly when one of the selected rows has no value,
    and otherwise stores at each output position j the value of row
    start + sel[j], computed from offset[index] and offset[index - 1] of
    that index alone (0 for index 0): the slots are the row values mapped
    over the selection. *)
Theorem Select_rows seg start result sel bm :
  len (Ptr (block seg)) < 2 ^ 31 ->
  is_Some (GetDictionaryEnd seg) ->
  Forall (fun idx => 0 <= start + idx < 2 ^ 64) sel ->
  (length sel <= length (data result))%nat ->
  (fun r => take (length sel) (data r.1)) <$> Select seg start result sel bm =
    mapM (fun idx => row_value seg (disk bm) (start + idx)) sel /\
  forall r' bm' (j : nat) idx,
    Select seg start result sel bm = Some (r', bm') ->
    sel !! j = Some idx ->
    is_Some (data r' !! j) /\
    data r' !! j = row_value seg (disk bm) (start + idx).
Proof.
  intros Hl [de Hde] Hsel Hfit.
  pose proof (select_loop_rows seg de start sel 0 result bm Hde Hl Hsel
                ltac:(lia)) as H.
  unfold Select. rewrite Hde. osimpl. change (Z.of_nat 0) with 0 in H.
  destruct (mapM _ sel) as [vs|] eqn:Evs.
  - destruct H as (r' & bm' & -> & Hd & _).
    rewrite take_0 in Hd. cbn [app Nat.add] in Hd.
    apply mapM_Some_1 in Evs.
    pose proof (Forall2_length _ _ _ Evs) as Hlen.
    split.
    + cbn. f_equal. rewrite Hd, Hlen. by rewrite take_app_length.
    + intros r'' bm'' j idx [= <- <-] Hj.
      destruct (Forall2_lookup_l _ _ _ _ _ Evs Hj) as (v & Hv & Hrow).
      rewrite Hrow, Hd. rewrite (lookup_app_l_Some _ _ _ _ Hv). eauto.
  - rewrite H. split; [done |]. intros; done.
Qed.

End ReadPathClaims.

Section ReadPathExamples.
Import Mem Examples.
#[local] Existing Instance example_info.

Lemma FetchRow_agrees_with_Scan_witness :
  exists r2 bm2' v,
    StringFetchRow abc_segment 1 (blank_vector 1) 0 example_storage
      = Some (r2, bm2') /\
    data r2 !! 0%nat = Some v /\ v = str_bb.
Proof.
  destruct (StringScan abc_segment 0 3 (blank_vector 3) example_storage)
    as [[r1 bm1]|] eqn:Escan; [|vm_compute in Escan; congruence].
  destruct (FetchRow_agrees_with_Scan abc_segment 3 1 0 (blank_vector 3)
              (blank_vector 1) example_storage example_storage r1 bm1)
    as (r2 & bm2' & v & E & Hv & Hs & _).
  - vm_compute. reflexivity.
  - lia.
  - vm_compute. lia.
  - vm_compute. lia.
  - reflexivity.
  - intros cur prev H1 H2. vm_compute in H1, H2.
    injection H1 as <-. injection H2 as <-. vm_compute. congruence.
  - exact Escan.
  - exists r2, bm2', v. split; [exact E |]. split; [exact Hv |].
    vm_compute in Escan. injection Escan as <- <-. vm_compute in Hs.
    injection Hs as <-. reflexivity.
Defined.

Lemma Select_rows_witness :
  (fun r => take 4 (data r.1))
    <$> Select abc_segment 0 (blank_vector 4) [2; 0; 2; 1] example_storage
  = Some [str_ccc; str_a; str_ccc; str_bb].
Proof.
  destruct (Select_rows abc_segment 0 (blank_vector 4) [2; 0; 2; 1]
              example_storage) as [E _].
  - vm_compute. reflexivity.
  - vm_compute. eauto.
  - repeat constructor; vm_compute; congruence.
  - vm_compute. lia.
  - etrans; [exact E |]. vm_compute. reflexivity.
Defined.

End ReadPathExamples.

(** ** Resolving a marker *)

Section Resolve.
Context {info : StorageInfo}.
Import Mem MemFacts LoadStore.

Lemma write_at_end (a b c : list byte) :
  len c <= len b ->
  write (a ++ b) (len a) c = Some (a ++ c ++ drop (Z.to_nat (len c)) b).
Proof.
  intros Hc. apply write_Some. pose proof (len_nonneg a).
  rewrite len_app. split; [lia |]. split; [lia |].
  unfold len. rewrite <- Nat2Z.inj_add, !Nat2Z.id.
  rewrite take_app_length. by rewrite drop_app_add.
Qed.

Lemma len_0_nil {A} (l : list A) : len l = 0 -> l = [].
Proof. unfold len. destruct l; [done | cbn; lia]. Qed.

Lemma drop_len_nil {A} (l : list A) n : len l = n -> drop (Z.to_nat n) l = [].
Proof. intros <-. unfold len. rewrite Nat2Z.id. by apply drop_ge. Qed.

(** The loop of the durable path on a stored chain: it copies the payload
    piece by piece behind what is already written, and the fuel given by
    the length is enough. *)
Lemma read_overflow_loop_chain B bm handle offset payload :
  durable_chain B (disk bm) handle offset payload ->
  8 < B <= 2 ^ 31 ->
  forall fuel written rest,
    (Z.to_nat (len payload) + (if (offset <? B - 8)%Z then 0 else 1)
     <= fuel)%nat ->
    len rest = len payload -> len payload < 2 ^ 32 ->
    read_overflow_loop fuel B bm handle offset (len payload) (written ++ rest)
      (len written) = Some (written ++ payload).
Proof.
  intros Hchain HB. change (2 ^ 31) with 2147483648 in HB.
  induction Hchain as [handle offset payload Ho Hfit Hread
                      | handle offset piece tail next handle' Ho Hpiece Hne
                          Hread Hnext Hpin Hchain IH];
    intros fuel written rest Hfuel Hrest H32; unfold sizeof_block_id_t in *;
    change (2 ^ 32) with 4294967296 in H32.
  - pose proof (len_nonneg payload) as Hp.
    destruct (Z.eq_dec (len payload) 0) as [Hz | Hnz].
    { rewrite (len_0_nil payload Hz), (len_0_nil rest) by lia.
      destruct fuel; done. }
    destruct fuel as [|fuel]; [lia |]. cbn [read_overflow_loop].
    destruct (Z.leb_spec (len payload) 0); [lia |].
    rewrite (IntFacts.u64_small offset)
      by (change (2 ^ 64) with 18446744073709551616; lia).
    unfold sizeof_block_id_t.
    rewrite (IntFacts.u64_small (B - 8 - offset))
      by (change (2 ^ 64) with 18446744073709551616; lia).
    rewrite Z.min_l by lia. rewrite Hread. osimpl.
    rewrite write_at_end by lia. osimpl.
    rewrite Z.sub_diag. change (Int.u32 0) with 0. change (0 <? 0) with false.
    rewrite (drop_len_nil rest) by done. rewrite app_nil_r.
    destruct fuel; done.
  - pose proof (len_nonneg piece) as Hp. pose proof (len_nonneg tail) as Ht.
    assert (Htail : 0 < len tail).
    { destruct tail; [done |]. unfold len. cbn. lia. }
    rewrite len_app in *.
    destruct fuel as [|fuel]; [lia |]. cbn [read_overflow_loop].
    destruct (Z.leb_spec (len piece + len tail) 0); [lia |].
    rewrite (IntFacts.u64_small offset)
      by (change (2 ^ 64) with 18446744073709551616; lia).
    unfold sizeof_block_id_t.
    rewrite (IntFacts.u64_small (B - 8 - offset))
      by (change (2 ^ 64) with 18446744073709551616; lia).
    rewrite Z.min_r by lia. rewrite <- Hpiece. rewrite Hread. osimpl.
    rewrite write_at_end by lia. osimpl.
    replace (len piece + len tail - len piece) with (len tail) by lia.
    rewrite (IntFacts.u32_small (len tail))
      by (change (2 ^ 32) with 4294967296; lia).
    destruct (Z.ltb_spec 0 (len tail)); [|lia].
    rewrite (IntFacts.i32_small (len piece))
      by (change (2 ^ 31) with 2147483648; lia).
    rewrite (IntFacts.i32_small (offset + len piece))
      by (change (2 ^ 31) with 2147483648; lia).
    replace (offset + len piece) with (B - 8) by lia.
    rewrite Hnext. osimpl.
    assert (Pin bm next = Some handle') as -> by exact Hpin. osimpl.
    rewrite app_assoc. rewrite <- len_app.
    rewrite (app_assoc written piece tail).
    apply IH.
    + destruct (Z.ltb_spec 0 (B - 8)); [|lia].
      destruct (Z.ltb_spec offset (B - 8)); lia.
    + unfold len in *. rewrite length_drop. lia.
    + change (2 ^ 32) with 4294967296. lia.
Qed.

(** A stored value is what ReadOverflowString returns for its marker. *)
Lemma ReadOverflowString_stored seg result block_id offset bm v :
  stored seg (disk bm) block_id offset v ->
  len v + 4 <= 2 ^ 31 -> block_size seg <= 2 ^ 31 ->
  exists result' bm',
    ReadOverflowString seg result block_id offset bm = Some (v, result', bm').
Proof.
  intros Hst Hv HB. pose proof (len_nonneg v) as Hv0.
  change (2 ^ 31) with 2147483648 in *. unfold ReadOverflowString.
  destruct Hst as [(Hb & r & node & Hr & Hnode & Ho & Hfit & Hread)
                  | (Hb & handle & Hpin & HB8 & Ho & Ho31 & Hlen & Hchain)].
  - destruct (Z.ltb_spec block_id MAXIMUM_BLOCK); [lia |].
    rewrite Hr. osimpl. rewrite Hnode. osimpl. rewrite Hread. osimpl. eauto.
  - destruct (Z.ltb_spec block_id MAXIMUM_BLOCK); [|lia].
    assert (Pin bm block_id = Some handle) as -> by exact Hpin. osimpl.
    rewrite Hlen. osimpl.
    unfold sizeof_uint32_t, sizeof_block_id_t in *.
    rewrite (IntFacts.i32_small (offset + 4))
      by (change (2 ^ 31) with 2147483648 in *; lia).
    change (2 ^ 31) with 2147483648 in Ho31.
    assert (Hfuel : (Z.to_nat (len v)
                     + (if (offset + 4 <? block_size seg - 8)%Z then 0 else 1)
                     <= S (Z.to_nat (len v)))%nat)
      by (destruct (_ <? _); lia).
    destruct (block_size seg <=? len v).
    + unfold Allocate. cbn [Ptr BlockId].
      pose proof (read_overflow_loop_chain (block_size seg)
                    {| temporary_id := temporary_id bm + 1;
                       free_block_id := free_block_id bm; disk := disk bm |}
                    handle (offset + 4) v Hchain ltac:(lia)
                    (S (Z.to_nat (len v))) []
                    (replicate (Z.to_nat (len v)) x00) Hfuel
                    ltac:(rewrite len_replicate; lia)
                    ltac:(change (2 ^ 32) with 4294967296; lia)) as Hloop.
      cbn [app] in Hloop. change (len []) with 0 in Hloop.
      rewrite Hloop. osimpl. unfold ReadString. rewrite read_all. osimpl. eauto.
    + pose proof (read_overflow_loop_chain (block_size seg) bm
                    handle (offset + 4) v Hchain ltac:(lia)
                    (S (Z.to_nat (len v))) []
                    (replicate (Z.to_nat (len v)) x00) Hfuel
                    ltac:(rewrite len_replicate; lia)
                    ltac:(change (2 ^ 32) with 4294967296; lia)) as Hloop.
      cbn [app] in Hloop. change (len []) with 0 in Hloop.
      rewrite Hloop. osimpl. eauto.
Qed.

End Resolve.

(** ** Scanning a segment that holds a list of values *)

Section ScanRepr.
Context {info : StorageInfo}.
Import Mem MemFacts LoadStore.

Lemma required_space_nonneg B v : 0 <= required_space B v.
Proof.
  unfold required_space, BIG_STRING_MARKER_SIZE, sizeof_block_id_t, sizeof_int32_t.
  pose proof (len_nonneg v). destruct (_ <=? _); lia.
Qed.

Lemma dictionary_bytes_nonneg B vs : 0 <= dictionary_bytes B vs.
Proof.
  induction vs as [|v vs IH]; cbn; [lia |].
  pose proof (required_space_nonneg B v). lia.
Qed.

Lemma dictionary_bytes_app B vs ws :
  dictionary_bytes B (vs ++ ws) = dictionary_bytes B vs + dictionary_bytes B ws.
Proof. induction vs as [|v vs IH]; cbn; lia. Qed.

Lemma dictionary_bytes_take_S B vs (i : nat) v :
  vs !! i = Some v ->
  dictionary_bytes B (take (S i) vs)
  = dictionary_bytes B (take i vs) + required_space B v.
Proof.
  intros Hv. rewrite (take_S_r _ _ _ Hv), dictionary_bytes_app. cbn. lia.
Qed.

Lemma dictionary_bytes_take_le B vs (i : nat) :
  dictionary_bytes B (take i vs) <= dictionary_bytes B vs.
Proof.
  rewrite <- (take_drop i vs) at 2. rewrite dictionary_bytes_app.
  pose proof (dictionary_bytes_nonneg B (drop i vs)). lia.
Qed.

Lemma row_stored_base_data seg d E i c' v :
  row_stored seg d E i c' v ->
  exists cur, base_data seg i = Some cur /\ Z.abs cur = Z.abs c'.
Proof.
  unfold row_stored. destruct (_ <=? _); intros [H _]; eexists; split; eauto; lia.
Qed.

Lemma GetDictionaryEnd_repr E seg bm vs :
  segment_repr E seg bm vs -> GetDictionaryEnd seg = Some E.
Proof.
  intros (_ & Hd & _). by apply GetDictionaryEnd_GetDictionary in Hd.
Qed.

(** The previous entry of row [i] has the magnitude of the dictionary bytes
    of the rows before it. *)
Lemma previous_entry_repr E seg bm vs (i : nat) :
  segment_repr E seg bm vs -> (i < length vs)%nat ->
  exists prev, previous_entry seg (Z.of_nat i) = Some prev /\
    Z.abs prev = dictionary_bytes (block_size seg) (take i vs).
Proof.
  intros (_ & _ & _ & _ & _ & _ & _ & _ & Hrows) Hi.
  unfold previous_entry. destruct i as [|i].
  - exists 0. done.
  - destruct (Z.ltb_spec 0 (Z.of_nat (S i))); [|lia].
    destruct (lookup_lt_is_Some_2 vs i ltac:(lia)) as [w Hw].
    destruct (row_stored_base_data _ _ _ _ _ _ (Hrows i w Hw)) as (cur & Hc & Ha).
    exists cur. replace (Z.of_nat (S i) - 1) with (Z.of_nat i) by lia.
    split; [done |]. rewrite Ha.
    pose proof (dictionary_bytes_nonneg (block_size seg) (take (S i) vs)). lia.
Qed.

(** Every row of the segment has its value. *)
Lemma row_value_repr E seg bm vs (i : nat) v :
  segment_repr E seg bm vs -> values_ok vs ->
  vs !! i = Some v ->
  row_value seg (disk bm) (Z.of_nat i) = Some v.
Proof.
  intros Hrepr Hok Hv.
  pose proof (GetDictionaryEnd_repr _ _ _ _ Hrepr) as Hde.
  destruct (previous_entry_repr E seg bm vs i Hrepr
              (lookup_lt_Some _ _ _ Hv)) as (prev & Hprev & Hpa).
  destruct Hrepr as (_ & _ & _ & _ & _ & _ & HB & _ & Hrows).
  pose proof (Hrows i v Hv) as Hrow.
  pose proof (dictionary_bytes_take_S (block_size seg) vs i v Hv) as Hc.
  pose proof (dictionary_bytes_nonneg (block_size seg) (take i vs)) as Hc0.
  pose proof (len_nonneg v) as Hv0.
  assert (Hvok : len v + 4 <= 2 ^ 31).
  { eapply Forall_lookup_1 in Hok; [|exact Hv]. done. }
  unfold row_value. rewrite Hde. osimpl.
  unfold row_stored in Hrow. unfold required_space in Hc.
  unfold FetchStringFromDict.
  destruct (GetStringBlockLimit (block_size seg) <=? len v).
  - destruct Hrow as (Hcur & b & o & Hm & Hst).
    unfold BIG_STRING_MARKER_SIZE, sizeof_block_id_t, sizeof_int32_t in Hc.
    rewrite Hcur, Hprev. osimpl.
    destruct (Z.leb_spec 0 (- dictionary_bytes (block_size seg) (take (S i) vs)));
      [lia |].
    rewrite Z.abs_opp, Z.abs_eq by lia. rewrite Hm. osimpl.
    destruct (ReadOverflowString_stored seg
                {| data := []; string_heap := []; handles := [] |} b o
                {| temporary_id := 0; free_block_id := 0; disk := disk bm |} v
                Hst Hvok ltac:(lia)) as (r' & bm' & ->).
    done.
  - destruct Hrow as (Hcur & Hread).
    rewrite Hcur, Hprev. osimpl.
    destruct (Z.leb_spec 0 (dictionary_bytes (block_size seg) (take (S i) vs)));
      [|lia].
    rewrite Hpa. rewrite (Z.abs_eq (dictionary_bytes _ (take (S i) vs))) by lia.
    replace (dictionary_bytes (block_size seg) (take (S i) vs)
             - dictionary_bytes (block_size seg) (take i vs))
      with (len v) by lia.
    rewrite Hread. done.
Qed.

Lemma rows_from_values seg d index vs :
  (forall (i : nat) v, vs !! i = Some v ->
     row_value seg d (index + Z.of_nat i) = Some v) ->
  rows_from seg d index (length vs) = Some vs.
Proof.
  revert index. induction vs as [|v vs IH]; intros index Hrows; [done |].
  cbn [rows_from length].
  pose proof (Hrows 0%nat v eq_refl) as H0. rewrite Z.add_0_r in H0.
  rewrite H0. osimpl. rewrite IH; [done |].
  intros i w Hw. specialize (Hrows (S i) w Hw).
  rewrite <- Hrows. f_equal. lia.
Qed.

(** Scan(0, n) of a segment that holds n values returns them in order. *)
Lemma StringScan_repr E seg bm vs result :
  segment_repr E seg bm vs -> values_ok vs ->
  (length vs <= length (data result))%nat ->
  exists r' bm',
    StringScan seg 0 (length vs) result bm = Some (r', bm') /\
    data r' = vs ++ drop (length vs) (data result) /\ disk bm' = disk bm.
Proof.
  intros Hrepr Hok Hfit.
  pose proof (GetDictionaryEnd_repr _ _ _ _ Hrepr) as Hde.
  assert (Hl : len (Ptr (block seg)) < 2 ^ 31)
    by (destruct Hrepr as (_ & _ & _ & _ & _ & H & _); done).
  pose proof (StringScan_rows seg (length vs) result bm Hl Hfit
                ltac:(by eexists)) as H.
  rewrite (rows_from_values seg (disk bm) 0 vs) in H; [done |].
  intros i v Hv. rewrite Z.add_0_l. by eapply row_value_repr.
Qed.

End ScanRepr.

(** ** The in-memory overflow store under WriteStringMemory *)

Section OverflowStore.
Context {info : StorageInfo}.
Import Mem MemFacts LoadStore.

Lemma deref_cons_lt x chain (r : nat) :
  (r < length chain)%nat -> deref (x :: chain) r = deref chain r.
Proof.
  intros Hr. unfold deref. cbn [rev].
  apply lookup_app_l. by rewrite length_rev.
Qed.

Lemma deref_cons_eq x chain : deref (x :: chain) (length chain) = Some x.
Proof.
  unfold deref. cbn [rev]. rewrite lookup_app_r by (rewrite length_rev; lia).
  rewrite length_rev, Nat.sub_diag. done.
Qed.

Lemma deref_lt chain r node : deref chain r = Some node -> (r < length chain)%nat.
Proof.
  unfold deref. intros H%lookup_lt_Some. by rewrite length_rev in H.
Qed.

Lemma deref_cons_inv x chain r node :
  deref (x :: chain) r = Some node ->
  ((r < length chain)%nat /\ deref chain r = Some node) \/
  (r = length chain /\ node = x).
Proof.
  intros H. pose proof (deref_lt _ _ _ H) as Hr. cbn [length] in Hr.
  destruct (decide (r < length chain)%nat) as [Hlt | Hge].
  - left. rewrite deref_cons_lt in H by done. done.
  - right. assert (r = length chain) as -> by lia.
    rewrite deref_cons_eq in H. by injection H as <-.
Qed.

Lemma ReadStringWithLength_Some buf o w :
  ReadStringWithLength buf o = Some w ->
  Load_u32 buf o = Some (len w) /\ read buf (o + 4) (len w) = Some w.
Proof.
  unfold ReadStringWithLength, sizeof_uint32_t.
  destruct (Load_u32 buf o) as [n|]; [|done]. osimpl.
  intros H. pose proof (read_len _ _ _ _ H) as ->. done.
Qed.

(** A length-prefixed string below [lim] survives a change of the buffer
    that keeps the bytes below [lim]. *)
Lemma ReadStringWithLength_below buf buf' lim o w :
  (forall p n, p + n <= lim -> read buf' p n = read buf p n) ->
  ReadStringWithLength buf o = Some w -> o + (len w + 4) <= lim ->
  ReadStringWithLength buf' o = Some w.
Proof.
  intros Hframe [Hl Hr]%ReadStringWithLength_Some Hlim.
  pose proof (len_nonneg w).
  unfold ReadStringWithLength, sizeof_uint32_t, Load_u32 in *.
  rewrite Hframe by lia.
  destruct (read buf o 4) as [bs|]; [|done]. osimpl. osimpl in Hl.
  injection Hl as ->. rewrite Hframe by lia. done.
Qed.

Lemma stored_state_irrelevant seg seg' d b o w :
  segment_state seg' = segment_state seg -> block_size seg' = block_size seg ->
  stored seg d b o w -> stored seg' d b o w.
Proof. unfold stored. intros -> ->. done. Qed.

(** WriteStringMemory on a well-formed store: it succeeds, changes the
    overflow state only, keeps the store well formed, stores the value at
    the marker it returns and keeps everything stored before. *)
Lemma WriteStringMemory_store seg v bm :
  store_ok (segment_state seg) bm ->
  len v + 4 <= 2 ^ 31 -> 0 <= block_size seg <= 2 ^ 31 ->
  temporary_id bm < 2 ^ 63 ->
  exists b o st1 bm1,
    WriteStringMemory seg v bm = Some (b, o, set_segment_state seg st1, bm1) /\
    store_ok st1 bm1 /\ disk bm1 = disk bm /\
    temporary_id bm <= temporary_id bm1 <= temporary_id bm + 1 /\
    stored (set_segment_state seg st1) (disk bm1) b o v /\
    - 2 ^ 63 <= b < 2 ^ 63 /\ - 2 ^ 31 <= o < 2 ^ 31 /\
    overflow_writer st1 = overflow_writer (segment_state seg) /\
    (forall b' o' w, stored seg (disk bm) b' o' w ->
       stored (set_segment_state seg st1) (disk bm1) b' o' w).
Proof.
  intros (Hwf & Hidx & Hkeys & Hmin & Hmax) Hv HB Htid.
  pose proof (len_nonneg v) as Hv0.
  change (2 ^ 31) with 2147483648 in *.
  change (2 ^ 63) with 9223372036854775808 in *.
  destruct (head (segment_state seg)) as [|hd next] eqn:Hhd.
  2: destruct (Z_lt_le_dec (sb_offset hd + (len v + 4)) (sb_size hd))
       as [Hfit | Hnofit].
  2: { (* the string fits in the head buffer *)
    apply Forall_cons in Hwf as [Hn Hnext].
    destruct (WriteStringMemory_fits seg v bm hd next Hhd Hn Hv Hfit)
      as (buf' & E & L & R & F).
    destruct Hn as (Ho1 & Ho2 & Hl & Hs).
    destruct (Hidx (length next) hd (deref_cons_eq hd next)) as [Hhd_idx Hhd_id].
    pose proof (Hkeys _ _ Hhd_idx) as Hhd_key.
    set (hd' := {| sb_block := {| BlockId := BlockId (sb_block hd); Ptr := buf' |};
                   sb_offset := sb_offset hd + (len v + 4);
                   sb_size := sb_size hd |}) in *.
    exists (BlockId (sb_block hd)), (sb_offset hd),
      (set_head (segment_state seg) (hd' :: next)), bm.
    split; [exact E |]. split.
    { split; [|split; [|done]].
      - apply Forall_cons. split; [|done]. unfold node_wf. cbn.
        change (2 ^ 31) with 2147483648. lia.
      - intros r node [(Hr & Hd) | (-> & ->)]%deref_cons_inv; cbn.
        + apply Hidx. by rewrite deref_cons_lt.
        + done. }
    split; [done |]. split; [lia |]. split.
    { left. split; [done |]. exists (length next), hd'. cbn.
      rewrite deref_cons_eq. repeat split; try done; lia. }
    split; [lia |]. split; [lia |]. split; [done |].
    intros b' o' w [(Hb' & r & node & Hr & Hd & Ho' & Hlim & Hread) | Hdur];
      [left | right; exact Hdur].
    split; [done |]. cbn. rewrite Hhd in Hd.
    apply deref_cons_inv in Hd as [(Hlt & Hd) | (-> & ->)].
    - exists r, node. rewrite deref_cons_lt by done. done.
    - exists (length next), hd'. rewrite deref_cons_eq. cbn.
      repeat split; try done; [lia |].
      apply (ReadStringWithLength_below (Ptr (sb_block hd)) buf' (sb_offset hd));
        [exact F | done | lia]. }
  all: (* a new buffer is allocated *)
    destruct (WriteStringMemory_new seg v bm) as (buf' & E & L & R);
      [rewrite Hhd; first [done | split; [by apply Forall_cons in Hwf as [? _] | lia]]
      | done | done |];
    rewrite Hhd in E;
    match type of E with
    | _ = Some (_, _, set_segment_state _ ?st, ?bm1) =>
        exists (temporary_id bm), 0, st, bm1
    end;
    (split; [exact E |]);
    assert (Hfresh : overflow_blocks (segment_state seg) !! temporary_id bm = None)
      by (destruct (overflow_blocks (segment_state seg) !! temporary_id bm)
            as [r|] eqn:Er; [apply Hkeys in Er; lia | done]);
    assert (Hins : forall b : block_id_t, b <> temporary_id bm ->
              map_insert_new (temporary_id bm)
                (length (head (segment_state seg)))
                (overflow_blocks (segment_state seg)) !! b
              = overflow_blocks (segment_state seg) !! b)
      by (intros b Hne; unfold map_insert_new; rewrite Hfresh;
          by rewrite lookup_insert_ne);
    assert (Hnew : map_insert_new (temporary_id bm)
                (length (head (segment_state seg)))
                (overflow_blocks (segment_state seg)) !! temporary_id bm
              = Some (length (head (segment_state seg))))
      by (unfold map_insert_new; rewrite Hfresh; by rewrite lookup_insert_eq);
    rewrite Hhd in Hins, Hnew.
  - split.
    { split; [|split; [|split; [|cbn; lia]]]; cbn.
      + apply Forall_cons. split; [|done]. unfold node_wf. cbn.
        change (2 ^ 31) with 2147483648. lia.
      + intros r node [(Hr & Hd) | (-> & ->)]%deref_cons_inv; cbn.
        * cbn in Hr. lia.
        * split; [done | lia].
      + intros b r Hb. destruct (decide (b = temporary_id bm)) as [-> | Hne];
          [lia |]. rewrite Hins in Hb by done. apply Hkeys in Hb. lia. }
    split; [done |]. cbn. split; [lia |]. split.
    { left. split; [done |]. eexists 0%nat, _. cbn. split; [exact Hnew |].
      split; [done |]. cbn. repeat split; try done; lia. }
    split; [lia |]. split; [lia |]. split; [done |].
    intros b' o' w [(Hb' & r & node & Hr & Hd & _) | Hdur];
      [|right; exact Hdur].
    rewrite Hhd in Hd. done.
  - split.
    { split; [|split; [|split; [|cbn; lia]]]; cbn.
      + apply Forall_cons. split; [|done]. unfold node_wf. cbn.
        change (2 ^ 31) with 2147483648.
        apply Forall_cons in Hwf as [(? & ? & ? & ?) _]. lia.
      + intros r node [(Hr & Hd) | (-> & ->)]%deref_cons_inv; cbn.
        * destruct (Hidx r node Hd) as [Hi Hm]. split; [|done].
          rewrite Hins; [done |]. apply Hkeys in Hi. lia.
        * split; [done | lia].
      + intros b r Hb. destruct (decide (b = temporary_id bm)) as [-> | Hne];
          [lia |]. rewrite Hins in Hb by done. apply Hkeys in Hb. lia. }
    split; [done |]. cbn. split; [lia |]. split.
    { left. split; [done |]. eexists (length (hd :: next)), _.
      split; [exact Hnew |].
      split; [exact (deref_cons_eq _ (hd :: next)) |].
      cbn. repeat split; try done; lia. }
    split; [lia |]. split; [lia |]. split; [done |].
    intros b' o' w [(Hb' & r & node & Hr & Hd & Ho' & Hlim & Hread) | Hdur];
      [left | right; exact Hdur].
    split; [done |]. cbn. exists r, node. rewrite Hhd in Hd.
    pose proof (deref_lt _ _ _ Hd) as Hlt.
    rewrite deref_cons_lt by done.
    rewrite Hins; [done |]. apply Hkeys in Hr. lia.
Qed.

End OverflowStore.

(** ** Append keeps the layout *)

Section AppendRepr.
Context {info : StorageInfo}.
Import Mem MemFacts LoadStore.

Lemma Load_i32_agree buf buf' p :
  read buf' p 4 = read buf p 4 -> Load_i32 buf' p = Load_i32 buf p.
Proof. unfold Load_i32. by intros ->. Qed.

Lemma ReadStringMarker_agree buf buf' target :
  (forall p n, target <= p -> read buf' p n = read buf p n) ->
  ReadStringMarker buf' target = ReadStringMarker buf target.
Proof.
  intros H. unfold ReadStringMarker, Load_i64, Load_i32, sizeof_block_id_t.
  rewrite !H by lia. done.
Qed.

(** The offset entry and the header written at the end of an append. *)
Lemma append_commit seg buf1 entry size' E :
  0 <= block_offset seg -> 0 <= count seg ->
  block_offset seg + 8 + 4 * count seg + 4 <= len buf1 ->
  exists buf2 buf4,
    Store_i32 entry buf1 (block_offset seg + 8 + 4 * count seg) = Some buf2 /\
    SetDictionary (set_Ptr seg buf2) {| dict_size := size'; dict_end := E |}
      = Some (set_Ptr seg buf4) /\
    len buf4 = len buf1 /\
    Load_u32 buf4 (block_offset seg) = Some (Int.u32 size') /\
    Load_u32 buf4 (block_offset seg + 4) = Some (Int.u32 E) /\
    Load_i32 buf4 (block_offset seg + 8 + 4 * count seg) = Some (Int.i32 entry) /\
    (forall p n, block_offset seg + 8 + 4 * count seg + 4 <= p ->
       read buf4 p n = read buf1 p n) /\
    (forall p n, block_offset seg + 8 <= p ->
       p + n <= block_offset seg + 8 + 4 * count seg ->
       read buf4 p n = read buf1 p n).
Proof.
  intros Hbo Hcnt Hfit.
  set (bo := block_offset seg) in *. set (epos := bo + 8 + 4 * count seg) in *.
  destruct (write_is_Some buf1 epos (Bytes.le_encode 4 entry)) as [buf2 E2];
    [lia | rewrite len_le_encode; lia |].
  pose proof (write_len _ _ _ _ E2) as L2.
  destruct (write_is_Some buf2 bo (Bytes.le_encode 4 size')) as [buf3 E3];
    [lia | rewrite len_le_encode; lia |].
  pose proof (write_len _ _ _ _ E3) as L3.
  destruct (write_is_Some buf3 (bo + 4) (Bytes.le_encode 4 E)) as [buf4 E4];
    [lia | rewrite len_le_encode; lia |].
  pose proof (write_len _ _ _ _ E4) as L4.
  exists buf2, buf4. split; [exact E2 |]. split.
  { unfold SetDictionary, Store_u32, sizeof_uint32_t.
    cbn [set_Ptr block Ptr block_offset dict_size dict_end]. fold bo.
    rewrite E3. osimpl. rewrite E4. done. }
  split; [lia |]. split.
  { rewrite (Load_u32_write_other _ _ _ _ bo E4) by lia.
    by apply (Load_u32_Store_u32 _ buf2). }
  split; [by apply (Load_u32_Store_u32 _ buf3) |]. split.
  { rewrite (Load_i32_write_other _ _ _ _ epos E4)
      by (rewrite len_le_encode; lia).
    rewrite (Load_i32_write_other _ _ _ _ epos E3)
      by (rewrite len_le_encode; lia).
    by apply (Load_i32_Store_i32 _ buf1). }
  split.
  - intros p n Hp.
    rewrite (read_write_other _ _ _ _ p n E4) by (rewrite len_le_encode; lia).
    rewrite (read_write_other _ _ _ _ p n E3) by (rewrite len_le_encode; lia).
    apply (read_write_other _ _ _ _ p n E2). rewrite len_le_encode. lia.
  - intros p n Hp1 Hp2.
    rewrite (read_write_other _ _ _ _ p n E4) by (rewrite len_le_encode; lia).
    rewrite (read_write_other _ _ _ _ p n E3) by (rewrite len_le_encode; lia).
    apply (read_write_other _ _ _ _ p n E2). lia.
Qed.

Lemma row_stored_frame seg seg' d d' E i c' w :
  block_size seg' = block_size seg -> block_offset seg' = block_offset seg ->
  base_data seg' i = base_data seg i ->
  (forall p n, block_offset seg + E - c' <= p ->
     read (Ptr (block seg')) p n = read (Ptr (block seg)) p n) ->
  (forall b o, stored seg d b o w -> stored seg' d' b o w) ->
  row_stored seg d E i c' w -> row_stored seg' d' E i c' w.
Proof.
  intros HB Hbo Hbase Hread Hst. unfold row_stored.
  rewrite HB, Hbo, Hbase.
  destruct (_ <=? _).
  - intros (Hc & b & o & Hm & Hs). split; [done |]. exists b, o.
    split; [|by apply Hst]. rewrite <- Hm. by apply ReadStringMarker_agree.
  - intros (Hc & Hr). split; [done |]. rewrite <- Hr. apply Hread. lia.
Qed.

(** The end of an append: once the payload or the marker of the new value
    is in place below the dictionary, writing its offset entry and the
    header gives a segment that holds the values and the new one. *)
Lemma append_finish E seg bm vs v seg1 bm1 buf1 entry :
  segment_repr E seg bm vs ->
  block seg1 = block seg -> block_offset seg1 = block_offset seg ->
  count seg1 = count seg -> block_size seg1 = block_size seg ->
  store_ok (segment_state seg1) bm1 ->
  (forall b o w, stored seg (disk bm) b o w -> stored seg1 (disk bm1) b o w) ->
  DICTIONARY_HEADER_SIZE + sizeof_int32_t * (count seg + 1)
    + dictionary_bytes (block_size seg) vs + required_space (block_size seg) v
    <= E ->
  len buf1 = len (Ptr (block seg)) ->
  (forall p n,
     p + n <= block_offset seg + E - dictionary_bytes (block_size seg) vs
              - required_space (block_size seg) v \/
     block_offset seg + E - dictionary_bytes (block_size seg) vs <= p ->
     read buf1 p n = read (Ptr (block seg)) p n) ->
  (if GetStringBlockLimit (block_size seg) <=? len v then
     entry = - (dictionary_bytes (block_size seg) vs
                + required_space (block_size seg) v) /\
     exists b o,
       ReadStringMarker buf1
         (block_offset seg + E
          - (dictionary_bytes (block_size seg) vs
             + required_space (block_size seg) v)) = Some (b, o) /\
       stored seg1 (disk bm1) b o v
   else
     entry = dictionary_bytes (block_size seg) vs
             + required_space (block_size seg) v /\
     read buf1
       (block_offset seg + E
        - (dictionary_bytes (block_size seg) vs
           + required_space (block_size seg) v)) (len v) = Some v) ->
  exists buf2 segF,
    Store_i32 entry buf1
      (block_offset seg + DICTIONARY_HEADER_SIZE + sizeof_int32_t * count seg)
      = Some buf2 /\
    SetDictionary (set_Ptr seg1 buf2)
      {| dict_size := dictionary_bytes (block_size seg) vs
                      + required_space (block_size seg) v;
         dict_end := E |} = Some segF /\
    segment_state segF = segment_state seg1 /\
    segment_size segF = segment_size seg1 /\
    count segF = count seg /\
    block_size segF = block_size seg /\
    block_offset segF = block_offset seg /\
    segment_repr E (set_count segF (count seg + 1)) bm1 (vs ++ [v]).
Proof.
  intros (Hcnt & Hd & Hbo & Hbound & Hlen & H31 & HB & _ & Hrows)
    Hblk Hbo1 Hcnt1 HB1 Hstore Hkeep Hfit L1 F0 Hnew.
  unfold DICTIONARY_HEADER_SIZE, sizeof_uint32_t, sizeof_int32_t in *.
  set (B := block_size seg) in *. set (bo := block_offset seg) in *.
  set (cum := dictionary_bytes B vs) in *. set (rs := required_space B v) in *.
  pose proof (dictionary_bytes_nonneg B vs) as Hcum0. fold cum in Hcum0.
  pose proof (required_space_nonneg B v) as Hrs0. fold rs in Hrs0.
  pose proof (len_nonneg vs) as Hvs0.
  change (2 ^ 31) with 2147483648 in *.
  destruct (append_commit seg1 buf1 entry (cum + rs) E)
    as (buf2 & buf4 & E2 & ESet & L4 & Hsz & Hend & Hent & F1 & F2);
    [rewrite Hbo1; fold bo; lia | lia | rewrite Hbo1, Hcnt1; fold bo; lia |].
  rewrite Hbo1, Hcnt1 in *. fold bo in E2, Hsz, Hend, Hent, F1, F2.
  exists buf2, (set_Ptr seg1 buf4).
  split; [replace (bo + (4 + 4) + 4 * count seg) with (bo + 8 + 4 * count seg)
            by lia; exact E2 |].
  split; [exact ESet |]. split; [done |]. split; [done |]. split; [done |].
  split; [done |]. split; [exact Hbo1 |].
  unfold segment_repr.
  cbn [set_count set_Ptr count block Ptr block_offset block_size segment_state].
  rewrite HB1, Hbo1. fold B bo.
  rewrite dictionary_bytes_app. cbn [dictionary_bytes]. fold cum rs.
  rewrite len_app. change (len [v]) with 1.
  replace (cum + (rs + 0)) with (cum + rs) by lia.
  unfold DICTIONARY_HEADER_SIZE, sizeof_uint32_t, sizeof_int32_t.
  change (2 ^ 31) with 2147483648.
  split; [lia |]. split.
  { rewrite <- (IntFacts.u32_small (cum + rs))
      by (change (2 ^ 32) with 4294967296; lia).
    rewrite <- (IntFacts.u32_small E) at 1
      by (change (2 ^ 32) with 4294967296; lia).
    apply GetDictionary_intro;
      cbn [set_count set_Ptr count block Ptr block_offset]; rewrite Hbo1;
      done. }
  split; [done |]. split; [lia |]. split; [lia |]. split; [lia |].
  split; [done |]. split; [done |].
  assert (Hbase_new :
    base_data (set_count (set_Ptr seg1 buf4) (count seg + 1)) (count seg)
    = Some (Int.i32 entry)).
  { unfold base_data, DICTIONARY_HEADER_SIZE, sizeof_uint32_t, sizeof_int32_t.
    cbn [set_count set_Ptr count block Ptr block_offset]. rewrite Hbo1.
    fold bo. rewrite <- Hent. f_equal. }
  intros i w [Hw | (Hge & Hw)]%lookup_app_Some.
  - (* a row that was there before *)
    pose proof (lookup_lt_Some _ _ _ Hw) as Hi.
    rewrite take_app_le by lia.
    pose proof (dictionary_bytes_take_le B vs (S i)) as Hle. fold cum in Hle.
    pose proof (dictionary_bytes_nonneg B (take (S i) vs)) as Hci.
    eapply (row_stored_frame seg); [..| exact (Hrows i w Hw)].
    + cbn. done.
    + cbn. done.
    + unfold base_data, DICTIONARY_HEADER_SIZE, sizeof_uint32_t, sizeof_int32_t.
      cbn [set_count set_Ptr count block Ptr block_offset]. rewrite Hbo1.
      fold bo. apply Load_i32_agree. unfold len in Hcnt.
      rewrite F2 by lia. apply F0. lia.
    + intros p n Hp. cbn [set_count set_Ptr count block Ptr block_offset].
      fold bo B in Hp. rewrite F1 by lia. apply F0. lia.
    + intros b o Hst.
      apply (stored_state_irrelevant seg1); [done | done |]. by apply Hkeep.
  - (* the appended row *)
    apply list_lookup_singleton_Some in Hw as [Hi0 <-].
    assert (i = length vs) as -> by lia.
    rewrite take_ge by (rewrite length_app; cbn; lia).
    rewrite dictionary_bytes_app. cbn [dictionary_bytes]. fold cum rs.
    replace (cum + (rs + 0)) with (cum + rs) by lia.
    unfold row_stored.
    cbn [set_count set_Ptr count block Ptr block_offset block_size].
    rewrite HB1, Hbo1. fold B bo.
    unfold len in Hcnt. rewrite <- Hcnt. rewrite Hbase_new.
    destruct (GetStringBlockLimit B <=? len v).
    + destruct Hnew as (-> & b & o & Hm & Hst).
      rewrite IntFacts.i32_small by (change (2 ^ 31) with 2147483648; lia).
      split; [done |]. exists b, o. split.
      * rewrite <- Hm. apply ReadStringMarker_agree.
        intros p n Hp. apply F1. lia.
      * apply (stored_state_irrelevant seg1); done.
    + destruct Hnew as (-> & Hr).
      rewrite IntFacts.i32_small by (change (2 ^ 31) with 2147483648; lia).
      split; [done |]. rewrite <- Hr. apply F1. lia.
Qed.

(** Append of one value to a segment with room for it. *)
Lemma StringAppend_repr E seg bm vs v :
  segment_repr E seg bm vs ->
  overflow_writer (segment_state seg) = None ->
  len v + 4 <= 2 ^ 31 -> temporary_id bm < 2 ^ 63 ->
  DICTIONARY_HEADER_SIZE + sizeof_int32_t * (count seg + 1)
    + dictionary_bytes (block_size seg) vs + required_space (block_size seg) v
    <= E ->
  exists seg' bm',
    StringAppend seg v bm = Some (seg', bm') /\
    segment_repr E seg' bm' (vs ++ [v]) /\
    overflow_writer (segment_state seg') = None /\
    segment_size seg' = segment_size seg /\
    block_size seg' = block_size seg /\
    block_offset seg' = block_offset seg /\
    temporary_id bm' <= temporary_id bm + 1.
Proof.
  intros Hrepr Hwriter Hv Htid Hfit.
  pose proof Hrepr as (Hcnt & Hd & Hbo & Hbound & Hlen & H31 & HB & Hstore & Hrows).
  pose proof (dictionary_bytes_nonneg (block_size seg) vs) as Hcum0.
  pose proof (required_space_nonneg (block_size seg) v) as Hrs0.
  pose proof (len_nonneg vs) as Hvs0. pose proof (len_nonneg v) as Hv0.
  unfold StringAppend. rewrite Hd. osimpl. cbn [dict_size dict_end].
  destruct (GetStringBlockLimit (block_size seg) <=? len v) eqn:Hlim.
  - (* overflow: a marker goes into the dictionary *)
    assert (Hrs : required_space (block_size seg) v = BIG_STRING_MARKER_SIZE)
      by (unfold required_space; by rewrite Hlim).
    unfold WriteString. rewrite Hwriter.
    destruct (WriteStringMemory_store seg v bm Hstore Hv HB Htid)
      as (b & o & st1 & bm1 & E1 & Hstore1 & Hdisk1 & Htid1 & Hnew & Hbr & Hor
          & Hwr1 & Hkeep).
    rewrite E1. osimpl.
    cbn [set_segment_state block block_offset count block_size].
    rewrite <- Hrs.
    rewrite (IntFacts.u32_small (dictionary_bytes (block_size seg) vs
                            + required_space (block_size seg) v)).
    2: { unfold DICTIONARY_HEADER_SIZE, sizeof_uint32_t, sizeof_int32_t in *.
         change (2 ^ 31) with 2147483648 in *.
         change (2 ^ 32) with 4294967296. lia. }
    set (target := block_offset seg + E
                   - (dictionary_bytes (block_size seg) vs
                      + required_space (block_size seg) v)).
    destruct (WriteStringMarker_is_Some (Ptr (block seg)) target b o)
      as [buf1 Ebuf1].
    { unfold target, DICTIONARY_HEADER_SIZE, sizeof_uint32_t, sizeof_int32_t in *.
      lia. }
    { unfold target. rewrite <- Hrs. lia. }
    rewrite Ebuf1. osimpl.
    pose proof (ReadStringMarker_WriteStringMarker _ _ _ _ _ Ebuf1) as Hmark.
    rewrite IntFacts.i64_small, IntFacts.i32_small in Hmark by done.
    destruct (append_finish E seg bm vs v (set_segment_state seg st1) bm1 buf1
                (- (dictionary_bytes (block_size seg) vs
                    + required_space (block_size seg) v)))
      as (buf2 & segF & E2 & ESet & HstF & HszF & HcntF & HBF & HboF & HreprF);
      [done | done | done | done | done | done | | done
      | by eapply WriteStringMarker_len | | |].
    { intros b' o' w Hst. rewrite Hdisk1. rewrite <- Hdisk1. by apply Hkeep. }
    { intros p n Hp.
      apply (read_WriteStringMarker_other _ _ _ _ _ _ _ Ebuf1).
      unfold target. rewrite <- Hrs. lia. }
    { rewrite Hlim. split; [done |]. exists b, o. done. }
    rewrite E2. osimpl. rewrite ESet. osimpl. rewrite HcntF.
    eexists _, _. split; [done |]. split; [exact HreprF |].
    cbn [set_count segment_state segment_size block_size block_offset].
    rewrite HstF, HszF, HBF, HboF. cbn.
    split; [congruence |]. split; [done |]. split; [done |].
    split; [done | lia].
  - (* inline: the bytes go into the dictionary *)
    assert (Hrs : required_space (block_size seg) v = len v)
      by (unfold required_space; by rewrite Hlim).
    rewrite <- Hrs.
    rewrite (IntFacts.u32_small (dictionary_bytes (block_size seg) vs
                            + required_space (block_size seg) v)).
    2: { unfold DICTIONARY_HEADER_SIZE, sizeof_uint32_t, sizeof_int32_t in *.
         change (2 ^ 31) with 2147483648 in *.
         change (2 ^ 32) with 4294967296. lia. }
    set (target := block_offset seg + E
                   - (dictionary_bytes (block_size seg) vs
                      + required_space (block_size seg) v)).
    destruct (write_is_Some (Ptr (block seg)) target v) as [buf1 Ebuf1].
    { unfold target, DICTIONARY_HEADER_SIZE, sizeof_uint32_t, sizeof_int32_t in *.
      lia. }
    { unfold target. rewrite <- Hrs. lia. }
    rewrite Ebuf1. osimpl.
    destruct (append_finish E seg bm vs v seg bm buf1
                (dictionary_bytes (block_size seg) vs
                 + required_space (block_size seg) v))
      as (buf2 & segF & E2 & ESet & HstF & HszF & HcntF & HBF & HboF & HreprF);
      [done | done | done | done | done | done | done | done
      | by eapply write_len | | |].
    { intros p n Hp. apply (read_write_other _ _ _ _ p n Ebuf1).
      unfold target. rewrite <- Hrs. lia. }
    { rewrite Hlim. split; [done |]. fold target.
      by apply (read_write_same (Ptr (block seg))). }
    rewrite E2. osimpl. rewrite ESet. osimpl. rewrite HcntF.
    eexists _, _. split; [done |]. split; [exact HreprF |].
    cbn [set_count segment_state segment_size block_size block_offset].
    rewrite HstF, HszF, HBF, HboF.
    split; [done |]. split; [done |]. split; [done |]. split; [done | lia].
Qed.

End AppendRepr.

(** ** Sequences of appends *)

Section AppendAll.
Context {info : StorageInfo}.
Import Mem MemFacts LoadStore.

Lemma SetDictionary_spec seg c :
  0 <= block_offset seg -> block_offset seg + 8 <= len (Ptr (block seg)) ->
  exists buf',
    SetDictionary seg c = Some (set_Ptr seg buf') /\
    len buf' = len (Ptr (block seg)) /\
    Load_u32 buf' (block_offset seg) = Some (Int.u32 (dict_size c)) /\
    Load_u32 buf' (block_offset seg + 4) = Some (Int.u32 (dict_end c)) /\
    (forall p n, block_offset seg + 8 <= p ->
       read buf' p n = read (Ptr (block seg)) p n).
Proof.
  intros Hbo Hfit. set (bo := block_offset seg) in *.
  destruct (write_is_Some (Ptr (block seg)) bo (Bytes.le_encode 4 (dict_size c)))
    as [buf3 E3]; [lia | rewrite len_le_encode; lia |].
  pose proof (write_len _ _ _ _ E3) as L3.
  destruct (write_is_Some buf3 (bo + 4) (Bytes.le_encode 4 (dict_end c)))
    as [buf4 E4]; [lia | rewrite len_le_encode; lia |].
  pose proof (write_len _ _ _ _ E4) as L4.
  exists buf4. split.
  { unfold SetDictionary, Store_u32, sizeof_uint32_t. fold bo.
    rewrite E3. osimpl. rewrite E4. done. }
  split; [lia |]. split.
  { rewrite (Load_u32_write_other _ _ _ _ bo E4) by lia.
    by apply (Load_u32_Store_u32 _ (Ptr (block seg))). }
  split; [by apply (Load_u32_Store_u32 _ buf3) |].
  intros p n Hp.
  rewrite (read_write_other _ _ _ _ p n E4) by (rewrite len_le_encode; lia).
  apply (read_write_other _ _ _ _ p n E3). rewrite len_le_encode. lia.
Qed.

Lemma RemainingSpace_repr seg bm vs :
  segment_repr (segment_size seg) seg bm vs ->
  RemainingSpace seg
  = Some (segment_size seg
          - (DICTIONARY_HEADER_SIZE + sizeof_int32_t * count seg
             + dictionary_bytes (block_size seg) vs)).
Proof.
  intros (Hcnt & Hd & Hbo & Hbound & Hlen & H31 & HB & _).
  pose proof (dictionary_bytes_nonneg (block_size seg) vs).
  pose proof (len_nonneg vs).
  unfold RemainingSpace. rewrite Hd. osimpl. cbn [dict_size].
  unfold DICTIONARY_HEADER_SIZE, sizeof_uint32_t, sizeof_int32_t in *.
  change (2 ^ 31) with 2147483648 in *.
  rewrite (IntFacts.u64_small (_ + _ + _))
    by (change (2 ^ 64) with 18446744073709551616; lia).
  rewrite IntFacts.u64_small by (change (2 ^ 64) with 18446744073709551616; lia).
  f_equal. lia.
Qed.

(** The appends of a sequence that fits all succeed, and the segment then
    holds the values in order. *)
Lemma AppendAll_repr ws : forall seg bm vs,
  segment_repr (segment_size seg) seg bm vs ->
  overflow_writer (segment_state seg) = None ->
  values_ok ws -> temporary_id bm + len ws <= 2 ^ 63 ->
  appends_fit (block_size seg)
    (segment_size seg
     - (DICTIONARY_HEADER_SIZE + sizeof_int32_t * count seg
        + dictionary_bytes (block_size seg) vs)) ws = true ->
  exists seg' bm',
    AppendAll seg ws bm = Some (seg', bm') /\
    segment_repr (segment_size seg) seg' bm' (vs ++ ws) /\
    segment_size seg' = segment_size seg /\
    block_size seg' = block_size seg /\
    block_offset seg' = block_offset seg /\
    overflow_writer (segment_state seg') = None /\
    temporary_id bm' <= temporary_id bm + len ws.
Proof.
  induction ws as [|v ws IH]; intros seg bm vs Hrepr Hwriter Hok Htid Hfit.
  - exists seg, bm. rewrite app_nil_r. change (len []) with 0.
    repeat (split; [done |]). lia.
  - apply Forall_cons in Hok as [Hv Hok].
    cbn [appends_fit] in Hfit. apply andb_true_iff in Hfit as [Hfit1 Hfit2].
    apply Z.leb_le in Hfit1.
    assert (Hlen : len (v :: ws) = len ws + 1) by (unfold len; cbn; lia).
    rewrite Hlen in Htid. pose proof (len_nonneg ws) as Hws0.
    cbn [AppendAll]. rewrite (RemainingSpace_repr seg bm vs Hrepr). osimpl.
    destruct (Z.ltb_spec
                (segment_size seg
                 - (DICTIONARY_HEADER_SIZE + sizeof_int32_t * count seg
                    + dictionary_bytes (block_size seg) vs))
                (sizeof_int32_t + required_space (block_size seg) v)); [lia |].
    destruct (StringAppend_repr (segment_size seg) seg bm vs v Hrepr Hwriter Hv)
      as (seg1 & bm1 & E1 & Hrepr1 & Hwriter1 & Hsz1 & HB1 & Hbo1 & Htid1).
    { change (2 ^ 63) with 9223372036854775808 in *. lia. }
    { unfold DICTIONARY_HEADER_SIZE, sizeof_uint32_t, sizeof_int32_t in *. lia. }
    rewrite E1. osimpl.
    pose proof Hrepr1 as (Hcnt1 & _). pose proof Hrepr as (Hcnt & _).
    rewrite len_app in Hcnt1. change (len [v]) with 1 in Hcnt1.
    rewrite <- Hsz1 in Hrepr1.
    destruct (IH seg1 bm1 (vs ++ [v]) Hrepr1 Hwriter1 Hok)
      as (seg' & bm' & E' & Hrepr' & Hsz' & HB' & Hbo' & Hwriter' & Htid');
      [lia | |].
    { rewrite Hsz1, HB1, dictionary_bytes_app. cbn [dictionary_bytes].
      rewrite Hcnt1, <- Hcnt.
      match goal with
      | H : appends_fit _ ?r1 ws = true |- appends_fit _ ?r2 ws = true =>
          replace r2 with r1; [exact H |]
      end.
      unfold DICTIONARY_HEADER_SIZE, sizeof_uint32_t, sizeof_int32_t. lia. }
    exists seg', bm'. split; [exact E' |].
    rewrite <- app_assoc in Hrepr'. cbn [app] in Hrepr'.
    rewrite Hsz1 in Hrepr'. split; [exact Hrepr' |].
    split; [congruence |]. split; [congruence |]. split; [congruence |].
    split; [done | lia].
Qed.

(** StringInitSegment on a fresh block gives an empty segment. *)
Lemma StringInitSegment_repr seg0 bm :
  count seg0 = 0 -> 0 <= block_offset seg0 ->
  DICTIONARY_HEADER_SIZE <= segment_size seg0 ->
  block_offset seg0 + segment_size seg0 <= len (Ptr (block seg0)) ->
  len (Ptr (block seg0)) < 2 ^ 31 ->
  0 <= block_size seg0 <= 2 ^ 31 ->
  - 2 ^ 63 <= MAXIMUM_BLOCK -> MAXIMUM_BLOCK <= temporary_id bm ->
  exists seg1 st,
    StringInitSegment seg0 INVALID_BLOCK None = Some (seg1, st) /\
    segment_repr (segment_size seg0) (set_segment_state seg1 st) bm [] /\
    overflow_writer st = None /\
    segment_size seg1 = segment_size seg0 /\
    block_size seg1 = block_size seg0.
Proof.
  intros Hcnt Hbo HS Hlen H31 HB Hmin Hmax.
  unfold DICTIONARY_HEADER_SIZE, sizeof_uint32_t in *.
  change (2 ^ 31) with 2147483648 in *.
  destruct (SetDictionary_spec seg0
              {| dict_size := 0; dict_end := Int.u32 (segment_size seg0) |})
    as (buf' & ESet & L & Hsz & Hend & _); [done | lia |].
  cbn [dict_size dict_end] in Hsz, Hend.
  rewrite (IntFacts.u32_small (segment_size seg0)) in Hend, ESet
    by (change (2 ^ 32) with 4294967296; lia).
  rewrite (IntFacts.u32_small (segment_size seg0)) in Hend
    by (change (2 ^ 32) with 4294967296; lia).
  change (Int.u32 0) with 0 in Hsz.
  eexists _, _. split.
  { unfold StringInitSegment. rewrite Z.eqb_refl.
    rewrite (IntFacts.u32_small (segment_size seg0))
      by (change (2 ^ 32) with 4294967296; lia).
    rewrite ESet. osimpl. reflexivity. }
  split; [|done].
  unfold segment_repr.
  cbn [set_segment_state set_Ptr count block Ptr block_offset block_size
       segment_state dictionary_bytes].
  split; [done |]. split.
  { apply GetDictionary_intro; cbn; done. }
  split; [done |].
  unfold DICTIONARY_HEADER_SIZE, sizeof_uint32_t, sizeof_int32_t.
  change (2 ^ 31) with 2147483648.
  split; [lia |]. split; [lia |]. split; [lia |]. split; [done |]. split.
  { split; [by constructor |]. split; [|split; [|done]].
    - intros r node Hd. unfold deref in Hd. cbn in Hd. done.
    - intros b r Hb. cbn in Hb. by rewrite lookup_empty in Hb. }
  intros i v Hv. done.
Qed.

End AppendAll.

(** ** Round trip of appends and scan *)

Section RoundTrip.
Context {info : StorageInfo}.
Import Mem MemFacts LoadStore.

(** The segment built by StringInitSegment and the appends of a sequence
    that fits holds the sequence. *)
Lemma init_append_repr seg0 bm values :
  fresh_segment seg0 bm -> values_ok values ->
  temporary_id bm + len values <= 2 ^ 63 ->
  appends_fit (block_size seg0) (segment_size seg0 - DICTIONARY_HEADER_SIZE)
    values = true ->
  exists seg1 st seg bm',
    StringInitSegment seg0 INVALID_BLOCK None = Some (seg1, st) /\
    AppendAll (set_segment_state seg1 st) values bm = Some (seg, bm') /\
    segment_repr (segment_size seg0) seg bm' values /\
    segment_size seg = segment_size seg0 /\
    block_size seg = block_size seg0 /\
    block_offset seg = block_offset seg0 /\
    overflow_writer (segment_state seg) = None /\
    temporary_id bm' <= temporary_id bm + len values.
Proof.
  intros (Hcnt & Hbo & HS & Hlen & H31 & HB & Hmin & Hmax) Hok Htid Hfit.
  destruct (StringInitSegment_repr seg0 bm Hcnt Hbo HS Hlen H31 HB Hmin Hmax)
    as (seg1 & st & Einit & Hrepr & Hwriter & Hsz1 & HB1).
  assert (Hbo1 : block_offset seg1 = block_offset seg0).
  { unfold StringInitSegment in Einit. rewrite Z.eqb_refl in Einit.
    unfold SetDictionary in Einit.
    destruct (Store_u32 _ _ _) as [b1|]; [|done]. osimpl in Einit.
    destruct (Store_u32 _ _ _) as [b2|]; [|done]. osimpl in Einit.
    injection Einit as <- _. done. }
  set (seg2 := set_segment_state seg1 st) in *.
  assert (Hsz2 : segment_size seg2 = segment_size seg0) by done.
  assert (HB2 : block_size seg2 = block_size seg0) by done.
  rewrite <- Hsz2 in Hrepr.
  destruct (AppendAll_repr values seg2 bm [] Hrepr Hwriter Hok Htid)
    as (seg & bm' & Eapp & Hrepr' & Hsz' & HB' & Hbo' & Hwriter' & Htid').
  { pose proof Hrepr as (Hc & _). rewrite Hc, Hsz2, HB2.
    cbn [dictionary_bytes]. change (len []) with 0.
    match goal with
    | |- appends_fit _ ?r2 _ = true =>
        replace r2 with (segment_size seg0 - DICTIONARY_HEADER_SIZE)
          by (unfold sizeof_int32_t; lia)
    end. done. }
  exists seg1, st, seg, bm'. rewrite Hsz2 in Hrepr'. cbn [app] in Hrepr'.
  split; [exact Einit |]. split; [exact Eapp |]. split; [exact Hrepr' |].
  split; [congruence |]. split; [congruence |].
  split; [rewrite Hbo'; exact Hbo1 |]. done.
Qed.

(** C1. Start a segment on a fresh block with StringInitSegment and append
    any sequence of values of which no append exceeds the remaining
    capacity (offset entry plus payload, the marker for an overflow value):
    every step succeeds, and Scan(0, n) of the resulting segment puts
    exactly the appended values, in order, into the first n slots of the
    result vector. *)
Theorem append_scan_roundtrip seg0 bm values result :
  fresh_segment seg0 bm -> values_ok values ->
  temporary_id bm + len values <= 2 ^ 63 ->
  appends_fit (block_size seg0) (segment_size seg0 - DICTIONARY_HEADER_SIZE)
    values = true ->
  (length values <= length (data result))%nat ->
  exists seg1 st seg bm' r' bm'',
    StringInitSegment seg0 INVALID_BLOCK None = Some (seg1, st) /\
    AppendAll (set_segment_state seg1 st) values bm = Some (seg, bm') /\
    StringScan seg 0 (length values) result bm' = Some (r', bm'') /\
    take (length values) (data r') = values.
Proof.
  intros Hfresh Hok Htid Hfit Hres.
  destruct (init_append_repr seg0 bm values Hfresh Hok Htid Hfit)
    as (seg1 & st & seg & bm' & Einit & Eapp & Hrepr & _).
  destruct (StringScan_repr _ seg bm' values result Hrepr Hok Hres)
    as (r' & bm'' & Escan & Hdata & _).
  exists seg1, st, seg, bm', r', bm''.
  split; [exact Einit |]. split; [exact Eapp |]. split; [exact Escan |].
  rewrite Hdata. by rewrite take_app_length.
Qed.

End RoundTrip.

Section RoundTripExamples.
Import Mem Examples.
#[local] Existing Instance example_info.

Lemma fresh_blank_segment B :
  8 <= B < 2 ^ 31 -> fresh_segment (blank_segment B) example_storage.
Proof.
  intros HB. change (2 ^ 31) with 2147483648 in HB.
  unfold fresh_segment, blank_segment, DICTIONARY_HEADER_SIZE, sizeof_uint32_t.
  cbn [count block_offset segment_size block_size block Ptr].
  rewrite MemFacts.len_replicate by lia.
  change (2 ^ 31) with 2147483648. cbn. lia.
Qed.

(** The scenario of the spec: "a", "bb", "ccc" in a block of 256 bytes. *)
Lemma append_scan_roundtrip_witness :
  exists r' bm'',
    StringScan abc_segment 0 3 (blank_vector 3) example_storage = Some (r', bm'') /\
    data r' = [str_a; str_bb; str_ccc] /\
    base_data abc_segment 0 = Some 1 /\ base_data abc_segment 1 = Some 3 /\
    base_data abc_segment 2 = Some 6 /\
    GetDictionary abc_segment = Some {| dict_size := 6; dict_end := 256 |}.
Proof.
  destruct (append_scan_roundtrip (blank_segment 256) example_storage
              [str_a; str_bb; str_ccc] (blank_vector 3))
    as (seg1 & st & seg & bm' & r' & bm'' & Einit & Eapp & Escan & Hdata).
  - apply fresh_blank_segment. vm_compute. split; congruence.
  - repeat constructor; vm_compute; congruence.
  - vm_compute. congruence.
  - vm_compute. reflexivity.
  - vm_compute. lia.
  - vm_compute in Einit. injection Einit as <- <-.
    vm_compute in Eapp. injection Eapp as <- <-.
    exists r', bm''. split; [exact Escan |]. split.
    + vm_compute in Escan. injection Escan as <- _. reflexivity.
    + vm_compute. repeat split; reflexivity.
Defined.

End RoundTripExamples.

(** ** Compaction *)

Section Compaction.
Context {info : StorageInfo}.
Import Mem MemFacts LoadStore.

(** FinalizeAppend below the flush limit slides the dictionary next to the
    offsets; the segment holds the same values, with the dictionary now
    ending at the total size. *)
Lemma FinalizeAppend_repr seg bm vs :
  segment_repr (segment_size seg) seg bm vs -> block_offset seg = 0 ->
  DICTIONARY_HEADER_SIZE + count seg * sizeof_int32_t
    + dictionary_bytes (block_size seg) vs
    < GetCompactionFlushLimit (block_size seg) ->
  exists seg',
    FinalizeAppend seg
      = Some (DICTIONARY_HEADER_SIZE + count seg * sizeof_int32_t
              + dictionary_bytes (block_size seg) vs, seg') /\
    segment_repr
      (DICTIONARY_HEADER_SIZE + count seg * sizeof_int32_t
       + dictionary_bytes (block_size seg) vs) seg' bm vs /\
    count seg' = count seg.
Proof.
  intros (Hcnt & Hd & _ & Hbound & Hlen & H31 & HB & Hstore & Hrows) Hbo Hlim.
  unfold DICTIONARY_HEADER_SIZE, sizeof_uint32_t, sizeof_int32_t in *.
  rewrite Hbo in *.
  set (B := block_size seg) in *. set (Sz := segment_size seg) in *.
  set (cum := dictionary_bytes B vs) in *.
  pose proof (dictionary_bytes_nonneg B vs) as Hcum0. fold cum in Hcum0.
  pose proof (len_nonneg vs) as Hvs0.
  change (2 ^ 31) with 2147483648 in *.
  set (osz := 4 + 4 + count seg * 4) in *.
  assert (Hosz : 8 <= osz) by (unfold osz; lia).
  (* the memmove *)
  destruct (read_is_Some (Ptr (block seg)) (Sz - cum) cum) as [moved Emoved];
    [lia | lia | lia |].
  pose proof (read_len _ _ _ _ Emoved) as Lmoved.
  destruct (write_is_Some (Ptr (block seg)) osz moved) as [buf1 Ebuf1];
    [lia | lia |].
  pose proof (write_len _ _ _ _ Ebuf1) as L1.
  (* the header *)
  destruct (SetDictionary_spec (set_Ptr seg buf1)
              {| dict_size := cum; dict_end := osz + cum |})
    as (buf2 & ESet & L2 & Hsz & Hend & F2).
  { cbn. lia. } { cbn. lia. }
  cbn [set_Ptr block Ptr block_offset dict_size dict_end] in ESet, L2, Hsz, Hend, F2.
  rewrite Hbo in Hsz, Hend, F2.
  rewrite IntFacts.u32_small in Hsz by (change (2 ^ 32) with 4294967296; lia).
  rewrite IntFacts.u32_small in Hend by (change (2 ^ 32) with 4294967296; lia).
  exists (set_Ptr seg buf2). split.
  { unfold FinalizeAppend. rewrite Hd. osimpl. cbn [dict_size dict_end].
    unfold DICTIONARY_HEADER_SIZE, sizeof_uint32_t, sizeof_int32_t.
    fold osz cum B Sz.
    rewrite (IntFacts.u64_small osz)
      by (change (2 ^ 64) with 18446744073709551616; lia).
    rewrite (IntFacts.u64_small (osz + cum))
      by (change (2 ^ 64) with 18446744073709551616; lia).
    destruct (Z.leb_spec (GetCompactionFlushLimit B) (osz + cum)); [lia |].
    rewrite Emoved. osimpl. rewrite Ebuf1. osimpl.
    rewrite (IntFacts.u64_small (Sz - (osz + cum)))
      by (change (2 ^ 64) with 18446744073709551616; lia).
    replace (Sz - (Sz - (osz + cum))) with (osz + cum) by lia.
    rewrite (IntFacts.u32_small (osz + cum))
      by (change (2 ^ 32) with 4294967296; lia).
    rewrite ESet. done. }
  split; [|done].
  (* the moved dictionary reads as the old one *)
  assert (Hmoved : forall x n, 0 <= x -> 0 <= n -> x + n <= cum ->
            read buf2 (osz + x) n = read (Ptr (block seg)) (Sz - cum + x) n).
  { intros x n Hx Hn Hxn. rewrite F2 by lia.
    rewrite (read_write_inside _ _ _ _ (osz + x) n Ebuf1) by lia.
    replace (osz + x - osz) with x by lia.
    apply (read_read _ _ _ _ x n Emoved); lia. }
  assert (Hbase : forall i, 0 <= i < count seg ->
            base_data (set_Ptr seg buf2) i = base_data seg i).
  { intros i Hi. unfold base_data, DICTIONARY_HEADER_SIZE, sizeof_uint32_t,
      sizeof_int32_t. cbn [set_Ptr block Ptr block_offset]. rewrite Hbo.
    apply Load_i32_agree. rewrite F2 by lia.
    apply (read_write_other _ _ _ _ _ _ Ebuf1). unfold osz. lia. }
  unfold segment_repr.
  cbn [set_Ptr count block Ptr block_offset block_size segment_state].
  rewrite Hbo. fold B cum.
  unfold DICTIONARY_HEADER_SIZE, sizeof_uint32_t, sizeof_int32_t.
  change (2 ^ 31) with 2147483648. fold osz.
  split; [done |]. split.
  { apply GetDictionary_intro; cbn [set_Ptr block Ptr block_offset];
      rewrite Hbo; done. }
  split; [lia |]. split; [unfold osz; lia |]. split; [lia |]. split; [lia |].
  split; [done |]. split; [done |].
  intros i w Hw. pose proof (Hrows i w Hw) as Hrow.
  pose proof (lookup_lt_Some _ _ _ Hw) as Hi.
  pose proof (dictionary_bytes_take_S B vs i w Hw) as Hc.
  pose proof (dictionary_bytes_take_le B vs (S i)) as Hle. fold cum in Hle.
  pose proof (dictionary_bytes_nonneg B (take i vs)) as Hc0.
  pose proof (len_nonneg w) as Hw0.
  unfold row_stored in *.
  cbn [set_Ptr count block Ptr block_offset block_size segment_state].
  rewrite Hbo in *. fold B in Hrow |- *.
  rewrite Hbase by (unfold len in Hcnt; lia).
  unfold required_space in Hc.
  set (c' := dictionary_bytes B (take (S i) vs)) in *.
  destruct (GetStringBlockLimit B <=? len w).
  - destruct Hrow as (Hcur & b & o & Hm & Hst). split; [done |].
    exists b, o. split; [|exact Hst].
    rewrite <- Hm. unfold ReadStringMarker, Load_i64, Load_i32, sizeof_block_id_t.
    unfold BIG_STRING_MARKER_SIZE, sizeof_block_id_t, sizeof_int32_t in Hc.
    replace (0 + (osz + cum) - c') with (osz + (cum - c')) by lia.
    replace (osz + (cum - c') + 8) with (osz + (cum - c' + 8)) by lia.
    rewrite !Hmoved by lia.
    replace (Sz - cum + (cum - c')) with (0 + Sz - c') by lia.
    replace (Sz - cum + (cum - c' + 8)) with (0 + Sz - c' + 8) by lia. done.
  - destruct Hrow as (Hcur & Hr). split; [done |].
    rewrite <- Hr.
    replace (0 + (osz + cum) - c') with (osz + (cum - c')) by lia.
    rewrite Hmoved by lia. f_equal. lia.
Qed.

(** C8. Start a segment on a fresh block at offset 0, append a sequence of
    values that fits, and call FinalizeAppend while the required size is
    below the compaction flush limit: it compacts, returns the required
    size, the stored header then has end = HeaderSize + count*4 +
    dictionary.size, and Scan(0, n) of the compacted segment still gives
    exactly the appended values. *)
Theorem FinalizeAppend_compacts seg0 bm values result :
  fresh_segment seg0 bm -> block_offset seg0 = 0 -> values_ok values ->
  temporary_id bm + len values <= 2 ^ 63 ->
  appends_fit (block_size seg0) (segment_size seg0 - DICTIONARY_HEADER_SIZE)
    values = true ->
  DICTIONARY_HEADER_SIZE + len values * sizeof_int32_t
    + dictionary_bytes (block_size seg0) values
    < GetCompactionFlushLimit (block_size seg0) ->
  (length values <= length (data result))%nat ->
  exists seg1 st seg bm' seg' dict r' bm'',
    StringInitSegment seg0 INVALID_BLOCK None = Some (seg1, st) /\
    AppendAll (set_segment_state seg1 st) values bm = Some (seg, bm') /\
    FinalizeAppend seg
      = Some (DICTIONARY_HEADER_SIZE + count seg * sizeof_int32_t
              + dict_size dict, seg') /\
    GetDictionary seg' = Some dict /\
    dict_end dict
      = DICTIONARY_HEADER_SIZE + count seg' * sizeof_int32_t + dict_size dict /\
    StringScan seg' 0 (length values) result bm' = Some (r', bm'') /\
    take (length values) (data r') = values.
Proof.
  intros Hfresh Hbo Hok Htid Hfit Hlim Hres.
  destruct (init_append_repr seg0 bm values Hfresh Hok Htid Hfit)
    as (seg1 & st & seg & bm' & Einit & Eapp & Hrepr & Hsz & HB & Hbo1 & _).
  pose proof Hrepr as (Hcnt & _).
  rewrite <- Hsz in Hrepr.
  assert (Hbo' : block_offset seg = 0) by congruence.
  destruct (FinalizeAppend_repr seg bm' values Hrepr Hbo')
    as (seg' & Efin & Hrepr' & Hcnt').
  { rewrite Hcnt, HB. done. }
  destruct (StringScan_repr _ seg' bm' values result Hrepr' Hok Hres)
    as (r' & bm'' & Escan & Hdata & _).
  pose proof Hrepr' as (_ & Hd' & _).
  assert (HB' : block_size seg' = block_size seg).
  { unfold FinalizeAppend in Efin.
    destruct (GetDictionary seg) as [d|]; [|done]. osimpl in Efin.
    destruct (_ <=? _); [by injection Efin as _ <- |].
    destruct (read _ _ _); [|done]. osimpl in Efin.
    destruct (write _ _ _); [|done]. osimpl in Efin.
    unfold SetDictionary in Efin.
    destruct (Store_u32 _ _ _); [|done]. osimpl in Efin.
    destruct (Store_u32 _ _ _); [|done]. osimpl in Efin.
    by injection Efin as _ <-. }
  rewrite HB' in Hd'.
  exists seg1, st, seg, bm', seg',
    {| dict_size := dictionary_bytes (block_size seg) values;
       dict_end := DICTIONARY_HEADER_SIZE + count seg * sizeof_int32_t
                   + dictionary_bytes (block_size seg) values |},
    r', bm''.
  split; [exact Einit |]. split; [exact Eapp |].
  split; [exact Efin |]. split; [exact Hd' |].
  split; [cbn; rewrite Hcnt'; done |].
  split; [exact Escan |]. rewrite Hdata. by rewrite take_app_length.
Qed.

End Compaction.

(** ** Overflow values *)

Section OverflowValues.
Context {info : StorageInfo}.
Import Mem MemFacts LoadStore.

(** C2. (1) On a segment started on a fresh block and filled by appends,
    appending a value whose length reaches the overflow threshold, with
    room for its offset entry and marker, records a negative offset entry
    whose magnitude grows by the marker size, and ReadOverflowString on the
    marker read at that entry returns the value unchanged. (2) On the
    durable path, for a value stored as a 32-bit length followed by a chain
    of any number of blocks, each ending in the id of the next one,
    ReadOverflowString follows the chain from block to block, restarting at
    offset 0, and returns the value unchanged. *)
Theorem overflow_value_roundtrip :
  (forall seg0 bm values v result,
     fresh_segment seg0 bm -> values_ok values ->
     temporary_id bm + len values < 2 ^ 63 ->
     appends_fit (block_size seg0) (segment_size seg0 - DICTIONARY_HEADER_SIZE)
       values = true ->
     GetStringBlockLimit (block_size seg0) <= len v -> len v + 4 <= 2 ^ 31 ->
     DICTIONARY_HEADER_SIZE + sizeof_int32_t * (len values + 1)
       + dictionary_bytes (block_size seg0) values + BIG_STRING_MARKER_SIZE
       <= segment_size seg0 ->
     exists seg1 st seg bm1 seg' bm' entry b o r' bm'',
       StringInitSegment seg0 INVALID_BLOCK None = Some (seg1, st) /\
       AppendAll (set_segment_state seg1 st) values bm = Some (seg, bm1) /\
       StringAppend seg v bm1 = Some (seg', bm') /\
       base_data seg' (count seg) = Some entry /\ entry < 0 /\
       Z.abs entry
         = dictionary_bytes (block_size seg0) values + BIG_STRING_MARKER_SIZE /\
       ReadStringMarker (Ptr (block seg'))
         (block_offset seg' + segment_size seg0 - Z.abs entry) = Some (b, o) /\
       ReadOverflowString seg' result b o bm' = Some (v, r', bm'')) /\
  (forall seg result bm block_id offset handle v,
     block_id < MAXIMUM_BLOCK -> Pin bm block_id = Some handle ->
     Load_u32 handle offset = Some (len v) ->
     0 <= offset -> offset + 4 < 2 ^ 31 ->
     sizeof_block_id_t < block_size seg <= 2 ^ 31 -> len v + 4 <= 2 ^ 31 ->
     durable_chain (block_size seg) (disk bm) handle (offset + 4) v ->
     exists r' bm',
       ReadOverflowString seg result block_id offset bm = Some (v, r', bm')).
Proof.
  split.
  - intros seg0 bm values v result Hfresh Hok Htid Hfit Hlim Hv Hroom.
    pose proof (len_nonneg values) as Hvs0.
    pose proof (dictionary_bytes_nonneg (block_size seg0) values) as Hcum0.
    destruct (init_append_repr seg0 bm values Hfresh Hok ltac:(lia) Hfit)
      as (seg1 & st & seg & bm1 & Einit & Eapp & Hrepr & Hsz & HB & Hbo
          & Hwriter & Htid1).
    pose proof Hrepr as (Hcnt & _).
    assert (Hrs : required_space (block_size seg) v = BIG_STRING_MARKER_SIZE).
    { unfold required_space. rewrite HB.
      destruct (Z.leb_spec (GetStringBlockLimit (block_size seg0)) (len v));
        [done | lia]. }
    destruct (StringAppend_repr (segment_size seg0) seg bm1 values v Hrepr
                Hwriter Hv)
      as (seg' & bm' & Eappend & Hrepr' & _ & _ & HB' & Hbo' & _);
      [change (2 ^ 63) with 9223372036854775808 in *; lia
      | rewrite Hrs, Hcnt, HB; lia |].
    pose proof Hrepr' as (_ & _ & _ & _ & _ & _ & HBr & _ & Hrows).
    specialize (Hrows (length values) v).
    rewrite lookup_app_r, Nat.sub_diag in Hrows by lia.
    specialize (Hrows eq_refl).
    rewrite take_ge in Hrows by (rewrite length_app; cbn; lia).
    rewrite dictionary_bytes_app in Hrows. cbn [dictionary_bytes] in Hrows.
    rewrite HB', Hrs, HB in Hrows. unfold row_stored in Hrows.
    rewrite HB', HB in Hrows.
    destruct (Z.leb_spec (GetStringBlockLimit (block_size seg0)) (len v));
      [|lia].
    destruct Hrows as (Hentry & b & o & Hm & Hst).
    unfold BIG_STRING_MARKER_SIZE, sizeof_block_id_t, sizeof_int32_t in *.
    destruct (ReadOverflowString_stored seg' result b o bm' v Hst Hv
                ltac:(lia)) as (r' & bm'' & Eread).
    exists seg1, st, seg, bm1, seg', bm',
      (- (dictionary_bytes (block_size seg0) values + (8 + 4 + 0))),
      b, o, r', bm''.
    split; [exact Einit |]. split; [exact Eapp |]. split; [exact Eappend |].
    split; [rewrite Hcnt; exact Hentry |]. split; [lia |].
    split; [lia |]. split; [|exact Eread].
    rewrite <- Hm. f_equal. lia.
  - intros seg result bm block_id offset handle v Hb Hpin Hlen Ho Ho31 HB Hv
      Hchain.
    apply ReadOverflowString_stored; [|done | lia].
    right. split; [done |]. exists handle. unfold Pin in Hpin.
    repeat split; try done; lia.
Qed.

End OverflowValues.

Section OverflowExamples.
Import Mem Examples.
#[local] Existing Instance example_info.

(** The 100-byte value of [durable_storage]: its length is at offset 24 of
    block 0, and its bytes fill the rest of block 0, all of block 1 and the
    start of block 2. *)
Lemma overflow_value_roundtrip_witness :
  exists r' bm',
    ReadOverflowString durable_segment (blank_vector 1) 0 24 durable_storage
      = Some (str_z 100, r', bm').
Proof.
  destruct overflow_value_roundtrip as [_ Hdurable].
  destruct (disk durable_storage !! 0) as [handle0|] eqn:E0;
    [|vm_compute in E0; congruence].
  destruct (disk durable_storage !! 1) as [handle1|] eqn:E1;
    [|vm_compute in E1; congruence].
  destruct (disk durable_storage !! 2) as [handle2|] eqn:E2;
    [|vm_compute in E2; congruence].
  apply (Hdurable durable_segment (blank_vector 1) durable_storage 0 24
           handle0 (str_z 100)).
  - vm_compute. reflexivity.
  - exact E0.
  - vm_compute in E0. injection E0 as <-. vm_compute. reflexivity.
  - lia.
  - vm_compute. reflexivity.
  - vm_compute. split; congruence.
  - vm_compute. congruence.
  - change (str_z 100) with (str_z 28 ++ (str_z 56 ++ str_z 16)).
    vm_compute in E0, E1, E2.
    injection E0 as <-. injection E1 as <-. injection E2 as <-.
    eapply (chain_link _ _ _ _ (str_z 28) _ 1).
    + vm_compute. congruence.
    + vm_compute. reflexivity.
    + discriminate.
    + vm_compute. reflexivity.
    + vm_compute. reflexivity.
    + vm_compute. reflexivity.
    + eapply (chain_link _ _ _ _ (str_z 56) _ 2).
      * lia.
      * vm_compute. reflexivity.
      * discriminate.
      * vm_compute. reflexivity.
      * vm_compute. reflexivity.
      * vm_compute. reflexivity.
      * apply chain_last.
        -- lia.
        -- vm_compute. congruence.
        -- vm_compute. reflexivity.
Defined.

Lemma ReadOverflowString_allocation_witness :
  exists s result' bm',
    ReadOverflowString durable_segment (blank_vector 1) 0 24 durable_storage
      = Some (s, result', bm') /\
    handles result'
      = [{| BlockId := temporary_id durable_storage; Ptr := s |}] /\
    len s = 100 /\ string_heap result' = [].
Proof.
  destruct (ReadOverflowString durable_segment (blank_vector 1) 0 24
              durable_storage) as [[[s result'] bm']|] eqn:E;
    [|vm_compute in E; congruence].
  destruct (Pin durable_storage 0) as [handle|] eqn:Epin;
    [|vm_compute in Epin; congruence].
  destruct (ReadOverflowString_allocation durable_segment (blank_vector 1) 0 24
              durable_storage handle 100 s result' bm') as [H _].
  - vm_compute. reflexivity.
  - exact Epin.
  - vm_compute in Epin. injection Epin as <-. vm_compute. reflexivity.
  - exact E.
  - change (block_size durable_segment <=? 100) with true in H.
    destruct H as (Hh & Hl & Hheap & _).
    exists s, result', bm'. split; [reflexivity |].
    split; [exact Hh |]. split; [exact Hl | exact Hheap].
Defined.

Lemma FinalizeAppend_dense_witness :
  FinalizeAppend dense_segment = Some (32, dense_segment) /\
  GetDictionary dense_segment = Some {| dict_size := 6; dict_end := 32 |}.
Proof.
  apply (FinalizeAppend_dense dense_segment {| dict_size := 6; dict_end := 32 |}).
  - vm_compute. reflexivity.
  - vm_compute. split; congruence.
  - vm_compute. congruence.
Defined.

Lemma FinalizeAppend_compacts_witness :
  exists seg' r' bm'',
    FinalizeAppend abc_segment = Some (26, seg') /\
    GetDictionary seg' = Some {| dict_size := 6; dict_end := 26 |} /\
    StringScan seg' 0 3 (blank_vector 3) example_storage = Some (r', bm'') /\
    take 3 (data r') = [str_a; str_bb; str_ccc].
Proof.
  destruct (FinalizeAppend_compacts (blank_segment 256) example_storage
              [str_a; str_bb; str_ccc] (blank_vector 3))
    as (seg1 & st & seg & bm' & seg' & dict & r' & bm'' & Einit & Eapp & Efin
        & Hdict & Hend & Escan & Hdata).
  - apply fresh_blank_segment. vm_compute. split; congruence.
  - reflexivity.
  - repeat constructor; vm_compute; congruence.
  - vm_compute. congruence.
  - vm_compute. reflexivity.
  - vm_compute. reflexivity.
  - vm_compute. lia.
  - vm_compute in Einit. injection Einit as <- <-.
    vm_compute in Eapp. injection Eapp as <- <-.
    destruct (FinalizeAppend abc_segment) as [[n s]|] eqn:Ef;
      [|vm_compute in Ef; congruence].
    assert (Hs : Some (n, s)
                 = Some (DICTIONARY_HEADER_SIZE + 3 * sizeof_int32_t
                         + dict_size dict, seg'))
      by (rewrite <- Ef; exact Efin).
    injection Hs as _ <-.
    vm_compute in Ef. injection Ef as <- <-.
    eexists _, r', bm''. split; [reflexivity |].
    split; [vm_compute; reflexivity |]. split; [exact Escan | exact Hdata].
Defined.

End OverflowExamples.

(** * Further properties *)

(** ** The dictionary header and StringInitSegment *)

Section DictionaryHeader.
Context {info : StorageInfo}.
Import Mem MemFacts LoadStore.

Lemma SetDictionary_Some seg c seg' :
  SetDictionary seg c = Some seg' ->
  0 <= block_offset seg /\ block_offset seg + 8 <= len (Ptr (block seg)) /\
  exists buf1 buf2,
    write (Ptr (block seg)) (block_offset seg) (Bytes.le_encode 4 (dict_size c))
      = Some buf1 /\
    write buf1 (block_offset seg + 4) (Bytes.le_encode 4 (dict_end c))
      = Some buf2 /\
    seg' = set_Ptr seg buf2.
Proof.
  unfold SetDictionary, Store_u32, sizeof_uint32_t. intros H.
  destruct (write (Ptr (block seg)) _ _) as [buf1|] eqn:E1; [|done].
  osimpl in H.
  destruct (write buf1 _ _) as [buf2|] eqn:E2; [|done]. osimpl in H.
  injection H as <-.
  pose proof (proj1 (write_Some _ _ _ _) E1) as (H0 & H1 & _).
  pose proof (proj1 (write_Some _ _ _ _) E2) as (H2 & H3 & _).
  pose proof (write_len _ _ _ _ E1) as L1.
  rewrite len_le_encode in *. split; [lia |]. split; [lia |]. eauto.
Qed.

(** X1. *)
Theorem SetDictionary_GetDictionary seg c seg' :
  SetDictionary seg c = Some seg' ->
  GetDictionary seg'
    = Some {| dict_size := Int.u32 (dict_size c);
              dict_end := Int.u32 (dict_end c) |} /\
  GetDictionaryEnd seg' = Some (Int.u32 (dict_end c)) /\
  (0 <= dict_size c < 2 ^ 32 -> 0 <= dict_end c < 2 ^ 32 ->
   GetDictionary seg' = Some c).
Proof.
  intros H.
  destruct (SetDictionary_Some _ _ _ H) as (H0 & H1 & buf1 & buf2 & E1 & E2 & ->).
  assert (Hs : Load_u32 buf2 (block_offset seg) = Some (Int.u32 (dict_size c))).
  { rewrite (Load_u32_write_other _ _ _ _ _ E2) by lia.
    by apply (Load_u32_Store_u32 _ (Ptr (block seg))). }
  assert (He : Load_u32 buf2 (block_offset seg + 4)
               = Some (Int.u32 (dict_end c)))
    by by apply (Load_u32_Store_u32 _ buf1).
  assert (Hg : GetDictionary (set_Ptr seg buf2)
               = Some {| dict_size := Int.u32 (dict_size c);
                         dict_end := Int.u32 (dict_end c) |})
    by by apply GetDictionary_intro.
  split; [exact Hg |]. split.
  - by apply (GetDictionaryEnd_GetDictionary _ _ Hg).
  - intros Hsz Hend. rewrite Hg, !IntFacts.u32_small by done. by destruct c.
Qed.

(** X2. *)
Theorem SetDictionary_frame seg c seg' :
  SetDictionary seg c = Some seg' ->
  len (Ptr (block seg')) = len (Ptr (block seg)) /\
  (forall p n,
     p + n <= block_offset seg \/
     block_offset seg + DICTIONARY_HEADER_SIZE <= p ->
     read (Ptr (block seg')) p n = read (Ptr (block seg)) p n) /\
  (forall i, 0 <= i -> base_data seg' i = base_data seg i) /\
  seg' = set_Ptr seg (Ptr (block seg')).
Proof.
  intros H.
  destruct (SetDictionary_Some _ _ _ H) as (H0 & H1 & buf1 & buf2 & E1 & E2 & ->).
  cbn [set_Ptr block Ptr].
  assert (Hread : forall p n,
            p + n <= block_offset seg \/ block_offset seg + 8 <= p ->
            read buf2 p n = read (Ptr (block seg)) p n).
  { intros p n Hp.
    rewrite (read_write_other _ _ _ _ _ _ E2)
      by (rewrite len_le_encode; lia).
    apply (read_write_other _ _ _ _ _ _ E1). rewrite len_le_encode. lia. }
  split; [|split; [exact Hread | split; [|done]]].
  - rewrite (write_len _ _ _ _ E2). apply (write_len _ _ _ _ E1).
  - intros i Hi. unfold base_data, Load_i32. cbn [set_Ptr block Ptr block_offset].
    rewrite Hread; [done |].
    unfold DICTIONARY_HEADER_SIZE, sizeof_uint32_t, sizeof_int32_t. lia.
Qed.

(** X3. *)
Theorem StringInitSegment_new_block seg state :
  0 <= block_offset seg ->
  block_offset seg + DICTIONARY_HEADER_SIZE <= len (Ptr (block seg)) ->
  0 <= count seg ->
  DICTIONARY_HEADER_SIZE + sizeof_int32_t * count seg <= segment_size seg ->
  segment_size seg < 2 ^ 32 ->
  exists seg' st,
    StringInitSegment seg INVALID_BLOCK state = Some (seg', st) /\
    GetDictionary seg'
      = Some {| dict_size := 0; dict_end := segment_size seg |} /\
    RemainingSpace seg'
      = Some (segment_size seg
              - (DICTIONARY_HEADER_SIZE + sizeof_int32_t * count seg)) /\
    (forall i, 0 <= i -> base_data seg' i = base_data seg i) /\
    head st = [] /\ overflow_blocks st = ∅ /\ overflow_writer st = None /\
    on_disk_blocks st = from_option blocks [] state /\
    forall block_id, block_id <> INVALID_BLOCK ->
      StringInitSegment seg block_id state = Some (seg, st).
Proof.
  intros H0 H1 Hc Hs H32.
  unfold DICTIONARY_HEADER_SIZE, sizeof_uint32_t, sizeof_int32_t in *.
  change (2 ^ 32) with 4294967296 in *.
  destruct (SetDictionary_spec seg
              {| dict_size := 0; dict_end := Int.u32 (segment_size seg) |})
    as (buf' & ESet & L & Hsz & Hend & Hfr); [done | lia |].
  cbn [dict_size dict_end] in Hsz, Hend.
  assert (H32' : Int.u32 (segment_size seg) = segment_size seg)
    by (apply IntFacts.u32_small; change (2 ^ 32) with 4294967296; lia).
  rewrite !H32' in Hend.
  change (Int.u32 0) with 0 in Hsz.
  assert (Hg : GetDictionary (set_Ptr seg buf')
               = Some {| dict_size := 0; dict_end := segment_size seg |})
    by by apply GetDictionary_intro.
  unfold StringInitSegment. rewrite Z.eqb_refl, ESet. osimpl.
  eexists _, _. split; [reflexivity |]. split; [exact Hg |]. split.
  { unfold RemainingSpace. rewrite Hg. osimpl. 
    cbn [dict_size count set_Ptr segment_size].
    unfold DICTIONARY_HEADER_SIZE, sizeof_uint32_t, sizeof_int32_t.
    rewrite (IntFacts.u64_small (0 + count seg * 4 + (4 + 4)))
      by (change (2 ^ 64) with 18446744073709551616; lia).
    rewrite IntFacts.u64_small
      by (change (2 ^ 64) with 18446744073709551616; lia).
    f_equal. lia. }
  split.
  { intros i Hi. unfold base_data, Load_i32.
    cbn [set_Ptr block Ptr block_offset]. rewrite Hfr; [done |].
    unfold DICTIONARY_HEADER_SIZE, sizeof_uint32_t, sizeof_int32_t. lia. }
  split; [by destruct state |]. split; [by destruct state |].
  split; [by destruct state |]. split; [by destruct state |].
  intros b Hb. destruct (Z.eqb_spec b INVALID_BLOCK); [done |]. osimpl.
  by destruct state.
Qed.

End DictionaryHeader.

(** ** Writing back what is there; the bytes of a marker *)

Section WriteBack.
Import Mem MemFacts LoadStore.

Lemma byte_of_Z_of_byte b : Bytes.byte_of_Z (Bytes.Z_of_byte b) = b.
Proof.
  unfold Bytes.byte_of_Z.
  rewrite Z.mod_small by apply BytesFacts.Z_of_byte_range.
  unfold Bytes.Z_of_byte. rewrite N2Z.id, Byte.of_to_N. done.
Qed.

(** Encoding what was decoded gives the bytes back. *)
Lemma le_encode_decode bs :
  Bytes.le_encode (length bs) (Bytes.le_decode bs) = bs.
Proof.
  induction bs as [|b bs IH]; [done |].
  cbn [length Bytes.le_encode Bytes.le_decode].
  pose proof (BytesFacts.Z_of_byte_range b) as Hb.
  f_equal.
  - unfold Bytes.byte_of_Z.
    replace ((Bytes.Z_of_byte b + 256 * Bytes.le_decode bs) mod 256)
      with (Bytes.Z_of_byte b).
    + unfold Bytes.Z_of_byte. rewrite N2Z.id, Byte.of_to_N. done.
    + rewrite (Z.mul_comm 256), Z.mod_add by lia.
      by rewrite Z.mod_small.
  - replace ((Bytes.Z_of_byte b + 256 * Bytes.le_decode bs) / 256)
      with (Bytes.le_decode bs); [done |].
    rewrite (Z.mul_comm 256), Z.div_add by lia.
    rewrite (Z.div_small (Bytes.Z_of_byte b)) by done. lia.
Qed.

(** Writing back the bytes that are there changes nothing. *)
Lemma write_read_id buf pos bs :
  read buf pos (len bs) = Some bs -> write buf pos bs = Some buf.
Proof.
  intros (H0 & _ & H1 & Hbs)%read_Some. apply write_Some.
  split; [done |]. split; [done |].
  rewrite Hbs at 1.
  replace (Z.to_nat (pos + len bs)) with (Z.to_nat pos + Z.to_nat (len bs))%nat
    by (pose proof (len_nonneg bs); lia).
  rewrite <- drop_drop, take_drop, take_drop. done.
Qed.

(** Storing the value a load gives changes nothing. *)
Lemma Store_u32_Load_u32 buf pos v :
  Load_u32 buf pos = Some v -> Store_u32 v buf pos = Some buf.
Proof.
  unfold Load_u32, Store_u32. intros H.
  destruct (read buf pos 4) as [bs|] eqn:E; [|done]. osimpl in H.
  injection H as <-.
  pose proof (read_len _ _ _ _ E) as L.
  assert (Hl : length bs = 4%nat) by (unfold len in L; lia).
  rewrite <- Hl at 1. rewrite le_encode_decode. apply write_read_id.
  by rewrite L.
Qed.

End WriteBack.

Section MarkerFrame.
Context {info : StorageInfo}.
Import Mem MemFacts LoadStore.

(** X4. WriteStringMarker succeeds only inside the buffer, keeps its
    length, puts the little-endian block id followed by the little-endian
    offset into the twelve bytes at the target, and leaves every other
    byte. *)
Theorem WriteStringMarker_frame buf target block_id offset buf' :
  WriteStringMarker buf target block_id offset = Some buf' ->
  0 <= target /\ target + BIG_STRING_MARKER_SIZE <= len buf /\
  len buf' = len buf /\
  read buf' target BIG_STRING_MARKER_SIZE
    = Some (Bytes.le_encode 8 block_id ++ Bytes.le_encode 4 offset) /\
  forall p n,
    p + n <= target \/ target + BIG_STRING_MARKER_SIZE <= p ->
    read buf' p n = read buf p n.
Proof.
  intros H.
  destruct (WriteStringMarker_Some _ _ _ _ _ H) as (buf1 & E1 & E2).
  pose proof (proj1 (write_Some _ _ _ _) E1) as (H0 & H1 & _).
  pose proof (proj1 (write_Some _ _ _ _) E2) as (H2 & H3 & _).
  pose proof (write_len _ _ _ _ E1) as L1.
  pose proof (write_len _ _ _ _ E2) as L2.
  rewrite len_le_encode in *.
  unfold BIG_STRING_MARKER_SIZE, sizeof_block_id_t, sizeof_int32_t.
  split; [lia |]. split; [lia |]. split; [lia |]. split.
  - apply read_Some. split; [lia |]. split; [lia |]. split; [lia |].
    pose proof (read_write_same _ _ _ _ E2) as R2.
    pose proof (read_write_same _ _ _ _ E1) as R1.
    rewrite len_le_encode in R1, R2.
    rewrite <- (read_write_other _ _ _ _ target (Z.of_nat 8) E2) in R1
      by (rewrite len_le_encode; lia).
    apply read_Some in R1 as (_ & _ & _ & R1).
    apply read_Some in R2 as (_ & _ & _ & R2).
    rewrite R1 at 1. rewrite R2 at 1.
    replace (Z.to_nat (target + 8)) with (Z.to_nat target + 8)%nat by lia.
    rewrite <- drop_drop.
    change (Z.to_nat (Z.of_nat 8)) with 8%nat.
    change (Z.to_nat (Z.of_nat 4)) with 4%nat.
    change (Z.to_nat (8 + 4)) with (8 + 4)%nat.
    by rewrite take_take_drop.
  - intros p n Hp. apply (read_WriteStringMarker_other _ _ _ _ _ _ _ H).
    unfold BIG_STRING_MARKER_SIZE, sizeof_block_id_t, sizeof_int32_t. lia.
Qed.

End MarkerFrame.

(** ** The layout after compaction *)

Section CompactionLayout.
Context {info : StorageInfo}.
Import Mem MemFacts LoadStore.

Lemma set_Ptr_same seg : set_Ptr seg (Ptr (block seg)) = seg.
Proof. by destruct seg as [[? ?] ? ? ? ? ?]. Qed.

(** The compaction step by step: the dictionary is copied right behind
    the offsets and the header gets the new end. *)
Lemma FinalizeAppend_compaction seg dict :
  GetDictionary seg = Some dict ->
  block_offset seg = 0 -> 0 <= count seg ->
  dict_end dict = segment_size seg ->
  segment_size seg <= len (Ptr (block seg)) ->
  DICTIONARY_HEADER_SIZE + count seg * sizeof_int32_t + dict_size dict
    <= segment_size seg ->
  DICTIONARY_HEADER_SIZE + count seg * sizeof_int32_t + dict_size dict
    < GetCompactionFlushLimit (block_size seg) ->
  exists moved buf1 buf2,
    read (Ptr (block seg)) (dict_end dict - dict_size dict) (dict_size dict)
      = Some moved /\
    write (Ptr (block seg))
      (DICTIONARY_HEADER_SIZE + count seg * sizeof_int32_t) moved = Some buf1 /\
    FinalizeAppend seg
      = Some (DICTIONARY_HEADER_SIZE + count seg * sizeof_int32_t
              + dict_size dict, set_Ptr seg buf2) /\
    len buf2 = len (Ptr (block seg)) /\
    Load_u32 buf2 0 = Some (dict_size dict) /\
    Load_u32 buf2 4
      = Some (DICTIONARY_HEADER_SIZE + count seg * sizeof_int32_t
              + dict_size dict) /\
    (forall p n, 8 <= p -> read buf2 p n = read buf1 p n).
Proof.
  intros Hd Hbo Hc Hend Hseg Hfit Hlim.
  destruct (GetDictionary_Some _ _ Hd) as [Hsz0 He0].
  pose proof (Load_u32_range _ _ _ Hsz0) as Hsz.
  pose proof (Load_u32_range _ _ _ He0) as He.
  unfold DICTIONARY_HEADER_SIZE, sizeof_uint32_t, sizeof_int32_t in *.
  change (2 ^ 32) with 4294967296 in *.
  set (osz := 4 + 4 + count seg * 4) in *.
  set (size := dict_size dict) in *. rewrite Hend in *.
  set (Sz := segment_size seg) in *.
  destruct (read_is_Some (Ptr (block seg)) (Sz - size) size) as [moved Emoved];
    [lia | lia | lia |].
  pose proof (read_len _ _ _ _ Emoved) as Lmoved.
  destruct (write_is_Some (Ptr (block seg)) osz moved) as [buf1 Ebuf1];
    [lia | lia |].
  pose proof (write_len _ _ _ _ Ebuf1) as L1.
  destruct (SetDictionary_spec (set_Ptr seg buf1)
              {| dict_size := size; dict_end := osz + size |})
    as (buf2 & ESet & L2 & Hsz2 & Hend2 & F2).
  { cbn. lia. } { cbn. lia. }
  cbn [set_Ptr block Ptr block_offset dict_size dict_end] in ESet, L2, Hsz2, Hend2, F2.
  rewrite Hbo in Hsz2, Hend2, F2.
  rewrite IntFacts.u32_small in Hsz2 by (change (2 ^ 32) with 4294967296; lia).
  rewrite IntFacts.u32_small in Hend2 by (change (2 ^ 32) with 4294967296; lia).
  exists moved, buf1, buf2. split; [done |]. split; [done |]. split.
  { unfold FinalizeAppend. rewrite Hd. osimpl.
    unfold DICTIONARY_HEADER_SIZE, sizeof_uint32_t, sizeof_int32_t.
    fold osz size Sz. rewrite Hend. fold Sz.
    rewrite (IntFacts.u64_small osz)
      by (change (2 ^ 64) with 18446744073709551616; lia).
    rewrite (IntFacts.u64_small (osz + size))
      by (change (2 ^ 64) with 18446744073709551616; lia).
    destruct (Z.leb_spec (GetCompactionFlushLimit (block_size seg)) (osz + size));
      [lia |].
    rewrite Emoved. osimpl. rewrite Ebuf1. osimpl.
    rewrite (IntFacts.u64_small (Sz - (osz + size)))
      by (change (2 ^ 64) with 18446744073709551616; lia).
    replace (Sz - (Sz - (osz + size))) with (osz + size) by lia.
    rewrite (IntFacts.u32_small (osz + size))
      by (change (2 ^ 32) with 4294967296; lia).
    rewrite ESet. done. }
  split; [lia |]. split; [done |]. split; [done |].
  intros p n Hp. apply F2. lia.
Qed.

(** X5. FinalizeAppend below the flush limit, on a segment at block offset
    0 whose header end is the segment size: it returns the required size
    HeaderSize + count*4 + dictionary.size, which is the segment size minus
    RemainingSpace; the header then holds the same size and the required
    size as end; the offset entries are unchanged; and the dictionary bytes
    are found again, unchanged, right below the new end. *)
Theorem FinalizeAppend_layout seg dict :
  GetDictionary seg = Some dict ->
  block_offset seg = 0 -> 0 <= count seg ->
  dict_end dict = segment_size seg ->
  segment_size seg <= len (Ptr (block seg)) ->
  DICTIONARY_HEADER_SIZE + count seg * sizeof_int32_t + dict_size dict
    <= segment_size seg ->
  DICTIONARY_HEADER_SIZE + count seg * sizeof_int32_t + dict_size dict
    < GetCompactionFlushLimit (block_size seg) ->
  exists total seg',
    total = DICTIONARY_HEADER_SIZE + count seg * sizeof_int32_t + dict_size dict /\
    FinalizeAppend seg = Some (total, seg') /\
    RemainingSpace seg = Some (segment_size seg - total) /\
    GetDictionary seg'
      = Some {| dict_size := dict_size dict; dict_end := total |} /\
    (forall i, 0 <= i < count seg -> base_data seg' i = base_data seg i) /\
    read (Ptr (block seg')) (total - dict_size dict) (dict_size dict)
      = read (Ptr (block seg)) (segment_size seg - dict_size dict)
          (dict_size dict) /\
    len (Ptr (block seg')) = len (Ptr (block seg)) /\
    seg' = set_Ptr seg (Ptr (block seg')).
Proof.
  intros Hd Hbo Hc Hend Hseg Hfit Hlim.
  destruct (FinalizeAppend_compaction seg dict)
    as (moved & buf1 & buf2 & Emoved & Ebuf1 & EF & L2 & Hsz2 & Hend2 & F2);
    try done.
  destruct (GetDictionary_Some _ _ Hd) as [Hsz0 He0].
  pose proof (Load_u32_range _ _ _ Hsz0) as Hsz.
  pose proof (read_len _ _ _ _ Emoved) as Lmoved.
  unfold DICTIONARY_HEADER_SIZE, sizeof_uint32_t, sizeof_int32_t in *.
  eexists _, (set_Ptr seg buf2). split; [reflexivity |]. split; [exact EF |].
  split.
  { unfold RemainingSpace. rewrite Hd. osimpl.
    unfold DICTIONARY_HEADER_SIZE, sizeof_uint32_t, sizeof_int32_t.
    pose proof (Load_u32_range _ _ _ He0) as He. rewrite Hend in He.
    change (2 ^ 32) with 4294967296 in He, Hsz.
    rewrite (IntFacts.u64_small (dict_size dict + count seg * 4 + (4 + 4)))
      by (change (2 ^ 64) with 18446744073709551616; lia).
    rewrite IntFacts.u64_small
      by (change (2 ^ 64) with 18446744073709551616; lia).
    f_equal. lia. }
  split.
  { apply GetDictionary_intro; cbn [set_Ptr block Ptr block_offset];
      rewrite Hbo; done. }
  split.
  { intros i Hi. unfold base_data, DICTIONARY_HEADER_SIZE, sizeof_uint32_t,
      sizeof_int32_t. cbn [set_Ptr block Ptr block_offset]. rewrite Hbo.
    apply Load_i32_agree. rewrite F2 by lia.
    apply (read_write_other _ _ _ _ _ _ Ebuf1). lia. }
  cbn [set_Ptr block Ptr]. split; [|done].
  rewrite F2 by lia.
  replace (4 + 4 + count seg * 4 + dict_size dict - dict_size dict)
    with (4 + 4 + count seg * 4) by lia.
  rewrite <- Lmoved at 1. rewrite (read_write_same _ _ _ _ Ebuf1).
  rewrite <- Hend. by rewrite Emoved.
Qed.

(** X6. Compaction is idempotent: once FinalizeAppend has compacted a
    segment and the segment size has been set to the size it returned,
    FinalizeAppend returns that size again and leaves the segment exactly
    as it is. *)
Theorem FinalizeAppend_idempotent seg dict total seg' seg2 :
  GetDictionary seg = Some dict ->
  block_offset seg = 0 -> 0 <= count seg ->
  dict_end dict = segment_size seg ->
  segment_size seg <= len (Ptr (block seg)) ->
  DICTIONARY_HEADER_SIZE + count seg * sizeof_int32_t + dict_size dict
    <= segment_size seg ->
  DICTIONARY_HEADER_SIZE + count seg * sizeof_int32_t + dict_size dict
    < GetCompactionFlushLimit (block_size seg) ->
  FinalizeAppend seg = Some (total, seg') ->
  block seg2 = block seg' -> block_offset seg2 = 0 -> count seg2 = count seg ->
  block_size seg2 = block_size seg -> segment_size seg2 = total ->
  FinalizeAppend seg2 = Some (total, seg2).
Proof.
  intros Hd Hbo Hc Hend Hseg Hfit Hlim EF Hblk Hbo2 Hc2 HB2 Hs2.
  destruct (FinalizeAppend_compaction seg dict)
    as (moved & buf1 & buf2 & Emoved & Ebuf1 & EF' & L2 & Hsz2 & Hend2 & F2);
    try done.
  rewrite EF' in EF. injection EF as <- <-.
  destruct (GetDictionary_Some _ _ Hd) as [Hsz0 He0].
  pose proof (Load_u32_range _ _ _ Hsz0) as Hsz.
  pose proof (read_len _ _ _ _ Emoved) as Lmoved.
  pose proof (write_len _ _ _ _ Ebuf1) as L1.
  cbn [set_Ptr block] in Hblk.
  unfold DICTIONARY_HEADER_SIZE, sizeof_uint32_t, sizeof_int32_t in *.
  set (osz := 4 + 4 + count seg * 4) in *.
  set (size := dict_size dict) in *.
  assert (Hd2 : GetDictionary seg2
                = Some {| dict_size := size; dict_end := osz + size |}).
  { apply GetDictionary_intro; rewrite Hblk, Hbo2; done. }
  assert (Hm2 : read (Ptr (block seg2)) osz size = Some moved).
  { rewrite Hblk. cbn [Ptr]. rewrite F2 by (unfold osz; lia).
    rewrite <- Lmoved. apply (read_write_same _ _ _ _ Ebuf1). }
  unfold FinalizeAppend. rewrite Hd2. osimpl. cbn [dict_size dict_end].
  unfold DICTIONARY_HEADER_SIZE, sizeof_uint32_t, sizeof_int32_t.
  rewrite Hc2, HB2, Hs2. fold osz.
  pose proof (Load_u32_range _ _ _ He0) as He. rewrite Hend in He.
  change (2 ^ 32) with 4294967296 in He, Hsz.
  rewrite (IntFacts.u64_small osz)
    by (change (2 ^ 64) with 18446744073709551616; unfold osz; lia).
  rewrite (IntFacts.u64_small (osz + size))
    by (change (2 ^ 64) with 18446744073709551616; unfold osz; lia).
  destruct (Z.leb_spec (GetCompactionFlushLimit (block_size seg)) (osz + size));
    [unfold osz in *; lia |].
  replace (osz + size - size) with osz by lia.
  rewrite Hm2. osimpl.
  rewrite (write_read_id _ _ _ ltac:(rewrite Lmoved; exact Hm2)). osimpl.
  replace (osz + size - (osz + size)) with 0 by lia.
  change (Int.u64 0) with 0. rewrite Z.sub_0_r.
  rewrite (IntFacts.u32_small (osz + size))
    by (change (2 ^ 32) with 4294967296; unfold osz; lia).
  rewrite set_Ptr_same.
  unfold SetDictionary. cbn [dict_size dict_end]. rewrite Hblk, Hbo2.
  cbn [Ptr]. unfold sizeof_uint32_t.
  rewrite (Store_u32_Load_u32 _ _ _ Hsz2). osimpl. rewrite Z.add_0_l.
  rewrite (Store_u32_Load_u32 _ _ _ Hend2). osimpl.
  replace buf2 with (Ptr (block seg2)) by (by rewrite Hblk).
  by rewrite set_Ptr_same.
Qed.
End CompactionLayout.

(** ** The in-memory overflow store: round trips and effects *)

Section OverflowRoundTrip.
Context {info : StorageInfo}.
Import Mem MemFacts LoadStore.

(** The marker WriteStringMemory returns: the head's block and write
    offset when the string fits there, the start of a fresh buffer with a
    fresh id otherwise. *)
Lemma WriteStringMemory_marker seg v bm :
  Forall node_wf (head (segment_state seg)) ->
  len v + 4 <= 2 ^ 31 -> 0 <= block_size seg <= 2 ^ 31 ->
  exists b o seg' bm',
    WriteStringMemory seg v bm = Some (b, o, seg', bm') /\
    ((exists hd next,
        head (segment_state seg) = hd :: next /\
        b = BlockId (sb_block hd) /\ o = sb_offset hd /\ bm' = bm) \/
     (b = temporary_id bm /\ o = 0)).
Proof.
  intros Hwf Hv HB.
  destruct (head (segment_state seg)) as [|hd next] eqn:Hhd.
  - destruct (WriteStringMemory_new seg v bm) as (buf' & E & L & R);
      [by rewrite Hhd | done | done |].
    do 4 eexists. split; [exact E |]. right. done.
  - apply Forall_cons in Hwf as [Hn _].
    destruct (Z_lt_le_dec (sb_offset hd + (len v + 4)) (sb_size hd)) as [Hlt | Hge].
    + destruct (WriteStringMemory_fits seg v bm hd next Hhd Hn Hv Hlt)
        as (buf' & E & L & R & F).
      do 4 eexists. split; [exact E |]. left. by exists hd, next.
    + destruct (WriteStringMemory_new seg v bm) as (buf' & E & L & R);
        [by rewrite Hhd | done | done |].
      do 4 eexists. split; [exact E |]. right. done.
Qed.

(** X7. WriteStringMemory on a well-formed overflow store succeeds, keeps
    the store well formed, and returns an in-memory marker (block id >=
    MAXIMUM_BLOCK, offset >= 0) at which ReadOverflowString gives the
    string back. *)
Theorem WriteStringMemory_read_back seg v bm result :
  store_ok (segment_state seg) bm ->
  len v + 4 <= 2 ^ 31 -> 0 <= block_size seg <= 2 ^ 31 ->
  temporary_id bm < 2 ^ 63 ->
  exists b o seg' bm' result' bm'',
    WriteStringMemory seg v bm = Some (b, o, seg', bm') /\
    MAXIMUM_BLOCK <= b /\ 0 <= o /\
    store_ok (segment_state seg') bm' /\
    stored seg' (disk bm') b o v /\
    ReadOverflowString seg' result b o bm' = Some (v, result', bm'').
Proof.
  intros Hok Hv HB Htid.
  destruct (WriteStringMemory_store seg v bm Hok Hv HB Htid)
    as (b & o & st1 & bm1 & E & Hok1 & _ & _ & Hst & _ & _ & _ & _).
  destruct Hok as (Hwf & Hidx & Hkeys & Hmin & Hmax).
  destruct (WriteStringMemory_marker seg v bm Hwf Hv HB)
    as (b2 & o2 & seg2 & bm2 & E2 & Hcase).
  rewrite E in E2. injection E2 as <- <- <- <-.
  destruct (ReadOverflowString_stored _ result _ _ _ _ Hst Hv (proj2 HB))
    as (result' & bm'' & ER).
  exists b, o, (set_segment_state seg st1), bm1, result', bm''.
  split; [exact E |]. 
  assert (Hbo : MAXIMUM_BLOCK <= b /\ 0 <= o).
  { destruct Hcase as [(hd & next & Hhd & -> & -> & _) | (-> & ->)]; [|lia].
    rewrite Hhd in Hidx, Hwf.
    destruct (Hidx _ _ (deref_cons_eq hd next)) as [_ Hm].
    apply Forall_cons in Hwf as [(H0 & _) _]. done. }
  destruct Hbo. done.
Qed.

(** X8. A later WriteStringMemory does not disturb what the store holds:
    the marker it returns differs from the marker of every string stored
    before, and ReadOverflowString at an old marker still returns the old
    string. *)
Theorem WriteStringMemory_keeps_stored seg v bm b' o' w result :
  store_ok (segment_state seg) bm ->
  len v + 4 <= 2 ^ 31 -> 0 <= block_size seg <= 2 ^ 31 ->
  temporary_id bm < 2 ^ 63 ->
  stored seg (disk bm) b' o' w -> len w + 4 <= 2 ^ 31 ->
  exists b o seg' bm' result' bm'',
    WriteStringMemory seg v bm = Some (b, o, seg', bm') /\
    (b, o) <> (b', o') /\
    stored seg' (disk bm') b' o' w /\
    ReadOverflowString seg' result b' o' bm' = Some (w, result', bm'').
Proof.
  intros Hok Hv HB Htid Hw Hwl.
  destruct (WriteStringMemory_store seg v bm Hok Hv HB Htid)
    as (b & o & st1 & bm1 & E & Hok1 & _ & _ & Hst & _ & _ & _ & Hkeep).
  destruct Hok as (Hwf & Hidx & Hkeys & Hmin & Hmax).
  destruct (WriteStringMemory_marker seg v bm Hwf Hv HB)
    as (b2 & o2 & seg2 & bm2 & E2 & Hcase).
  rewrite E in E2. injection E2 as <- <- <- <-.
  pose proof (Hkeep _ _ _ Hw) as Hw1.
  destruct (ReadOverflowString_stored _ result _ _ _ _ Hw1 Hwl (proj2 HB))
    as (result' & bm'' & ER).
  exists b, o, (set_segment_state seg st1), bm1, result', bm''.
  split; [exact E |]. split; [|done].
  intros Heq. injection Heq as -> ->.
  pose proof (len_nonneg w) as Hw0.
  destruct Hw as [(Hb' & r & node & Hr & Hd & Ho' & Hlim & Hread)
                 | (Hb' & _)].
  - destruct Hcase as [(hd & next & Hhd & -> & -> & _) | (-> & ->)].
    + rewrite Hhd in Hidx, Hd.
      destruct (Hidx _ _ (deref_cons_eq hd next)) as [Hi _].
      rewrite Hi in Hr. injection Hr as <-.
      rewrite deref_cons_eq in Hd. injection Hd as <-. lia.
    + apply Hkeys in Hr. lia.
  - destruct Hcase as [(hd & next & Hhd & -> & -> & _) | (-> & ->)]; [|lia].
    rewrite Hhd in Hidx.
    destruct (Hidx _ _ (deref_cons_eq hd next)) as [_ Hm]. lia.
Qed.

(** X9. WriteStringMemory touches the in-memory chain only: the block of
    the segment, its offset, count and sizes, the durable block list, the
    overflow writer, the durable blocks and the next free durable id are
    unchanged, and at most one buffer id is taken. The chain gets a new
    head, or its head is replaced, the nodes behind staying as they are;
    the block id returned is that of the head. *)
Theorem WriteStringMemory_frame seg v bm b o seg' bm' :
  WriteStringMemory seg v bm = Some (b, o, seg', bm') ->
  block seg' = block seg /\ block_offset seg' = block_offset seg /\
  count seg' = count seg /\ segment_size seg' = segment_size seg /\
  block_size seg' = block_size seg /\
  on_disk_blocks (segment_state seg') = on_disk_blocks (segment_state seg) /\
  overflow_writer (segment_state seg') = overflow_writer (segment_state seg) /\
  disk bm' = disk bm /\ free_block_id bm' = free_block_id bm /\
  temporary_id bm <= temporary_id bm' <= temporary_id bm + 1 /\
  exists hd',
    BlockId (sb_block hd') = b /\
    (head (segment_state seg') = hd' :: head (segment_state seg) \/
     head (segment_state seg') = hd' :: tail (head (segment_state seg))).
Proof.
  unfold WriteStringMemory. intros H.
  destruct (head (segment_state seg)) as [|hd next] eqn:Hhd.
  - cbn [Allocate head] in H. 
    destruct (Store_u32 _ _ _) as [buf1|]; [|done]. osimpl in H.
    destruct (write buf1 _ _) as [buf2|]; [|done]. osimpl in H.
    injection H as <- <- <- <-. cbn.
    split_and!; try done; try lia. eexists. split; [|left; reflexivity]. done.
  - destruct (sb_size hd <=? _).
    + cbn [Allocate head] in H.
      destruct (Store_u32 _ _ _) as [buf1|]; [|done]. osimpl in H.
      destruct (write buf1 _ _) as [buf2|]; [|done]. osimpl in H.
      injection H as <- <- <- <-. cbn.
      split_and!; try done; try lia. eexists. split; [|left; reflexivity]. done.
    + rewrite Hhd in H.
      destruct (Store_u32 _ _ _) as [buf1|]; [|done]. osimpl in H.
      destruct (write buf1 _ _) as [buf2|]; [|done]. osimpl in H.
      injection H as <- <- <- <-. cbn.
      split_and!; try done; try lia. eexists. split; [|right; reflexivity]. done.
Qed.

(** X10. The string ReadOverflowString returns is owned by the result
    vector afterwards: it is the newest entry of the vector's string
    storage, or it lies in the buffer of the newest handle the vector
    holds. The slots of the vector, the durable blocks and the next free
    durable id are unchanged. *)
Theorem ReadOverflowString_owned seg result block offset bm s result' bm' :
  ReadOverflowString seg result block offset bm = Some (s, result', bm') ->
  data result' = data result /\ disk bm' = disk bm /\
  free_block_id bm' = free_block_id bm /\
  ((string_heap result' = s :: string_heap result /\
    handles result' = handles result /\ bm' = bm) \/
   (exists h p,
      handles result' = h :: handles result /\
      string_heap result' = string_heap result /\
      read (Ptr h) p (len s) = Some s)).
Proof.
  intros H. pose proof (ReadOverflowString_frame _ _ _ _ _ _ _ _ H) as (Hd & Hdisk & Hfree).
  split; [done |]. split; [done |]. split; [done |].
  unfold ReadOverflowString in H.
  destruct (block <? MAXIMUM_BLOCK).
  - destruct (Pin bm block) as [handle|]; [|done]. osimpl in H.
    destruct (Load_u32 handle offset) as [n|]; [|done]. osimpl in H.
    destruct (block_size seg <=? n).
    + cbn [Allocate Ptr BlockId] in H.
      destruct (read_overflow_loop _ _ _ _ _ _ _ _) as [target|]; [|done].
      osimpl in H. unfold ReadString in H.
      destruct (read target 0 n) as [s'|] eqn:Er; [|done]. osimpl in H.
      injection H as <- <- <-. right. eexists _, 0. cbn.
      split; [done |]. split; [done |].
      by rewrite (read_len _ _ _ _ Er).
    + destruct (read_overflow_loop _ _ _ _ _ _ _ _) as [target|]; [|done].
      osimpl in H. injection H as <- <- <-. left. done.
  - destruct (overflow_blocks (segment_state seg) !! block) as [r|]; [|done].
    osimpl in H.
    destruct (deref _ r) as [node|]; [|done]. osimpl in H.
    destruct (ReadStringWithLength _ offset) as [s'|] eqn:Er; [|done].
    osimpl in H. injection H as <- <- <-. right.
    apply ReadStringWithLength_Some in Er as [_ Er].
    exists (sb_block node), (offset + 4). done.
Qed.

(** X11. A durable string that ends before the trailing block pointer of
    its first block is read from that block alone: ReadOverflowString
    returns the bytes behind the length prefix, puts them into the vector's
    string storage and allocates nothing. *)
Theorem ReadOverflowString_single_block seg result block offset bm handle n s :
  block < MAXIMUM_BLOCK -> Pin bm block = Some handle ->
  Load_u32 handle offset = Some n ->
  0 <= offset -> block_size seg <= 2 ^ 31 ->
  offset + sizeof_uint32_t + n <= block_size seg - sizeof_block_id_t ->
  read handle (offset + sizeof_uint32_t) n = Some s ->
  ReadOverflowString seg result block offset bm
    = Some (s, AddHeapString result s, bm).
Proof.
  intros Hb Hpin Hlen Ho HB Hfit Hread.
  pose proof (read_len _ _ _ _ Hread) as Ls.
  pose proof (len_nonneg s) as Hs0.
  unfold sizeof_uint32_t, sizeof_block_id_t in *.
  change (2 ^ 31) with 2147483648 in *.
  assert (Hst : stored seg (disk bm) block offset s).
  { right. split; [done |]. exists handle. unfold Pin in Hpin.
    unfold sizeof_block_id_t. change (2 ^ 31) with 2147483648.
    split; [done |]. split; [lia |]. split; [done |]. split; [lia |].
    split; [by rewrite Ls |].
    apply chain_last; [lia | unfold sizeof_block_id_t; lia | by rewrite Ls]. }
  destruct (ReadOverflowString_stored seg result block offset bm s Hst)
    as (r' & bm' & E);
    [change (2 ^ 31) with 2147483648; lia | change (2 ^ 31) with 2147483648; lia |].
  rewrite E. unfold ReadOverflowString in E.
  destruct (Z.ltb_spec block MAXIMUM_BLOCK); [|lia].
  rewrite Hpin in E. osimpl in E. rewrite Hlen in E. osimpl in E.
  destruct (Z.leb_spec (block_size seg) n); [lia |].
  destruct (read_overflow_loop _ _ _ _ _ _ _ _) as [target|]; [|done].
  osimpl in E. by injection E as <- <- <-.
Qed.

End OverflowRoundTrip.

(** ** Scans of ranges, Select and FetchRow on a segment that holds values *)

Section ScanRanges.
Context {info : StorageInfo}.
Import Mem MemFacts LoadStore.

(** The loop only sees start + i and result_offset + i. *)
Lemma scan_loop_shift seg de start ro a n : forall i prev result bm,
  scan_loop seg de (start + a) (ro + a) n i prev result bm
  = scan_loop seg de start ro n (i + a) prev result bm.
Proof.
  induction n as [|n IH]; intros i prev result bm; [done |].
  cbn [scan_loop].
  replace (start + a + i) with (start + (i + a)) by lia.
  replace (ro + a + i) with (ro + (i + a)) by lia.
  destruct (base_data seg (start + (i + a))) as [cur|]; [|done]. osimpl.
  destruct (FetchStringFromDict _ _ _ _ _ _ _) as [[[s r] bm1]|]; [|done].
  osimpl. destruct (set_data r _ s) as [r1|]; [|done]. osimpl.
  rewrite IH. by replace (i + 1 + a) with (i + a + 1) by lia.
Qed.

(** The loop over n1 + n2 rows is the loop over n1 rows followed by the
    loop over the next n2, which starts from the last offset read. *)
Lemma scan_loop_app seg de start ro n2 n1 : forall i prev result bm,
  scan_loop seg de start ro (n1 + n2) i prev result bm
  = match scan_loop seg de start ro n1 i prev result bm with
    | Some (r, bm') =>
        match n1 with
        | O => scan_loop seg de start ro n2 i prev r bm'
        | S _ =>
            prev' ← base_data seg (start + (i + Z.of_nat n1 - 1));
            scan_loop seg de start ro n2 (i + Z.of_nat n1) prev' r bm'
        end
    | None => None
    end.
Proof.
  induction n1 as [|k IH]; intros i prev result bm; [done |].
  cbn [scan_loop Nat.add].
  destruct (base_data seg (start + i)) as [cur|] eqn:Ecur; [|done]. osimpl.
  destruct (FetchStringFromDict _ _ _ _ _ _ _) as [[[s r] bm1]|]; [|done].
  osimpl. destruct (set_data r _ s) as [r1|]; [|done]. osimpl.
  rewrite IH.
  destruct (scan_loop seg de start ro k (i + 1) cur r1 bm1) as [[r2 bm2]|];
    [|done].
  destruct k as [|j].
  - replace (i + Z.of_nat 1 - 1) with i by lia. rewrite Ecur. osimpl.
    by replace (i + Z.of_nat 1) with (i + 1) by lia.
  - replace (i + 1 + Z.of_nat (S j) - 1) with (i + Z.of_nat (S (S j)) - 1) by lia.
    by replace (i + 1 + Z.of_nat (S j)) with (i + Z.of_nat (S (S j))) by lia.
Qed.

(** X12. A scan of n1 + n2 rows is the scan of the first n1 rows followed
    by the scan of the next n2 rows at result offset + n1, failures
    included; the second scan takes its previous offset from the entry
    before its first row. *)
Theorem StringScanPartial_split seg start (n1 n2 : nat) result ro bm :
  0 <= start ->
  StringScanPartial seg start (n1 + n2) result ro bm
  = '(r, bm') ← StringScanPartial seg start n1 result ro bm;
    StringScanPartial seg (start + Z.of_nat n1) n2 r (ro + Z.of_nat n1) bm'.
Proof.
  intros Hs. unfold StringScanPartial.
  destruct (GetDictionaryEnd seg) as [de|]; [|done]. osimpl.
  destruct (if 0 <? start then base_data seg (start - 1) else Some 0)
    as [prev|] eqn:Eprev; [|done].
  osimpl. rewrite scan_loop_app.
  destruct (scan_loop seg de start ro n1 0 prev result bm) as [[r bm']|];
    [|done].
  osimpl.
  destruct n1 as [|k].
  - cbn [Z.of_nat]. rewrite !Z.add_0_r, Eprev. osimpl. done.
  - destruct (Z.ltb_spec 0 (start + Z.of_nat (S k))); [|lia].
    replace (start + (0 + Z.of_nat (S k) - 1))
      with (start + Z.of_nat (S k) - 1) by lia.
    destruct (base_data seg (start + Z.of_nat (S k) - 1)) as [prev'|]; [|done].
    osimpl. by rewrite scan_loop_shift.
Qed.

(** The previous entry of a row of the segment, or of the row right
    behind the last one. *)
Lemma previous_entry_is_Some E seg bm vs (start : nat) :
  segment_repr E seg bm vs -> (start <= length vs)%nat ->
  is_Some (previous_entry seg (Z.of_nat start)).
Proof.
  intros Hrepr Hle. unfold previous_entry.
  destruct (Z.ltb_spec 0 (Z.of_nat start)); [|done].
  destruct Hrepr as (_ & _ & _ & _ & _ & _ & _ & _ & Hrows).
  destruct (lookup_lt_is_Some_2 vs (start - 1)) as [w Hw]; [lia |].
  destruct (row_stored_base_data _ _ _ _ _ _ (Hrows _ _ Hw)) as (cur & Hc & _).
  replace (Z.of_nat start - 1) with (Z.of_nat (start - 1)) by lia.
  by rewrite Hc.
Qed.

(** X13. On a segment that holds the values vs, StringScanPartial of
    [n] rows from row [start] writes vs[start .. start + n) into the slots
    from result_offset on and leaves the other slots and the durable blocks
    as they are. *)
Theorem StringScanPartial_repr E seg bm vs (start n ro : nat) result :
  segment_repr E seg bm vs -> values_ok vs ->
  (start + n <= length vs)%nat ->
  (ro + n <= length (data result))%nat ->
  exists r' bm',
    StringScanPartial seg (Z.of_nat start) n result (Z.of_nat ro) bm
      = Some (r', bm') /\
    data r' = take ro (data result) ++ take n (drop start vs)
              ++ drop (ro + n) (data result) /\
    disk bm' = disk bm.
Proof.
  intros Hrepr Hok Hn Hro.
  pose proof (GetDictionaryEnd_repr _ _ _ _ Hrepr) as Hde.
  destruct (previous_entry_is_Some E seg bm vs start Hrepr ltac:(lia))
    as [prev Hprev].
  assert (Hlen : len (Ptr (block seg)) < 2 ^ 31) by apply Hrepr.
  assert (Hrows : rows_from seg (disk bm) (Z.of_nat start) n
                  = Some (take n (drop start vs))).
  { replace n with (length (take n (drop start vs))) at 1
      by (rewrite length_take, length_drop; lia).
    apply rows_from_values. intros i v Hv.
    apply lookup_take_Some in Hv as [Hv Hi].
    rewrite lookup_drop in Hv.
    replace (Z.of_nat start + Z.of_nat i) with (Z.of_nat (start + i)) by lia.
    by apply (row_value_repr E seg bm vs). }
  pose proof (scan_loop_rows seg E (Z.of_nat start) (Z.of_nat ro) n 0 ro prev
                result bm Hde Hlen ltac:(lia) ltac:(lia) ltac:(lia) Hro) as Hloop.
  rewrite Z.add_0_r, Hrows in Hloop.
  destruct Hloop as (r' & bm' & E1 & Hdata & Hdisk); [done |].
  exists r', bm'. split; [|done].
  unfold StringScanPartial. rewrite Hde. osimpl.
  unfold previous_entry in Hprev. rewrite Hprev. osimpl. exact E1.
Qed.

(** The offsets of a segment that holds values are cumulative. *)
Lemma cumulative_at_repr E seg bm vs (i : nat) :
  segment_repr E seg bm vs -> (i < length vs)%nat ->
  cumulative_at seg (Z.of_nat i).
Proof.
  intros Hrepr Hi cur prev Hcur Hprev.
  destruct (previous_entry_repr E seg bm vs i Hrepr Hi) as (prev' & Hp & Habs).
  rewrite Hprev in Hp. injection Hp as <-.
  destruct (lookup_lt_is_Some_2 vs i Hi) as [w Hw].
  assert (Hrows := proj2 (proj2 (proj2 (proj2 (proj2 (proj2 (proj2 (proj2 Hrepr)))))))).
  destruct (row_stored_base_data _ _ _ _ _ _ (Hrows _ _ Hw)) as (cur' & Hc & Hc').
  rewrite Hcur in Hc. injection Hc as <-.
  rewrite Habs, Hc'.
  rewrite (dictionary_bytes_take_S _ _ _ _ Hw).
  pose proof (required_space_nonneg (block_size seg) w).
  pose proof (dictionary_bytes_nonneg (block_size seg) (take i vs)). lia.
Qed.

(** X14. On a segment that holds the values vs, StringFetchRow of row i
    stores vs[i] in slot result_idx and changes no other slot. *)
Theorem StringFetchRow_repr E seg bm vs (i k : nat) v result :
  segment_repr E seg bm vs -> values_ok vs ->
  vs !! i = Some v -> (k < length (data result))%nat ->
  exists r' bm',
    StringFetchRow seg (Z.of_nat i) result (Z.of_nat k) bm = Some (r', bm') /\
    data r' = <[k := v]> (data result) /\ disk bm' = disk bm.
Proof.
  intros Hrepr Hok Hv Hk.
  pose proof (lookup_lt_Some _ _ _ Hv) as Hi.
  assert (Hlen : len (Ptr (block seg)) < 2 ^ 31) by apply Hrepr.
  pose proof (StringFetchRow_row seg (Z.of_nat i) result k bm Hlen ltac:(lia) Hk
                (cumulative_at_repr E seg bm vs i Hrepr Hi)) as H.
  by rewrite (row_value_repr E seg bm vs i v Hrepr Hok Hv) in H.
Qed.

(** X15. On a segment that holds the values vs, Select over any list of
    row ids stores vs[sel[j]] at output position j and leaves the slots
    behind the selection as they are. *)
Theorem Select_repr E seg bm vs sel result :
  segment_repr E seg bm vs -> values_ok vs ->
  Forall (fun idx => 0 <= idx < len vs) sel ->
  (length sel <= length (data result))%nat ->
  exists r' bm' picked,
    Select seg 0 result sel bm = Some (r', bm') /\
    mapM (fun idx => vs !! Z.to_nat idx) sel = Some picked /\
    data r' = picked ++ drop (length sel) (data result) /\
    disk bm' = disk bm.
Proof.
  intros Hrepr Hok Hsel Hlen.
  pose proof (GetDictionaryEnd_repr _ _ _ _ Hrepr) as Hde.
  assert (Hl : len (Ptr (block seg)) < 2 ^ 31) by apply Hrepr.
  assert (Hpick : exists picked,
            mapM (fun idx => vs !! Z.to_nat idx) sel = Some picked /\
            mapM (fun idx => row_value seg (disk bm) (0 + idx)) sel
              = Some picked).
  { clear Hlen. induction sel as [|idx sel IH]; [by exists [] |].
    apply Forall_cons in Hsel as [Hidx Hsel].
    destruct (IH Hsel) as (picked & E1 & E2).
    destruct (lookup_lt_is_Some_2 vs (Z.to_nat idx)) as [w Hw];
      [unfold len in Hidx; lia |].
    exists (w :: picked). cbn [mapM]. rewrite E1, E2, Hw.
    replace (0 + idx) with (Z.of_nat (Z.to_nat idx)) by lia.
    rewrite (row_value_repr E seg bm vs _ w Hrepr Hok Hw). done. }
  destruct Hpick as (picked & E1 & E2).
  pose proof (select_loop_rows seg E 0 sel 0 result bm Hde Hl) as H.
  rewrite E2 in H.
  destruct H as (r' & bm' & Es & Hdata & Hdisk).
  { eapply Forall_impl; [exact Hsel |]. intros idx Hidx. cbn beta in *.
    change (2 ^ 64) with 18446744073709551616.
    destruct Hrepr as (Hc & _ & Hbo & Hb & Hbuf & H31 & _).
    pose proof (dictionary_bytes_nonneg (block_size seg) vs).
    unfold DICTIONARY_HEADER_SIZE, sizeof_uint32_t, sizeof_int32_t in Hb.
    change (2 ^ 31) with 2147483648 in H31. lia. }
  { lia. }
  exists r', bm', picked. split; [|done].
  unfold Select. rewrite Hde. osimpl. exact Es.
Qed.

End ScanRanges.

(** ** FetchRow against the scan; Select against the scan *)

Section ScanSelect.
Context {info : StorageInfo}.
Import Mem MemFacts LoadStore.

(** X16. StringFetchRow throws on a row, other than the first, whose
    offset has a smaller magnitude than the offset before it: the checked
    cast of the length to uint32_t fails. *)
Theorem StringFetchRow_not_cumulative seg row_id result result_idx bm cur prev :
  row_id <> 0 ->
  base_data seg row_id = Some cur ->
  base_data seg (row_id - 1) = Some prev ->
  Z.abs cur < Z.abs prev ->
  StringFetchRow seg row_id result result_idx bm = None.
Proof.
  intros Hrow Hcur Hprev Habs. unfold StringFetchRow.
  destruct (GetDictionaryEnd seg) as [de|]; [|done]. osimpl.
  rewrite Hcur. osimpl.
  destruct (Z.eqb_spec row_id 0); [done |].
  rewrite Hprev. osimpl. unfold NumericCast_u32.
  destruct (Z.leb_spec 0 (Z.abs cur - Z.abs prev)); [lia |]. done.
Qed.

(** The loop of Select over the rows i, i + 1, ... is the loop of the scan
    from row i. *)
Lemma select_loop_seqZ seg de start n : forall i prev result bm,
  0 <= start -> 0 <= i -> start + i + Z.of_nat n <= 2 ^ 64 ->
  (n <> 0%nat -> previous_entry seg (start + i) = Some prev) ->
  select_loop seg de start (seqZ i (Z.of_nat n)) i result bm
  = scan_loop seg de start 0 n i prev result bm.
Proof.
  induction n as [|n IH]; intros i prev result bm Hs Hi Hn Hprev; [done |].
  rewrite seqZ_cons by lia.
  replace (Z.pred (Z.of_nat (S n))) with (Z.of_nat n) by lia.
  replace (Z.succ i) with (i + 1) by lia.
  cbn [select_loop scan_loop].
  rewrite IntFacts.u64_small by lia.
  destruct (base_data seg (start + i)) as [cur|] eqn:Ecur; [|done]. osimpl.
  specialize (Hprev ltac:(done)). unfold previous_entry in Hprev.
  rewrite Hprev. osimpl. rewrite Z.add_0_l.
  destruct (FetchStringFromDict _ _ _ _ _ _ _) as [[[s r] bm1]|]; [|done].
  osimpl. destruct (set_data r i s) as [r1|]; [|done]. osimpl.
  apply IH; [done | lia | lia |].
  intros _. replace (start + (i + 1)) with (start + i + 1) by lia.
  by rewrite previous_entry_succ by lia.
Qed.

(** X17. Select over the rows 0, 1, ..., n - 1 in order is StringScan of
    n rows: the same result vector and buffer manager state, or the same
    failure. *)
Theorem Select_all_is_StringScan seg start (n : nat) result bm :
  0 <= start -> start + Z.of_nat n <= 2 ^ 64 ->
  is_Some (previous_entry seg start) ->
  Select seg start result (seqZ 0 (Z.of_nat n)) bm
  = StringScan seg start n result bm.
Proof.
  intros Hs Hn [prev Hprev]. unfold Select, StringScan, StringScanPartial.
  destruct (GetDictionaryEnd seg) as [de|]; [|done]. osimpl.
  unfold previous_entry in Hprev. rewrite Hprev. osimpl.
  apply select_loop_seqZ; [done | done | lia |].
  intros _. by rewrite Z.add_0_r.
Qed.

End ScanSelect.

(** ** What a scan leaves alone *)

Section ScanFrame.
Context {info : StorageInfo}.
Import Mem MemFacts LoadStore.

Lemma set_data_inv result i s r' :
  set_data result i s = Some r' ->
  0 <= i < len (data result) /\
  data r' = <[Z.to_nat i := s]> (data result).
Proof.
  unfold set_data. intros H.
  destruct (Z.leb_spec 0 i); [|done].
  destruct (Z.ltb_spec i (len (data result))); [|done].
  cbn in H. injection H as <-. done.
Qed.

(** The loop of the scan writes the slots result_offset + i, ... of the
    result and nothing else. *)
Lemma scan_loop_frame seg de start ro n : forall i prev result bm r' bm',
  scan_loop seg de start ro n i prev result bm = Some (r', bm') ->
  length (data r') = length (data result) /\ disk bm' = disk bm /\
  (n <> 0%nat -> 0 <= ro + i /\ ro + i + Z.of_nat n <= len (data result)) /\
  forall j : nat,
    Z.of_nat j < ro + i \/ ro + i + Z.of_nat n <= Z.of_nat j ->
    data r' !! j = data result !! j.
Proof.
  induction n as [|n IH]; intros i prev result bm r' bm' H.
  - cbn in H. injection H as <- <-. done.
  - cbn [scan_loop] in H.
    destruct (base_data seg (start + i)) as [cur|]; [|done]. osimpl in H.
    destruct (FetchStringFromDict _ _ _ _ _ _ _) as [[[s r1] bm1]|] eqn:EF;
      [|done].
    osimpl in H.
    destruct (set_data r1 (ro + i) s) as [r2|] eqn:ES; [|done]. osimpl in H.
    apply FetchStringFromDict_frame in EF as [Hd1 Hk1].
    apply set_data_inv in ES as [Hi Hd2].
    apply IH in H as (HL & HD & HB & HF).
    rewrite Hd2, length_insert, Hd1 in HL. rewrite Hd1 in Hi.
    unfold len in *.
    split; [done |]. split; [congruence |]. split.
    + intros _. destruct n as [|m]; [lia |].
      specialize (HB ltac:(done)). rewrite Hd2, length_insert, Hd1 in HB. lia.
    + intros j Hj. rewrite HF by lia. rewrite Hd2, Hd1.
      apply list_lookup_insert_ne. lia.
Qed.

(** X23. A scan that succeeds has written the slots result_offset, ...,
    result_offset + count - 1 and nothing else: the vector keeps its
    length, every other slot and the durable blocks are unchanged, and the
    slots written lie inside the vector. *)
Theorem StringScanPartial_frame seg start n result ro bm r' bm' :
  StringScanPartial seg start n result ro bm = Some (r', bm') ->
  length (data r') = length (data result) /\
  disk bm' = disk bm /\
  (n <> 0%nat -> 0 <= ro /\ ro + Z.of_nat n <= len (data result)) /\
  forall j : nat,
    Z.of_nat j < ro \/ ro + Z.of_nat n <= Z.of_nat j ->
    data r' !! j = data result !! j.
Proof.
  unfold StringScanPartial. intros H.
  destruct (GetDictionaryEnd seg) as [de|]; [|done]. osimpl in H.
  destruct (if 0 <? start then _ else _) as [prev|]; [|done]. osimpl in H.
  apply scan_loop_frame in H as (HL & HD & HB & HF).
  rewrite Z.add_0_r in HB. split; [done |]. split; [done |]. split; [done |].
  intros j Hj. apply HF. lia.
Qed.

End ScanFrame.


(** ** StringAnalyze *)

Section Analyze.
Context {info : StorageInfo}.
Import Mem MemFacts LoadStore.

(** The loop of StringAnalyze visits the rows of the batch one by one. *)
Lemma analyze_loop_rows vdata n : forall state i,
  0 <= i ->
  match mapM (fun j => idx ← get_index (uv_sel vdata) j; selected_row vdata idx)
          (seqZ i (Z.of_nat n)) with
  | Some rows =>
      analyze_loop state vdata n i = Some (foldl analyze_row state rows)
  | None => analyze_loop state vdata n i = None
  end.
Proof.
  induction n as [|n IH]; intros state i Hi; [done |].
  rewrite seqZ_cons by lia.
  replace (Z.pred (Z.of_nat (S n))) with (Z.of_nat n) by lia.
  replace (Z.succ i) with (i + 1) by lia.
  cbn [mapM analyze_loop].
  destruct (get_index (uv_sel vdata) i) as [idx|]; [|done]. osimpl.
  unfold selected_row.
  destruct (RowIsValid (uv_validity vdata) idx) as [[|]|]; [| |done]; osimpl.
  - destruct (nth_Z (uv_data vdata) idx) as [s|]; [|done]. osimpl.
    specialize (IH (analyze_row state (Some s)) (i + 1) ltac:(lia)).
    destruct (mapM _ (seqZ (i + 1) (Z.of_nat n))) as [rows|]; osimpl.
    + cbn [foldl]. rewrite <- IH. unfold analyze_row. cbn.
      by destruct (GetStringBlockLimit (an_block_size state) <=? len s).
    + rewrite <- IH. unfold analyze_row. cbn.
      by destruct (GetStringBlockLimit (an_block_size state) <=? len s).
  - specialize (IH state (i + 1) ltac:(lia)).
    by destruct (mapM _ (seqZ (i + 1) (Z.of_nat n))) as [rows|].
Qed.

Lemma StringAnalyze_rows state vdata n :
  match batch_rows vdata n with
  | Some rows =>
      StringAnalyze state vdata n
      = Some (true, foldl analyze_row (add_count state n) rows)
  | None => StringAnalyze state vdata n = None
  end.
Proof.
  unfold batch_rows, StringAnalyze.
  pose proof (analyze_loop_rows vdata n (add_count state n) 0 ltac:(lia)) as L.
  unfold add_count in *.
  destruct (mapM _ (seqZ 0 (Z.of_nat n))) as [rows|]; by rewrite L.
Qed.

Lemma u64_add_l a b : Int.u64 (Int.u64 a + b) = Int.u64 (a + b).
Proof. unfold Int.u64. by rewrite Zplus_mod_idemp_l. Qed.

Lemma u64_range a : 0 <= Int.u64 a < 2 ^ 64.
Proof. unfold Int.u64. apply Z.mod_pos_bound. done. Qed.

Lemma analyze_row_comm state a b :
  analyze_row (analyze_row state a) b = analyze_row (analyze_row state b) a.
Proof.
  destruct a as [s|], b as [t|]; try done. unfold analyze_row. cbn.
  destruct (GetStringBlockLimit (an_block_size state) <=? len s) eqn:Es,
    (GetStringBlockLimit (an_block_size state) <=? len t) eqn:Et; cbn;
    rewrite ?Es, ?Et; cbn; rewrite ?u64_add_l; f_equal; f_equal; lia.
Qed.

Lemma foldl_analyze_row_perm rows1 rows2 :
  rows1 ≡ₚ rows2 ->
  forall state, foldl analyze_row state rows1 = foldl analyze_row state rows2.
Proof.
  induction 1 as [|x l l' _ IH|x y l|l1 l2 l3 _ IH1 _ IH2]; intros state; cbn.
  - done.
  - apply IH.
  - by rewrite analyze_row_comm.
  - by rewrite IH1.
Qed.

Lemma rows_size_cons row rows :
  rows_size (row :: rows)
  = match row with Some s => len s + rows_size rows | None => rows_size rows end.
Proof. by destruct row. Qed.

Lemma rows_overflow_cons B row rows :
  rows_overflow B (row :: rows)
  = match row with
    | Some s => (if GetStringBlockLimit B <=? len s then 1 else 0)
                + rows_overflow B rows
    | None => rows_overflow B rows
    end.
Proof. by destruct row. Qed.

(** The counters after a list of rows. *)
Lemma foldl_analyze_row_fields rows : forall state,
  0 <= total_string_size state < 2 ^ 64 ->
  0 <= overflow_strings state < 2 ^ 64 ->
  an_block_size (foldl analyze_row state rows) = an_block_size state /\
  an_count (foldl analyze_row state rows) = an_count state /\
  total_string_size (foldl analyze_row state rows)
    = Int.u64 (total_string_size state + rows_size rows) /\
  overflow_strings (foldl analyze_row state rows)
    = Int.u64 (overflow_strings state
               + rows_overflow (an_block_size state) rows).
Proof.
  induction rows as [|row rows IH]; intros state Ht Ho.
  - cbn. by rewrite !Z.add_0_r, !IntFacts.u64_small.
  - cbn [foldl]. rewrite rows_size_cons, rows_overflow_cons.
    destruct row as [s|]; [|by apply IH].
    assert (Hrow : an_block_size (analyze_row state (Some s))
                   = an_block_size state /\
                   an_count (analyze_row state (Some s)) = an_count state /\
                   total_string_size (analyze_row state (Some s))
                   = Int.u64 (total_string_size state + len s) /\
                   overflow_strings (analyze_row state (Some s))
                   = if GetStringBlockLimit (an_block_size state) <=? len s
                     then Int.u64 (overflow_strings state + 1)
                     else overflow_strings state).
    { unfold analyze_row. cbn.
      by destruct (GetStringBlockLimit (an_block_size state) <=? len s). }
    destruct Hrow as (R1 & R2 & R3 & R4).
    destruct (IH (analyze_row state (Some s))) as (H1 & H2 & H3 & H4).
    { rewrite R3. apply u64_range. }
    { rewrite R4. destruct (_ <=? _); [apply u64_range | done]. }
    rewrite H1, H2, H3, H4, R1, R2, R3, R4.
    split; [done |]. split; [done |]. split.
    + rewrite u64_add_l. f_equal. lia.
    + destruct (GetStringBlockLimit (an_block_size state) <=? len s).
      * rewrite u64_add_l. f_equal. lia.
      * f_equal.
Qed.

(** X18. StringAnalyze is additive over batches and insensitive to the
    order of the rows and to the representation of a batch: when the rows
    of a batch are, up to order, the rows of two batches, analyzing it
    gives the state that analyzing the two batches one after the other
    gives. *)
Theorem StringAnalyze_batches state vdata vdata1 vdata2 (n1 n2 : nat)
    rows rows1 rows2 :
  batch_rows vdata (n1 + n2) = Some rows ->
  batch_rows vdata1 n1 = Some rows1 ->
  batch_rows vdata2 n2 = Some rows2 ->
  rows ≡ₚ rows1 ++ rows2 ->
  StringAnalyze state vdata (n1 + n2)
  = '(_, state1) ← StringAnalyze state vdata1 n1;
    StringAnalyze state1 vdata2 n2.
Proof.
  intros H H1 H2 Hperm.
  pose proof (StringAnalyze_rows state vdata (n1 + n2)) as E. rewrite H in E.
  pose proof (StringAnalyze_rows state vdata1 n1) as E1. rewrite H1 in E1.
  rewrite E, E1. osimpl.
  pose proof (StringAnalyze_rows (foldl analyze_row (add_count state n1) rows1)
                vdata2 n2) as E2.
  rewrite H2 in E2. rewrite E2. f_equal. f_equal.
  rewrite (foldl_analyze_row_perm _ _ Hperm), foldl_app.
  assert (Hc : forall st rs m,
            add_count (foldl analyze_row st rs) m
            = foldl analyze_row (add_count st m) rs).
  { intros st rs m. revert st. induction rs as [|r rs IH]; intros st; [done |].
    cbn [foldl]. rewrite IH. f_equal. destruct r as [s|]; [|done].
    unfold analyze_row, add_count. cbn.
    by destruct (GetStringBlockLimit (an_block_size st) <=? len s). }
  rewrite Hc. f_equal. f_equal. unfold add_count. cbn.
  rewrite u64_add_l. f_equal. f_equal. lia.
Qed.

Lemma rows_size_nonneg rows : 0 <= rows_size rows.
Proof.
  induction rows as [|[s|] rows IH]; rewrite ?rows_size_cons; [done | |done].
  pose proof (len_nonneg s). lia.
Qed.

Lemma rows_overflow_bounds B rows : 0 <= rows_overflow B rows <= len rows.
Proof.
  induction rows as [|[s|] rows IH]; rewrite ?rows_overflow_cons;
    unfold len in *; cbn [length].
  - done.
  - destruct (GetStringBlockLimit B <=? _); lia.
  - lia.
Qed.

Lemma dictionary_bytes_rows B rows :
  dictionary_bytes B (omap id rows)
  <= rows_size rows + BIG_STRING_MARKER_SIZE * rows_overflow B rows /\
  (rows_overflow B rows = 0 ->
   dictionary_bytes B (omap id rows) = rows_size rows).
Proof.
  unfold BIG_STRING_MARKER_SIZE, sizeof_block_id_t, sizeof_int32_t.
  induction rows as [|[s|] rows [IH1 IH2]];
    rewrite ?rows_size_cons, ?rows_overflow_cons; [done | |done].
  cbn [omap list_omap id dictionary_bytes].
  pose proof (len_nonneg s). pose proof (rows_overflow_bounds B rows).
  unfold required_space, BIG_STRING_MARKER_SIZE, sizeof_block_id_t,
    sizeof_int32_t.
  destruct (GetStringBlockLimit B <=? len s); split; lia.
Qed.

Lemma batch_rows_length vdata n rows :
  batch_rows vdata n = Some rows -> length rows = n.
Proof.
  unfold batch_rows. intros H. apply length_mapM in H.
  rewrite length_seqZ in H. lia.
Qed.

(** X19. After one batch from the initial state, StringFinalAnalyze
    reports 4 bytes per row, the bytes of the valid strings and one marker
    for every string at or above the overflow threshold; NULL rows add
    their offset entry only. The size is never below the space the valid
    values take in a block (4 * n plus their dictionary bytes) and equals
    it when no value overflows. *)
Theorem StringFinalAnalyze_estimate B vdata (n : nat) rows :
  batch_rows vdata n = Some rows ->
  sizeof_int32_t * Z.of_nat n + rows_size rows
    + BIG_STRING_MARKER_SIZE * Z.of_nat n < 2 ^ 64 ->
  exists state,
    StringAnalyze (StringInitAnalyze B) vdata n = Some (true, state) /\
    StringFinalAnalyze state
      = sizeof_int32_t * Z.of_nat n + rows_size rows
        + BIG_STRING_MARKER_SIZE * rows_overflow B rows /\
    sizeof_int32_t * Z.of_nat n + dictionary_bytes B (omap id rows)
      <= StringFinalAnalyze state /\
    (rows_overflow B rows = 0 ->
     StringFinalAnalyze state
       = sizeof_int32_t * Z.of_nat n + dictionary_bytes B (omap id rows)).
Proof.
  intros H Hbound.
  pose proof (StringAnalyze_rows (StringInitAnalyze B) vdata n) as E.
  rewrite H in E. eexists. split; [exact E |].
  destruct (foldl_analyze_row_fields rows (add_count (StringInitAnalyze B) n))
    as (_ & Hc & Ht & Ho); [done | done |].
  cbn [add_count StringInitAnalyze an_count total_string_size overflow_strings
       an_block_size] in Hc, Ht, Ho.
  pose proof (rows_size_nonneg rows) as Hs0.
  pose proof (rows_overflow_bounds B rows) as Hov.
  pose proof (batch_rows_length _ _ _ H) as Hlen.
  unfold len in Hov. rewrite Hlen in Hov.
  pose proof (dictionary_bytes_rows B rows) as [Hd1 Hd2].
  unfold BIG_STRING_MARKER_SIZE, sizeof_block_id_t, sizeof_int32_t in *.
  change (2 ^ 64) with 18446744073709551616 in *.
  assert (Hfinal : StringFinalAnalyze
                     (foldl analyze_row (add_count (StringInitAnalyze B) n) rows)
                   = 4 * Z.of_nat n + rows_size rows
                     + (8 + 4) * rows_overflow B rows).
  { unfold StringFinalAnalyze, BIG_STRING_MARKER_SIZE, sizeof_block_id_t,
      sizeof_int32_t. rewrite Hc, Ht, Ho. rewrite !Z.add_0_l.
    rewrite (IntFacts.u64_small (Z.of_nat n)),
      (IntFacts.u64_small (rows_size rows)),
      (IntFacts.u64_small (rows_overflow B rows))
      by (change (2 ^ 64) with 18446744073709551616; lia).
    rewrite IntFacts.u64_small
      by (change (2 ^ 64) with 18446744073709551616; lia). lia. }
  rewrite Hfinal. split; [done |]. split; [lia |]. intros H0.
  rewrite (Hd2 H0), H0. lia.
Qed.

End Analyze.

(** ** The fetch state and the prefetch *)

Section FetchState.
Context {info : StorageInfo}.

(** X20. GetOrInsertHandle returns a handle that is registered under the
    block id of the segment: the pin of the block when none was
    registered, the registered one otherwise. Asking again, for any segment
    on that block, returns the same handle and leaves the state as it
    is. *)
Theorem GetOrInsertHandle_pins_once state seg handle state' :
  GetOrInsertHandle state seg = (handle, state') ->
  fetch_handles state' !! BlockId (block seg) = Some handle /\
  (fetch_handles state !! BlockId (block seg) = None -> handle = block seg) /\
  forall seg2, BlockId (block seg2) = BlockId (block seg) ->
    GetOrInsertHandle state' seg2 = (handle, state').
Proof.
  unfold GetOrInsertHandle. intros H.
  destruct (fetch_handles state !! BlockId (block seg)) as [entry|] eqn:E.
  - injection H as <- <-. split; [done |]. split; [done |].
    intros seg2 ->. by rewrite E.
  - injection H as <- <-. cbn. rewrite lookup_insert_eq.
    split; [done |]. split; [done |].
    intros seg2 ->. by rewrite lookup_insert_eq.
Qed.

(** X21. GetOrInsertHandle keeps every handle the state holds: no entry is
    replaced or removed, the entries of other blocks are unchanged, and the
    only entry it may add is the pin of the segment's block. *)
Theorem GetOrInsertHandle_keeps_pins state seg handle state' :
  GetOrInsertHandle state seg = (handle, state') ->
  fetch_handles state ⊆ fetch_handles state' /\
  (forall id, id <> BlockId (block seg) ->
     fetch_handles state' !! id = fetch_handles state !! id) /\
  (forall id h, fetch_handles state' !! id = Some h ->
     fetch_handles state !! id = Some h \/
     (id = BlockId (block seg) /\ h = block seg)).
Proof.
  unfold GetOrInsertHandle. intros H.
  destruct (fetch_handles state !! BlockId (block seg)) as [entry|] eqn:E.
  - injection H as <- <-. split; [done |]. split; [done |]. intros id h Hh.
    by left.
  - injection H as <- <-. cbn. split; [by apply insert_subseteq |]. split.
    + intros id Hid. by rewrite lookup_insert_ne.
    + intros id h Hh. destruct (decide (id = BlockId (block seg))) as [-> | Hne].
      * rewrite lookup_insert_eq in Hh. injection Hh as <-. by right.
      * rewrite lookup_insert_ne in Hh by done. by left.
Qed.

Lemma foldl_AddBlock l : forall p : PrefetchState,
  foldl (fun prefetch_state block_id => AddBlock prefetch_state block_id) p l
  = p ++ l.
Proof.
  induction l as [|b l IH]; intros p; cbn [foldl].
  - by rewrite app_nil_r.
  - rewrite IH. unfold AddBlock. by rewrite <- app_assoc.
Qed.

(** X22. After a reload (SerializeState, persist, restore,
    StringInitSegment) the prefetch asks for the primary block and then for
    exactly the durable overflow blocks of the serialized segment, in
    order; without a segment state it asks for the primary block only. *)
Theorem UncompressedStringInitPrefetch_reloaded seg seg2 block_id restored
    seg2' state prefetch_state :
  RestoreState (PersistState (SerializeState seg)) = Some restored ->
  StringInitSegment seg2 block_id restored = Some (seg2', state) ->
  UncompressedStringInitPrefetch seg2' (Some state) prefetch_state
    = prefetch_state ++ BlockId (block seg2)
                        :: on_disk_blocks (segment_state seg) /\
  UncompressedStringInitPrefetch seg2' None prefetch_state
    = prefetch_state ++ [BlockId (block seg2)].
Proof.
  intros Hr Hi.
  assert (Hid : BlockId (block seg2') = BlockId (block seg2)).
  { unfold StringInitSegment in Hi.
    destruct (block_id =? INVALID_BLOCK).
    - destruct (SetDictionary seg2 _) as [s|] eqn:Es; [|done]. osimpl in Hi.
      injection Hi as <- _. unfold SetDictionary in Es.
      destruct (Mem.Store_u32 _ _ _) as [b1|]; [|done]. osimpl in Es.
      destruct (Mem.Store_u32 _ b1 _) as [b2|]; [|done]. osimpl in Es.
      by injection Es as <-.
    - osimpl in Hi. by injection Hi as <- _. }
  assert (Hblocks : on_disk_blocks state = on_disk_blocks (segment_state seg)).
  { unfold StringInitSegment in Hi.
    destruct (if block_id =? INVALID_BLOCK then _ else _) as [s|]; [|done].
    osimpl in Hi. injection Hi as _ <-.
    unfold SerializeState, PersistState, RestoreState in Hr.
    destruct (on_disk_blocks (segment_state seg)) as [|b l].
    - cbn in Hr. by injection Hr as <-.
    - cbn in Hr. by injection Hr as <-. }
  unfold UncompressedStringInitPrefetch, AddBlock.
  rewrite foldl_AddBlock, Hid, Hblocks, <- app_assoc. done.
Qed.

End FetchState.

(** ** The iterations of the durable read loop *)

Section LoopBound.
Context {info : StorageInfo}.
Import Mem MemFacts LoadStore.

Lemma read_overflow_loop_done fuel B bm handle offset remaining target tp :
  remaining <= 0 ->
  read_overflow_loop fuel B bm handle offset remaining target tp = Some target.
Proof.
  intros H. destruct fuel; cbn [read_overflow_loop];
    by destruct (Z.leb_spec remaining 0); [|lia].
Qed.

(** From offset 0 every iteration copies at least one byte. *)
Lemma read_overflow_loop_fuel_0 B bm (n : nat) :
  8 < B < 2 ^ 64 ->
  forall remaining fuel1 fuel2 handle target tp,
    0 <= remaining < 2 ^ 32 -> (Z.to_nat remaining <= n)%nat ->
    (n <= fuel1)%nat -> (n <= fuel2)%nat ->
    read_overflow_loop fuel1 B bm handle 0 remaining target tp
    = read_overflow_loop fuel2 B bm handle 0 remaining target tp.
Proof.
  intros HB. change (2 ^ 64) with 18446744073709551616 in HB.
  induction n as [|n IH]; intros remaining fuel1 fuel2 handle target tp Hr Hn H1 H2.
  - rewrite !read_overflow_loop_done by lia. done.
  - destruct (Z.leb_spec remaining 0) as [Hle | Hgt].
    { rewrite !read_overflow_loop_done by lia. done. }
    destruct fuel1 as [|f1]; [lia |]. destruct fuel2 as [|f2]; [lia |].
    cbn [read_overflow_loop].
    destruct (Z.leb_spec remaining 0); [lia |].
    unfold sizeof_block_id_t.
    change (Int.u64 0) with 0. rewrite Z.sub_0_r.
    rewrite (IntFacts.u64_small (B - 8))
      by (change (2 ^ 64) with 18446744073709551616; lia).
    set (to_write := Z.min remaining (B - 8)).
    assert (Hw : 1 <= to_write <= remaining) by (unfold to_write; lia).
    destruct (read handle 0 to_write) as [piece|]; [|done]. osimpl.
    destruct (write target tp piece) as [target'|]; [|done]. osimpl.
    change (2 ^ 32) with 4294967296 in Hr.
    rewrite (IntFacts.u32_small (remaining - to_write))
      by (change (2 ^ 32) with 4294967296; lia).
    destruct (Z.ltb_spec 0 (remaining - to_write)).
    + destruct (Load_i64 handle _) as [next|]; [|done]. osimpl.
      destruct (Pin bm next) as [handle'|]; [|done]. osimpl.
      apply IH; [change (2 ^ 32) with 4294967296; lia | lia | lia | lia].
    + rewrite !read_overflow_loop_done by lia. done.
Qed.

(** X24. The loop of the durable read path ends within length + 1
    iterations when a block is larger than its trailing pointer: from the
    second iteration on every iteration starts at offset 0 and copies at
    least one byte, so a larger iteration budget than the one
    ReadOverflowString gives never changes the outcome. *)
Theorem read_overflow_loop_fuel B bm handle offset remaining target tp fuel :
  8 < B < 2 ^ 64 -> 0 <= remaining < 2 ^ 32 ->
  (S (Z.to_nat remaining) <= fuel)%nat ->
  read_overflow_loop fuel B bm handle offset remaining target tp
  = read_overflow_loop (S (Z.to_nat remaining)) B bm handle offset remaining
      target tp.
Proof.
  intros HB Hr Hf. destruct fuel as [|f]; [lia |].
  cbn [read_overflow_loop].
  destruct (Z.leb_spec remaining 0); [done |].
  set (to_write := Z.min remaining _).
  assert (Hw : 0 <= to_write <= remaining).
  { unfold to_write.
    pose proof (u64_range (B - sizeof_block_id_t - Int.u64 offset)). lia. }
  destruct (read handle offset to_write) as [piece|]; [|done]. osimpl.
  destruct (write target tp piece) as [target'|]; [|done]. osimpl.
  change (2 ^ 32) with 4294967296 in Hr.
  rewrite (IntFacts.u32_small (remaining - to_write))
    by (change (2 ^ 32) with 4294967296; lia).
  destruct (Z.ltb_spec 0 (remaining - to_write)).
  - destruct (Load_i64 handle _) as [next|]; [|done]. osimpl.
    destruct (Pin bm next) as [handle'|]; [|done]. osimpl.
    apply (read_overflow_loop_fuel_0 B bm (Z.to_nat (remaining - to_write)) HB);
      [change (2 ^ 32) with 4294967296; lia | lia | lia | lia].
  - rewrite !read_overflow_loop_done by lia. done.
Qed.

End LoopBound.

(** ** Examples *)

Section FurtherExamples.
Import Mem MemFacts LoadStore Examples.
#[local] Existing Instance example_info.

Lemma one_string_store :
  store_ok (segment_state one_string_segment) one_string_storage /\
  stored one_string_segment (disk one_string_storage) 4611686018427388001 0
    str_abcd.
Proof.
  destruct (WriteStringMemory_store (blank_segment 64) str_abcd example_storage)
    as (b & o & st1 & bm1 & E & Hok & _ & _ & Hst & _).
  - split; [constructor |]. split; [by intros [|?] ? |]. split; [done |].
    vm_compute. split; congruence.
  - vm_compute. congruence.
  - vm_compute. split; congruence.
  - vm_compute. reflexivity.
  - vm_compute in E. injection E as <- <- <- <-. done.
Qed.

Lemma mixed_segment_repr :
  segment_repr 64 mixed_segment mixed_storage [str_a; str_z 20; str_bb].
Proof.
  destruct (init_append_repr (blank_segment 64) example_storage
              [str_a; str_z 20; str_bb])
    as (seg1 & st & seg & bm' & Einit & Eapp & Hrepr & _).
  - apply fresh_blank_segment. vm_compute. split; congruence.
  - repeat constructor; vm_compute; congruence.
  - vm_compute. congruence.
  - vm_compute. reflexivity.
  - vm_compute in Einit. injection Einit as <- <-.
    vm_compute in Eapp. injection Eapp as <- <-. exact Hrepr.
Qed.

Lemma mixed_values_ok : values_ok [str_a; str_z 20; str_bb].
Proof. repeat constructor; vm_compute; congruence. Qed.

Lemma SetDictionary_GetDictionary_witness :
  exists seg',
    SetDictionary (blank_segment 16)
      {| dict_size := 3; dict_end := 4294967296 + 16 |} = Some seg' /\
    GetDictionary seg' = Some {| dict_size := 3; dict_end := 16 |}.
Proof.
  destruct (SetDictionary (blank_segment 16)
              {| dict_size := 3; dict_end := 4294967296 + 16 |})
    as [seg'|] eqn:E; [|vm_compute in E; congruence].
  exists seg'. split; [reflexivity |].
  exact (proj1 (SetDictionary_GetDictionary _ _ _ E)).
Defined.

Lemma SetDictionary_frame_witness :
  exists seg',
    SetDictionary abc_segment {| dict_size := 6; dict_end := 100 |} = Some seg' /\
    len (Ptr (block seg')) = 256 /\ base_data seg' 1 = Some 3.
Proof.
  destruct (SetDictionary abc_segment {| dict_size := 6; dict_end := 100 |})
    as [seg'|] eqn:E; [|vm_compute in E; congruence].
  exists seg'. split; [reflexivity |].
  destruct (SetDictionary_frame _ _ _ E) as (L & _ & Hb & _).
  split; [exact L |]. rewrite Hb; [|vm_compute; congruence].
  vm_compute. reflexivity.
Defined.

Lemma StringInitSegment_new_block_witness :
  exists seg' st,
    StringInitSegment (blank_segment 64) INVALID_BLOCK None = Some (seg', st) /\
    GetDictionary seg' = Some {| dict_size := 0; dict_end := 64 |} /\
    RemainingSpace seg' = Some 56 /\
    StringInitSegment (blank_segment 64) 7 None = Some (blank_segment 64, st).
Proof.
  destruct (StringInitSegment_new_block (blank_segment 64) None)
    as (seg' & st & E & Hd & Hr & _ & _ & _ & _ & _ & Hk).
  - vm_compute. congruence.
  - vm_compute. congruence.
  - vm_compute. congruence.
  - vm_compute. congruence.
  - vm_compute. reflexivity.
  - exists seg', st. split; [exact E |]. split; [exact Hd |].
    split; [exact Hr |]. apply Hk. vm_compute. congruence.
Defined.

Lemma WriteStringMarker_frame_witness :
  exists buf',
    WriteStringMarker (replicate 16 x01) 2 4611686018427388001 (-7) = Some buf' /\
    len buf' = 16 /\ read buf' 0 2 = Some [x01; x01] /\
    read buf' 14 2 = Some [x01; x01].
Proof.
  destruct (WriteStringMarker (replicate 16 x01) 2 4611686018427388001 (-7))
    as [buf'|] eqn:E; [|vm_compute in E; congruence].
  exists buf'. split; [reflexivity |].
  destruct (WriteStringMarker_frame _ _ _ _ _ E) as (_ & _ & L & _ & F).
  split; [exact L |].
  rewrite !F by (vm_compute; (left; congruence) || (right; congruence)).
  split; vm_compute; reflexivity.
Defined.

Lemma FinalizeAppend_layout_witness :
  exists seg',
    FinalizeAppend abc_segment = Some (26, seg') /\
    RemainingSpace abc_segment = Some 230 /\
    GetDictionary seg' = Some {| dict_size := 6; dict_end := 26 |} /\
    base_data seg' 2 = base_data abc_segment 2 /\
    read (Ptr (block seg')) 20 6 = read (Ptr (block abc_segment)) 250 6.
Proof.
  destruct (FinalizeAppend_layout abc_segment {| dict_size := 6; dict_end := 256 |})
    as (total & seg' & -> & EF & ER & Hd & Hb & Hread & _).
  - vm_compute. reflexivity.
  - reflexivity.
  - vm_compute. congruence.
  - reflexivity.
  - vm_compute. congruence.
  - vm_compute. congruence.
  - vm_compute. reflexivity.
  - exists seg'. split; [exact EF |]. split; [exact ER |]. split; [exact Hd |].
    split; [|exact Hread]. apply Hb. vm_compute. split; congruence.
Defined.

Lemma FinalizeAppend_idempotent_witness :
  FinalizeAppend compacted_segment = Some (26, compacted_segment).
Proof.
  apply (FinalizeAppend_idempotent abc_segment
           {| dict_size := 6; dict_end := 256 |} 26
           (set_Ptr abc_segment (Ptr (block compacted_segment)))
           compacted_segment).
  - vm_compute. reflexivity.
  - reflexivity.
  - vm_compute. congruence.
  - reflexivity.
  - vm_compute. congruence.
  - vm_compute. congruence.
  - vm_compute. reflexivity.
  - vm_compute. reflexivity.
  - reflexivity.
  - reflexivity.
  - reflexivity.
  - reflexivity.
  - reflexivity.
Defined.

Lemma WriteStringMemory_read_back_witness :
  exists b o seg' bm' result' bm'',
    WriteStringMemory one_string_segment str_bb one_string_storage
      = Some (b, o, seg', bm') /\
    MAXIMUM_BLOCK <= b /\
    ReadOverflowString seg' (blank_vector 1) b o bm'
      = Some (str_bb, result', bm'').
Proof.
  destruct (WriteStringMemory_read_back one_string_segment str_bb
              one_string_storage (blank_vector 1))
    as (b & o & seg' & bm' & r' & bm'' & E & Hb & _ & _ & _ & ER).
  - apply one_string_store.
  - vm_compute. congruence.
  - vm_compute. split; congruence.
  - vm_compute. reflexivity.
  - exists b, o, seg', bm', r', bm''. done.
Defined.

Lemma WriteStringMemory_keeps_stored_witness :
  exists b o seg' bm' result' bm'',
    WriteStringMemory one_string_segment str_bb one_string_storage
      = Some (b, o, seg', bm') /\
    (b, o) <> (4611686018427388001, 0) /\
    ReadOverflowString seg' (blank_vector 1) 4611686018427388001 0 bm'
      = Some (str_abcd, result', bm'').
Proof.
  destruct (WriteStringMemory_keeps_stored one_string_segment str_bb
              one_string_storage 4611686018427388001 0 str_abcd (blank_vector 1))
    as (b & o & seg' & bm' & r' & bm'' & E & Hne & _ & ER).
  - apply one_string_store.
  - vm_compute. congruence.
  - vm_compute. split; congruence.
  - vm_compute. reflexivity.
  - apply one_string_store.
  - vm_compute. congruence.
  - exists b, o, seg', bm', r', bm''. done.
Defined.

Lemma WriteStringMemory_frame_witness :
  exists b o seg' bm',
    WriteStringMemory segment_with_chain str_abcd storage_after_chain
      = Some (b, o, seg', bm') /\
    block seg' = block segment_with_chain /\
    disk bm' = disk storage_after_chain /\
    free_block_id bm' = free_block_id storage_after_chain.
Proof.
  destruct (WriteStringMemory segment_with_chain str_abcd storage_after_chain)
    as [[[[b o] seg'] bm']|] eqn:E; [|vm_compute in E; congruence].
  exists b, o, seg', bm'. split; [reflexivity |].
  destruct (WriteStringMemory_frame _ _ _ _ _ _ _ E)
    as (H1 & _ & _ & _ & _ & _ & _ & H2 & H3 & _).
  done.
Defined.

Lemma ReadOverflowString_owned_witness :
  exists h p,
    handles (default (blank_vector 1)
               ((fun r => r.1.2)
                  <$> ReadOverflowString durable_segment (blank_vector 1) 0 24
                        durable_storage)) = [h] /\
    read (Ptr h) p 100 = Some (str_z 100).
Proof.
  destruct (ReadOverflowString durable_segment (blank_vector 1) 0 24
              durable_storage) as [[[s r'] bm']|] eqn:E.
  - destruct (ReadOverflowString_owned _ _ _ _ _ _ _ _ E)
      as (_ & _ & _ & [(Hheap & _) | (h & p & Hh & _ & Hread)]).
    + exfalso. vm_compute in E. injection E as _ <- _. discriminate Hheap.
    + exists h, p. split; [exact Hh |].
      vm_compute in E. injection E as <- _ _. exact Hread.
  - exfalso. vm_compute in E. discriminate E.
Defined.

Lemma ReadOverflowString_single_block_witness :
  ReadOverflowString durable_segment (blank_vector 1) 0 0 durable_storage
  = Some (str_z 20, AddHeapString (blank_vector 1) (str_z 20), durable_storage).
Proof.
  apply (ReadOverflowString_single_block durable_segment (blank_vector 1) 0 0
           durable_storage (default [] (Pin durable_storage 0)) 20 (str_z 20));
    vm_compute; first [reflexivity | congruence].
Defined.

Lemma StringScanPartial_split_witness :
  StringScanPartial abc_segment 0 3 (blank_vector 3) 0 example_storage
  = '(r, bm') ← StringScanPartial abc_segment 0 1 (blank_vector 3) 0
                  example_storage;
    StringScanPartial abc_segment 1 2 r 1 bm'.
Proof.
  apply (StringScanPartial_split abc_segment 0 1 2 (blank_vector 3) 0
           example_storage).
  vm_compute. congruence.
Defined.

Lemma StringScanPartial_repr_witness :
  exists r' bm',
    StringScanPartial mixed_segment 1 2 (blank_vector 4) 1 mixed_storage
      = Some (r', bm') /\
    data r' = [[]; str_z 20; str_bb; []].
Proof.
  destruct (StringScanPartial_repr 64 mixed_segment mixed_storage
              [str_a; str_z 20; str_bb] 1 2 1 (blank_vector 4))
    as (r' & bm' & E & Hdata & _).
  - apply mixed_segment_repr.
  - apply mixed_values_ok.
  - vm_compute. lia.
  - vm_compute. lia.
  - exists r', bm'. split; [exact E |]. etrans; [exact Hdata |].
    vm_compute. reflexivity.
Defined.

Lemma StringFetchRow_repr_witness :
  exists r' bm',
    StringFetchRow mixed_segment 1 (blank_vector 2) 0 mixed_storage
      = Some (r', bm') /\
    data r' = [str_z 20; []].
Proof.
  destruct (StringFetchRow_repr 64 mixed_segment mixed_storage
              [str_a; str_z 20; str_bb] 1 0 (str_z 20) (blank_vector 2))
    as (r' & bm' & E & Hdata & _).
  - apply mixed_segment_repr.
  - apply mixed_values_ok.
  - reflexivity.
  - vm_compute. lia.
  - exists r', bm'. split; [exact E |]. etrans; [exact Hdata |].
    vm_compute. reflexivity.
Defined.

Lemma Select_repr_witness :
  exists r' bm',
    Select mixed_segment 0 (blank_vector 4) [2; 1; 1; 0] mixed_storage
      = Some (r', bm') /\
    data r' = [str_bb; str_z 20; str_z 20; str_a].
Proof.
  destruct (Select_repr 64 mixed_segment mixed_storage
              [str_a; str_z 20; str_bb] [2; 1; 1; 0] (blank_vector 4))
    as (r' & bm' & picked & E & Hp & Hdata & _).
  - apply mixed_segment_repr.
  - apply mixed_values_ok.
  - repeat constructor; vm_compute; congruence.
  - vm_compute. lia.
  - exists r', bm'. split; [exact E |]. etrans; [exact Hdata |].
    vm_compute in Hp. injection Hp as <-. vm_compute. reflexivity.
Defined.

Lemma StringFetchRow_not_cumulative_witness :
  StringFetchRow decreasing_segment 1 (blank_vector 1) 0 example_storage = None.
Proof.
  apply (StringFetchRow_not_cumulative decreasing_segment 1 (blank_vector 1) 0
           example_storage 3 5); vm_compute; first [reflexivity | congruence].
Defined.

Lemma Select_all_is_StringScan_witness :
  Select abc_segment 1 (blank_vector 2) [0; 1] example_storage
  = StringScan abc_segment 1 2 (blank_vector 2) example_storage.
Proof.
  apply (Select_all_is_StringScan abc_segment 1 2 (blank_vector 2)
           example_storage).
  - vm_compute. congruence.
  - vm_compute. congruence.
  - vm_compute. by eexists.
Defined.

Lemma StringAnalyze_batches_witness :
  StringAnalyze (StringInitAnalyze 64) dictionary_batch 4
  = '(_, state1) ← StringAnalyze (StringInitAnalyze 64)
                     (flat_batch [str_z 20; str_z 20]) 2;
    StringAnalyze state1 null_batch 2.
Proof.
  apply (StringAnalyze_batches (StringInitAnalyze 64) dictionary_batch
           (flat_batch [str_z 20; str_z 20]) null_batch 2 2
           [Some (str_z 20); Some str_a; Some (str_z 20); None]
           [Some (str_z 20); Some (str_z 20)] [Some str_a; None]).
  - vm_compute. reflexivity.
  - vm_compute. reflexivity.
  - vm_compute. reflexivity.
  - apply perm_skip. apply perm_swap.
Defined.

Lemma StringFinalAnalyze_estimate_witness :
  exists state,
    StringAnalyze (StringInitAnalyze 64) dictionary_batch 4 = Some (true, state) /\
    StringFinalAnalyze state = 81.
Proof.
  destruct (StringFinalAnalyze_estimate 64 dictionary_batch 4
              [Some (str_z 20); Some str_a; Some (str_z 20); None])
    as (state & E & Hf & _).
  - vm_compute. reflexivity.
  - vm_compute. reflexivity.
  - exists state. split; [exact E |]. etrans; [exact Hf |].
    vm_compute. reflexivity.
Defined.

Lemma GetOrInsertHandle_pins_once_witness :
  fetch_handles (GetOrInsertHandle no_handles abc_segment).2
    !! BlockId (block abc_segment) = Some (block abc_segment) /\
  GetOrInsertHandle (GetOrInsertHandle no_handles abc_segment).2 abc_segment
  = GetOrInsertHandle no_handles abc_segment.
Proof.
  destruct (GetOrInsertHandle_pins_once no_handles abc_segment
              (block abc_segment)
              (GetOrInsertHandle no_handles abc_segment).2 eq_refl)
    as (H1 & _ & H2).
  split; [exact H1 |]. apply (H2 abc_segment). reflexivity.
Defined.

Lemma GetOrInsertHandle_keeps_pins_witness :
  fetch_handles (GetOrInsertHandle no_handles abc_segment).2
  ⊆ fetch_handles
      (GetOrInsertHandle (GetOrInsertHandle no_handles abc_segment).2
         durable_segment).2.
Proof.
  apply (GetOrInsertHandle_keeps_pins
           (GetOrInsertHandle no_handles abc_segment).2 durable_segment
           (GetOrInsertHandle (GetOrInsertHandle no_handles abc_segment).2
              durable_segment).1
           (GetOrInsertHandle (GetOrInsertHandle no_handles abc_segment).2
              durable_segment).2).
  by destruct (GetOrInsertHandle _ durable_segment).
Defined.

Lemma UncompressedStringInitPrefetch_reloaded_witness :
  exists seg2' state,
    StringInitSegment (blank_segment 64) 7
      (Some {| blocks := on_disk_blocks (segment_state durable_segment) |})
      = Some (seg2', state) /\
    UncompressedStringInitPrefetch seg2' (Some state) []
      = 4611686018427388000 :: on_disk_blocks (segment_state durable_segment).
Proof.
  eexists _, _. split; [reflexivity |].
  apply (UncompressedStringInitPrefetch_reloaded durable_segment
           (blank_segment 64) 7
           (Some {| blocks := on_disk_blocks (segment_state durable_segment) |})
           _ _ []).
  - vm_compute. reflexivity.
  - reflexivity.
Defined.

Lemma StringScanPartial_frame_witness :
  exists r' bm',
    StringScanPartial abc_segment 1 2 (blank_vector 4) 1 example_storage
      = Some (r', bm') /\
    data r' !! 0%nat = Some [] /\ data r' !! 3%nat = Some [] /\
    length (data r') = 4%nat.
Proof.
  destruct (StringScanPartial abc_segment 1 2 (blank_vector 4) 1 example_storage)
    as [[r' bm']|] eqn:E.
  - exists r', bm'. split; [reflexivity |].
    destruct (StringScanPartial_frame _ _ _ _ _ _ _ _ E) as (HL & _ & _ & HF).
    rewrite !HF by (vm_compute; (left; congruence) || (right; congruence)).
    done.
  - exfalso. vm_compute in E. discriminate E.
Defined.

Lemma read_overflow_loop_fuel_witness :
  read_overflow_loop 1000 64 durable_storage
    (default [] (Pin durable_storage 0)) 28 100 (replicate 100 x00) 0
  = Some (str_z 100).
Proof.
  etrans.
  - apply (read_overflow_loop_fuel 64 durable_storage
             (default [] (Pin durable_storage 0)) 28 100 (replicate 100 x00) 0
             1000).
    + vm_compute. split; congruence.
    + vm_compute. split; congruence.
    + vm_compute. lia.
  - vm_compute. reflexivity.
Defined.

End FurtherExamples.
